(** * keyserver: authentication, authorization and envelope encryption

    A shallow embedding of the TypeScript sources

      - [src/utils/encryption.ts]      (encryptKey, decryptKey)
      - [src/utils/client-decrypt.ts]  (decryptApiKey, hexToBuffer)
      - [src/middleware/auth.ts]       (generateApiKey, validateApiKey)
      - [src/middleware/appAuth.ts]    (loadApps, saveApps, registerApp,
                                        validateAppKey, checkAppPermission,
                                        createAppRateLimiter)
      - [src/middleware/security.ts]   (validateRequestOrigin)
      - [src/routes/auth.ts]           (register, login, rotate-api-key)
      - [src/routes/keys.ts]           (GET /openai, /anthropic, /all,
                                        POST /decrypt-test)
      - [src/routes/apps.ts]           (GET /keys/openai, /keys/anthropic, /keys/all)
      - [scripts/manage-apps.ts]       (parseArgs, revokeApp)

    Conventions.  A JavaScript string is the list of its UTF-16 code units
    (numbers below 2^16); a Buffer is a list of bytes.  Exceptions are the
    [Throw] case of [result].  Module-level variables, [process.env], the
    apps file and the random source are fields of an explicit [World].
    Node's cryptographic primitives (PBKDF2, the AES-256-GCM key stream and
    tag, bcrypt, JWT signing) are not part of the repository: they are the
    operations of the class [NodeCrypto]. *)

From Stdlib Require Import NArith ZArith Bool List Ascii String Lia.
From Stdlib Require Import Floats.SpecFloat.
From stdpp Require Import base option list strings gmap.

Set Default Proof Using "Type".
Local Open Scope N_scope.

(** ** JavaScript values used by the sources *)

Abbreviation byte := Ascii.ascii.
Abbreviation Buffer := (list Ascii.ascii).
Abbreviation jsstring := (list N).

(** String literals of the sources: one code unit per character. *)
Definition js (s : string) : jsstring :=
  map N_of_ascii (list_ascii_of_string s).

(** A JavaScript string is falsy exactly when it is empty; [undefined] is
    the [None] of an optional string. *)
Definition truthy (s : option jsstring) : bool :=
  match s with
  | Some (_ :: _) => true
  | _ => false
  end.

(** [a || b] on optional strings. *)
Definition or_else (a : option jsstring) (b : option jsstring) : option jsstring :=
  if truthy a then a else b.

Inductive exn : Type :=
  | TypeError
  | SyntaxError
  | ERR_INVALID_ARG_VALUE
  | ERR_CRYPTO_INVALID_IV
  | ERR_CRYPTO_INVALID_KEYLEN
  | ERR_CRYPTO_INVALID_AUTH_TAG
  | ERR_CRYPTO_INVALID_STATE
  | ERR_CRYPTO_AUTH_FAILED      (* "Unsupported state or unable to authenticate data" *)
  | EIO                         (* a failing fs call *)
  | RangeError.

Inductive result (A : Type) : Type :=
  | Ok (a : A)
  | Throw (e : exn).
Arguments Ok {A} a.
Arguments Throw {A} e.

Definition bind {A B} (r : result A) (k : A -> result B) : result B :=
  match r with
  | Ok a => k a
  | Throw e => Throw e
  end.

Notation "'do' x <- r ; k" := (bind r (fun x => k))
  (at level 10, x pattern, r at level 100, k at level 200).

Definition is_ok {A} (r : result A) : bool :=
  match r with Ok _ => true | Throw _ => false end.

(** ** Bytes *)

Definition xor_byte (a b : byte) : byte :=
  match a, b with
  | Ascii a0 a1 a2 a3 a4 a5 a6 a7, Ascii b0 b1 b2 b3 b4 b5 b6 b7 =>
      Ascii (xorb a0 b0) (xorb a1 b1) (xorb a2 b2) (xorb a3 b3)
            (xorb a4 b4) (xorb a5 b5) (xorb a6 b6) (xorb a7 b7)
  end.

(** [flip_bit i b] inverts bit [i] (0 is the least significant) of [b]. *)
Definition flip_bit (i : nat) (b : byte) : byte :=
  xor_byte b (ascii_of_N (2 ^ N.of_nat (i mod 8))).

(** ** Buffer <-> 'hex' *)

Definition hex_digit (n : N) : N :=
  if n <? 10 then 48 + n else 87 + n.

Definition hex_of_byte (b : byte) : jsstring :=
  [hex_digit (N_of_ascii b / 16); hex_digit (N_of_ascii b mod 16)].

(** [buf.toString('hex')] *)
Definition toString_hex (buf : Buffer) : jsstring :=
  flat_map hex_of_byte buf.

Definition hex_value (c : N) : option N :=
  if (48 <=? c) && (c <=? 57) then Some (c - 48)
  else if (97 <=? c) && (c <=? 102) then Some (c - 87)
  else if (65 <=? c) && (c <=? 70) then Some (c - 55)
  else None.

(** [Buffer.from(s, 'hex')]: decodes pairs of digits and stops at the first
    pair that is not hexadecimal (Node truncates, it does not throw). *)
Fixpoint Buffer_from_hex (s : jsstring) : Buffer :=
  match s with
  | c1 :: c2 :: rest =>
      match hex_value c1, hex_value c2 with
      | Some h, Some l => ascii_of_N (16 * h + l) :: Buffer_from_hex rest
      | _, _ => []
      end
  | _ => []
  end.

(** ** string <-> 'utf8' *)

Definition is_high_surrogate (u : N) : bool := (0xD800 <=? u) && (u <=? 0xDBFF).
Definition is_low_surrogate (u : N) : bool := (0xDC00 <=? u) && (u <=? 0xDFFF).

Definition bN (n : N) : byte := ascii_of_N n.

Definition utf8_of_codepoint (c : N) : Buffer :=
  if c <? 0x80 then [bN c]
  else if c <? 0x800 then [bN (0xC0 + c / 64); bN (0x80 + c mod 64)]
  else if c <? 0x10000 then
    [bN (0xE0 + c / 4096); bN (0x80 + (c / 64) mod 64); bN (0x80 + c mod 64)]
  else
    [bN (0xF0 + c / 262144); bN (0x80 + (c / 4096) mod 64);
     bN (0x80 + (c / 64) mod 64); bN (0x80 + c mod 64)].

(** U+FFFD, which Node writes for a surrogate that has no partner. *)
Definition replacement_char : N := 0xFFFD.

Definition codepoint_of_pair (hi lo : N) : N :=
  0x10000 + (hi - 0xD800) * 0x400 + (lo - 0xDC00).

(** [Buffer.from(s, 'utf8')], also the conversion applied to a string
    argument of [cipher.update(_, 'utf8', _)] and of [pbkdf2Sync]. *)
Fixpoint utf8_encode (s : jsstring) : Buffer :=
  match s with
  | [] => []
  | u :: rest =>
      if is_high_surrogate u then
        match rest with
        | v :: rest' =>
            if is_low_surrogate v
            then utf8_of_codepoint (codepoint_of_pair u v) ++ utf8_encode rest'
            else utf8_of_codepoint replacement_char ++ utf8_encode rest
        | [] => utf8_of_codepoint replacement_char
        end
      else if is_low_surrogate u then
        utf8_of_codepoint replacement_char ++ utf8_encode rest
      else utf8_of_codepoint u ++ utf8_encode rest
  end.

Definition units_of_codepoint (c : N) : jsstring :=
  if c <? 0x10000 then [c]
  else [0xD800 + (c - 0x10000) / 0x400; 0xDC00 + (c - 0x10000) mod 0x400].

Definition between (lo hi : N) (b : byte) : bool :=
  (lo <=? N_of_ascii b) && (N_of_ascii b <=? hi).

Definition cont (b : byte) : N := N_of_ascii b - 0x80.

(** Bounds of the second byte after the lead byte [n0] (WHATWG decoder). *)
Definition lower_of (n0 : N) : N :=
  if n0 =? 0xE0 then 0xA0 else if n0 =? 0xF0 then 0x90 else 0x80.
Definition upper_of (n0 : N) : N :=
  if n0 =? 0xED then 0x9F else if n0 =? 0xF4 then 0x8F else 0xBF.

(** One step of [buf.toString('utf8')]: the bytes of the first character
    are decoded and [rec] decodes what follows.  An ill-formed sequence
    decodes to U+FFFD and decoding resumes at the offending byte. *)
Definition utf8_decode_step (rec : Buffer -> jsstring) (bs : Buffer) : jsstring :=
  match bs with
  | [] => []
  | b0 :: r0 =>
      let n0 := N_of_ascii b0 in
      if n0 <? 0x80 then n0 :: rec r0
      else if (0xC2 <=? n0) && (n0 <=? 0xDF) then
        match r0 with
        | b1 :: r1 =>
            if between 0x80 0xBF b1
            then ((n0 - 0xC0) * 64 + cont b1) :: rec r1
            else replacement_char :: rec r0
        | [] => [replacement_char]
        end
      else if (0xE0 <=? n0) && (n0 <=? 0xEF) then
        match r0 with
        | b1 :: r1 =>
            if between (lower_of n0) (upper_of n0) b1 then
              match r1 with
              | b2 :: r2 =>
                  if between 0x80 0xBF b2
                  then ((n0 - 0xE0) * 4096 + cont b1 * 64 + cont b2) :: rec r2
                  else replacement_char :: rec r1
              | [] => [replacement_char]
              end
            else replacement_char :: rec r0
        | [] => [replacement_char]
        end
      else if (0xF0 <=? n0) && (n0 <=? 0xF4) then
        match r0 with
        | b1 :: r1 =>
            if between (lower_of n0) (upper_of n0) b1 then
              match r1 with
              | b2 :: r2 =>
                  if between 0x80 0xBF b2 then
                    match r2 with
                    | b3 :: r3 =>
                        if between 0x80 0xBF b3
                        then units_of_codepoint
                               ((n0 - 0xF0) * 262144 + cont b1 * 4096
                                + cont b2 * 64 + cont b3)
                             ++ rec r3
                        else replacement_char :: rec r2
                    | [] => [replacement_char]
                    end
                  else replacement_char :: rec r1
              | [] => [replacement_char]
              end
            else replacement_char :: rec r0
        | [] => [replacement_char]
        end
      else replacement_char :: rec r0
  end.

(** [buf.toString('utf8')] *)
Fixpoint utf8_decode (bs : Buffer) : jsstring := utf8_decode_step utf8_decode bs.

(** [s.isWellFormed()]: every code unit is below 2^16 and every surrogate
    is half of a high/low pair. *)
Fixpoint isWellFormed (s : jsstring) : bool :=
  match s with
  | [] => true
  | u :: rest =>
      if is_high_surrogate u then
        match rest with
        | v :: rest' => is_low_surrogate v && isWellFormed rest'
        | [] => false
        end
      else if is_low_surrogate u then false
      else (u <? 0x10000) && isWellFormed rest
  end.

(** ** The random source

    [crypto.randomBytes] reads an unbounded tape of bytes; a call consumes
    a prefix and leaves the rest for the next call. *)

Definition RNG : Type := nat -> byte.

Definition randomBytes (n : nat) (g : RNG) : Buffer * RNG :=
  (map g (seq 0 n), fun i => g (n + i)%nat).

(** ** Node's crypto primitives *)

Class NodeCrypto : Type := {
  (** PBKDF2 with HMAC-SHA-256: password bytes, salt, iteration count. *)
  pbkdf2_sha256 : Buffer -> Buffer -> N -> Buffer;
  (** AES-256-GCM counter-mode key stream: key, iv, position. *)
  gcm_keystream : Buffer -> Buffer -> nat -> byte;
  (** AES-256-GCM authentication tag: key, iv, ciphertext. *)
  gcm_mac : Buffer -> Buffer -> Buffer -> Buffer;
  (** bcrypt: password, cost, salt. *)
  bcrypt_hash : jsstring -> N -> Buffer -> jsstring;
  bcrypt_compare : jsstring -> jsstring -> bool;
  (** jsonwebtoken's sign: userId, username, secret, issue time. *)
  jwt_sign : jsstring -> jsstring -> jsstring -> Z -> jsstring
}.

(** An output whose length the call fixes: the first [n] bytes, zero
    padded if the underlying function gave fewer. *)
Definition fit (n : nat) (l : Buffer) : Buffer :=
  take n (l ++ repeat zero n).

Section Crypto.
Context `{NodeCrypto}.

(** [crypto.pbkdf2Sync(password, salt, iterations, keylen, 'sha256')] *)
Definition pbkdf2Sync (password : jsstring) (salt : Buffer)
    (iterations : N) (keylen : nat) : Buffer :=
  fit keylen (pbkdf2_sha256 (utf8_encode password) salt iterations).

Fixpoint xor_stream (ks : nat -> byte) (pos : nat) (data : Buffer) : Buffer :=
  match data with
  | [] => []
  | b :: rest => xor_byte b (ks pos) :: xor_stream ks (S pos) rest
  end.

(** The object returned by [crypto.createCipheriv('aes-256-gcm', key, iv)]. *)
Record Cipheriv : Type := {
  c_key : Buffer;
  c_iv : Buffer;
  c_pos : nat;            (* bytes processed so far *)
  c_text : Buffer;        (* ciphertext produced so far *)
  c_final : bool
}.

Definition createCipheriv (key iv : Buffer) : result Cipheriv :=
  if negb (List.length key =? 32)%nat then Throw ERR_CRYPTO_INVALID_KEYLEN
  else if (List.length iv =? 0)%nat then Throw ERR_CRYPTO_INVALID_IV
  else Ok {| c_key := key; c_iv := iv; c_pos := 0; c_text := []; c_final := false |}.

(** [cipher.update(data, 'utf8', 'hex')] *)
Definition cipher_update (c : Cipheriv) (data : jsstring) : jsstring * Cipheriv :=
  let input := utf8_encode data in
  let out := xor_stream (gcm_keystream (c_key c) (c_iv c)) (c_pos c) input in
  (toString_hex out,
   {| c_key := c_key c; c_iv := c_iv c;
      c_pos := (c_pos c + List.length input)%nat;
      c_text := c_text c ++ out; c_final := c_final c |}).

(** [cipher.final('hex')]: GCM buffers nothing, the output is empty. *)
Definition cipher_final (c : Cipheriv) : jsstring * Cipheriv :=
  ([],
   {| c_key := c_key c; c_iv := c_iv c; c_pos := c_pos c;
      c_text := c_text c; c_final := true |}).

(** [cipher.getAuthTag()]: the 16-byte tag, available after [final]. *)
Definition cipher_getAuthTag (c : Cipheriv) : result Buffer :=
  if c_final c then Ok (fit 16 (gcm_mac (c_key c) (c_iv c) (c_text c)))
  else Throw ERR_CRYPTO_INVALID_STATE.

(** The object returned by [crypto.createDecipheriv]. *)
Record Decipheriv : Type := {
  d_key : Buffer;
  d_iv : Buffer;
  d_pos : nat;
  d_text : Buffer;        (* ciphertext consumed so far *)
  d_tag : option Buffer
}.

Definition createDecipheriv (key iv : Buffer) : result Decipheriv :=
  if negb (List.length key =? 32)%nat then Throw ERR_CRYPTO_INVALID_KEYLEN
  else if (List.length iv =? 0)%nat then Throw ERR_CRYPTO_INVALID_IV
  else Ok {| d_key := key; d_iv := iv; d_pos := 0; d_text := []; d_tag := None |}.

(** Tag lengths Node accepts for GCM when [authTagLength] is not given. *)
Definition valid_gcm_tag_length (n : nat) : bool :=
  (n =? 4)%nat || (n =? 8)%nat || ((12 <=? n)%nat && (n <=? 16)%nat).

(** [decipher.setAuthTag(tag)] *)
Definition decipher_setAuthTag (d : Decipheriv) (tag : Buffer) : result Decipheriv :=
  if valid_gcm_tag_length (List.length tag)
  then Ok {| d_key := d_key d; d_iv := d_iv d; d_pos := d_pos d;
             d_text := d_text d; d_tag := Some tag |}
  else Throw ERR_CRYPTO_INVALID_AUTH_TAG.

(** [decipher.update(data, 'hex', 'utf8')]: a hex string of odd length is
    refused; the decrypted bytes are handed out before the tag is checked. *)
Definition decipher_update (d : Decipheriv) (data : jsstring)
    : result (jsstring * Decipheriv) :=
  if Nat.odd (List.length data) then Throw ERR_INVALID_ARG_VALUE
  else
    let input := Buffer_from_hex data in
    let out := xor_stream (gcm_keystream (d_key d) (d_iv d)) (d_pos d) input in
    Ok (utf8_decode out,
        {| d_key := d_key d; d_iv := d_iv d;
           d_pos := (d_pos d + List.length input)%nat;
           d_text := d_text d ++ input; d_tag := d_tag d |}).

(** The tag the decipher expects for what it has consumed. *)
Definition expected_tag (d : Decipheriv) : Buffer :=
  fit 16 (gcm_mac (d_key d) (d_iv d) (d_text d)).

(** The check made by [final]: the tag that was set is compared with as
    many leading bytes of the expected tag. *)
Definition tag_verifies (d : Decipheriv) : bool :=
  match d_tag d with
  | Some tag => bool_decide (tag = take (List.length tag) (expected_tag d))
  | None => false
  end.

(** [decipher.final('utf8')]: throws unless the tag verifies. *)
Definition decipher_final (d : Decipheriv) : result jsstring :=
  if tag_verifies d then Ok [] else Throw ERR_CRYPTO_AUTH_FAILED.

(** *** The envelope and its JSON text

    The text produced by [JSON.stringify] is represented by the object it
    denotes; a field of the parsed object is a string or is missing.
    [NotJson] stands for any text [JSON.parse] rejects. *)

Record Envelope : Type := {
  encrypted : option jsstring;
  salt : option jsstring;
  iv : option jsstring;
  authTag : option jsstring
}.

Inductive jsontext : Type :=
  | NotJson
  | EnvelopeJson (e : Envelope).

Definition JSON_stringify (e : Envelope) : jsontext := EnvelopeJson e.

Definition JSON_parse (t : jsontext) : result Envelope :=
  match t with
  | NotJson => Throw SyntaxError
  | EnvelopeJson e => Ok e
  end.

(** A missing field is [undefined], on which [Buffer.from] and [update]
    throw a TypeError. *)
Definition defined (field : option jsstring) : result jsstring :=
  match field with
  | Some s => Ok s
  | None => Throw TypeError
  end.

(** *** src/utils/encryption.ts *)

Definition encryptKey (key secret : jsstring) (g : RNG) : result jsontext * RNG :=
  let '(ivBuf, g) := randomBytes 16 g in
  let '(saltBuf, g) := randomBytes 32 g in
  let derivedKey := pbkdf2Sync secret saltBuf 100000 32 in
  (do cipher <- createCipheriv derivedKey ivBuf;
   let '(enc, cipher) := cipher_update cipher key in
   let '(fin, cipher) := cipher_final cipher in
   let enc := enc ++ fin in
   do tag <- cipher_getAuthTag cipher;
   Ok (JSON_stringify
         {| encrypted := Some enc;
            salt := Some (toString_hex saltBuf);
            iv := Some (toString_hex ivBuf);
            authTag := Some (toString_hex tag) |}),
   g).

Definition decryptKey (encryptedData : jsontext) (secret : jsstring) : result jsstring :=
  do e <- JSON_parse encryptedData;
  do saltHex <- defined (salt e);
  let derivedKey := pbkdf2Sync secret (Buffer_from_hex saltHex) 100000 32 in
  do ivHex <- defined (iv e);
  do decipher <- createDecipheriv derivedKey (Buffer_from_hex ivHex);
  do tagHex <- defined (authTag e);
  do decipher <- decipher_setAuthTag decipher (Buffer_from_hex tagHex);
  do enc <- defined (encrypted e);
  do upd <- decipher_update decipher enc;
  let '(decrypted, decipher) := upd in
  do fin <- decipher_final decipher;
  Ok (decrypted ++ fin).

(** The envelope [encryptKey] builds once the iv and the salt are drawn. *)
Definition seal (key secret : jsstring) (ivBuf saltBuf : Buffer) : Envelope :=
  let derivedKey := pbkdf2Sync secret saltBuf 100000 32 in
  let text := xor_stream (gcm_keystream derivedKey ivBuf) 0 (utf8_encode key) in
  {| encrypted := Some (toString_hex text);
     salt := Some (toString_hex saltBuf);
     iv := Some (toString_hex ivBuf);
     authTag := Some (toString_hex (fit 16 (gcm_mac derivedKey ivBuf text))) |}.

(** "The authTag verifies against the ciphertext under the key derived
    from the supplied secret": the tag of the envelope agrees with the tag
    of its ciphertext, on the length of the former. *)
Definition envelope_tag_verifies (e : Envelope) (secret : jsstring) : bool :=
  match salt e, iv e, authTag e, encrypted e with
  | Some saltHex, Some ivHex, Some tagHex, Some enc =>
      let derivedKey := pbkdf2Sync secret (Buffer_from_hex saltHex) 100000 32 in
      let tag := Buffer_from_hex tagHex in
      bool_decide
        (tag = take (List.length tag)
                 (fit 16 (gcm_mac derivedKey (Buffer_from_hex ivHex)
                            (Buffer_from_hex enc))))
  | _, _, _, _ => false
  end.

(** Tampering with the binary fields of an envelope: bit [i] of byte [j]
    is inverted and the field is encoded again. *)
Definition flip_at (j i : nat) (buf : Buffer) : Buffer :=
  alter (flip_bit i) j buf.

Definition flip_hex (j i : nat) (field : option jsstring) : option jsstring :=
  match field with
  | Some h => Some (toString_hex (flip_at j i (Buffer_from_hex h)))
  | None => None
  end.

Definition tamper_authTag (j i : nat) (e : Envelope) : Envelope :=
  {| encrypted := encrypted e; salt := salt e; iv := iv e;
     authTag := flip_hex j i (authTag e) |}.

Definition tamper_ciphertext (j i : nat) (e : Envelope) : Envelope :=
  {| encrypted := flip_hex j i (encrypted e); salt := salt e; iv := iv e;
     authTag := authTag e |}.

(** The key [decryptKey] derives from a secret for an envelope, and the
    tag GCM computes with that key for the ciphertext of the envelope. *)
Definition derived_key (e : Envelope) (secret : jsstring) : Buffer :=
  pbkdf2Sync secret (Buffer_from_hex (default [] (salt e))) 100000 32.

Definition computed_tag (e : Envelope) (secret : jsstring) : Buffer :=
  fit 16 (gcm_mac (derived_key e secret)
            (Buffer_from_hex (default [] (iv e)))
            (Buffer_from_hex (default [] (encrypted e)))).

(** What GCM provides under a key: the tag changes when one bit of the
    ciphertext is inverted.  (The tag is a polynomial of the ciphertext
    blocks in the hash key derived from the key; two ciphertexts that
    differ in one bit give the same value only if that hash key is 0.) *)
Definition tag_detects_bit_flips (key : Buffer) : Prop :=
  forall (ivBuf text : Buffer) (j i : nat),
    (j < List.length text)%nat ->
    fit 16 (gcm_mac key ivBuf (flip_at j i text)) <> fit 16 (gcm_mac key ivBuf text).

End Crypto.

(** A small instance of the primitives on which the model can be run: the
    derived key is the password followed by the salt, the key stream
    repeats the key, the tag is the byte-wise sum of key, iv and
    ciphertext. *)
Definition sum_bytes (l : Buffer) : byte :=
  fold_right (fun b acc => ascii_of_N ((N_of_ascii b + N_of_ascii acc) mod 256)) zero l.

#[export] Instance demo_crypto : NodeCrypto := {|
  pbkdf2_sha256 := fun password salt_ _ => password ++ salt_;
  gcm_keystream := fun key _ i => nth i key zero;
  gcm_mac := fun key iv_ text => [sum_bytes key; sum_bytes iv_; sum_bytes text];
  bcrypt_hash := fun password _ _ => password;
  bcrypt_compare := fun password hash => bool_decide (password = hash);
  jwt_sign := fun userId username _ _ => userId ++ username
|}.

(** The tape [0, 1, 2, ...] as a random source. *)
Definition counting_rng : RNG := fun i => ascii_of_N (N.of_nat i mod 256).

(** ** Objects used as tables

    [validApiKeys[apiKey]] and [config.apps[apiKey]] are property reads on
    plain objects: an own property wins, otherwise the property is looked
    up on [Object.prototype], whose members are all truthy.  The members
    are those of a fresh realm.  Properties that a running process adds to
    [Object.prototype] are not followed.  The server adds two itself:
    served with the App key "__proto__", [validateAppKey] takes
    [Object.prototype] for the App record and sets [lastAccess] (a Date,
    truthy) and [accessCount] (NaN, falsy) on it; from then on the name
    "lastAccess" is inherited as well.  Statements that depend on a name
    not being inherited exclude "lastAccess". *)

Definition Object_prototype : list jsstring :=
  map js ["constructor"; "__defineGetter__"; "__defineSetter__";
          "hasOwnProperty"; "__lookupGetter__"; "__lookupSetter__";
          "isPrototypeOf"; "propertyIsEnumerable"; "toString"; "valueOf";
          "__proto__"; "toLocaleString"]%string.

Definition inherited (k : jsstring) : bool :=
  bool_decide (k ∈ Object_prototype).

(** A JSON value, as held inside an array; a number is the double that
    [JSON.parse] reads ([1e999] is read as Infinity). *)
#[local] Unset Elimination Schemes.
Inductive JSONValue : Type :=
  | JNull
  | JBoolean (b : bool)
  | JNumber (d : spec_float)
  | JString (s : jsstring)
  | JArray (a : list JSONValue)
  | JObject (o : list (jsstring * JSONValue)).
#[local] Set Elimination Schemes.

Definition truthy_json (v : JSONValue) : bool :=
  match v with
  | JNull => false
  | JBoolean b => b
  | JNumber (S754_zero _) | JNumber S754_nan => false
  | JNumber _ => true
  | JString s => truthy (Some s)
  | JArray _ | JObject _ => true
  end.

(** What a read of the key table yields: nothing, a user id, a built-in
    of a prototype, or what an array or a string holds. *)
Inductive jsval : Type :=
  | Undefined
  | Str (s : jsstring)
  | Builtin (name : jsstring)
  | Length (n : nat)                (* the [length] of an array or string *)
  | Json (v : JSONValue).           (* an element of an array, no string *)

Definition truthy_val (v : jsval) : bool :=
  match v with
  | Undefined => false
  | Str s => truthy (Some s)
  | Builtin _ => true
  | Length n => negb (Nat.eqb n 0)
  | Json v => truthy_json v
  end.

(** [o[k]] on the object parsed from VALID_API_KEYS. *)
Definition keys_get (o : gmap jsstring jsstring) (k : jsstring) : jsval :=
  match o !! k with
  | Some v => Str v
  | None => if inherited k then Builtin k else Undefined
  end.

(** [o[k] = v]; assigning a string to [__proto__] creates no property
    (it writes one only where [JSON.parse] had made it an own property). *)
Definition keys_set (o : gmap jsstring jsstring) (k v : jsstring) : gmap jsstring jsstring :=
  if bool_decide (k = js "__proto__") && bool_decide (o !! k = None)
  then o else <[k := v]> o.

(** ** The value of VALID_API_KEYS

    [JSON.parse] accepts the text of any JSON value, not only of an
    object. *)

(** What the text of VALID_API_KEYS parses to.  An object is the table the
    server itself writes, from API keys to user ids: its values are
    strings (an object that holds a value of another type is not
    represented). *)
Inductive value : Type :=
  | Null
  | Boolean (b : bool)
  | Number (d : spec_float)
  | String_ (s : jsstring)
  | Array (a : list JSONValue)
  | Object (o : gmap jsstring jsstring).

(** The text held by [process.env.VALID_API_KEYS]: the empty string, a text
    that [JSON.parse] rejects, or the text of a JSON value. *)
Inductive keys_text : Type :=
  | EmptyText
  | NotJsonText
  | JsonText (v : value).

Abbreviation ObjectText o := (JsonText (Object o)).

(** [process.env.VALID_API_KEYS || '{}'] *)
Definition or_empty_object (t : option keys_text) : keys_text :=
  match t with
  | None | Some EmptyText => ObjectText ∅
  | Some t => t
  end.

Definition JSON_parse_keys (t : keys_text) : result value :=
  match t with
  | JsonText v => Ok v
  | _ => Throw SyntaxError
  end.

(** [JSON.stringify] writes an infinite number (and NaN) as [null] and -0
    as [0]; so does it inside arrays and objects. *)
Definition stringify_number (d : spec_float) : JSONValue :=
  match d with
  | S754_infinity _ | S754_nan => JNull
  | S754_zero _ => JNumber (S754_zero false)
  | S754_finite _ _ _ => JNumber d
  end.

Fixpoint stringify_json (v : JSONValue) : JSONValue :=
  match v with
  | JNull => JNull
  | JBoolean b => JBoolean b
  | JNumber d => stringify_number d
  | JString s => JString s
  | JArray a => JArray (map stringify_json a)
  | JObject o => JObject (map (fun p => (fst p, stringify_json (snd p))) o)
  end.

(** [JSON.stringify(v)], as the value its text parses to again.  Only the
    elements of an array are written, not its other properties. *)
Definition JSON_stringify_keys (v : value) : keys_text :=
  match v with
  | Null => JsonText Null
  | Boolean b => JsonText (Boolean b)
  | Number d =>
      match stringify_number d with
      | JNumber d => JsonText (Number d)
      | _ => JsonText Null
      end
  | String_ s => JsonText (String_ s)
  | Array a => JsonText (Array (map stringify_json a))
  | Object o => ObjectText o
  end.

(** *** Property names

    The names of the string-keyed properties of the prototypes of a fresh
    realm (ECMAScript 2023 with the String methods of 2024, as in
    Node 20 and later); their values are functions or, for [__proto__],
    the next prototype: all truthy. *)
Definition Array_prototype : list jsstring :=
  map js ["constructor"; "at"; "concat"; "copyWithin"; "entries"; "every";
          "fill"; "filter"; "find"; "findIndex"; "findLast"; "findLastIndex";
          "flat"; "flatMap"; "forEach"; "includes"; "indexOf"; "join";
          "keys"; "lastIndexOf"; "map"; "pop"; "push"; "reduce";
          "reduceRight"; "reverse"; "shift"; "slice"; "some"; "sort";
          "splice"; "toLocaleString"; "toReversed"; "toSorted"; "toSpliced";
          "toString"; "unshift"; "values"; "with"]%string.

Definition String_prototype : list jsstring :=
  map js ["constructor"; "anchor"; "at"; "big"; "blink"; "bold"; "charAt";
          "charCodeAt"; "codePointAt"; "concat"; "endsWith"; "fixed";
          "fontcolor"; "fontsize"; "includes"; "indexOf"; "isWellFormed";
          "italics"; "lastIndexOf"; "link"; "localeCompare"; "match";
          "matchAll"; "normalize"; "padEnd"; "padStart"; "repeat";
          "replace"; "replaceAll"; "search"; "slice"; "small"; "split";
          "startsWith"; "strike"; "sub"; "substr"; "substring"; "sup";
          "toLocaleLowerCase"; "toLocaleUpperCase"; "toLowerCase";
          "toString"; "toUpperCase"; "toWellFormed"; "trim"; "trimEnd";
          "trimLeft"; "trimRight"; "trimStart"; "valueOf"]%string.

Definition Number_prototype : list jsstring :=
  map js ["constructor"; "toExponential"; "toFixed"; "toLocaleString";
          "toPrecision"; "toString"; "valueOf"]%string.

Definition Boolean_prototype : list jsstring :=
  map js ["constructor"; "toString"; "valueOf"]%string.

(** The property of a prototype chain: found on [proto] or on
    [Object.prototype]. *)
Definition lookup_prototype (proto : list jsstring) (k : jsstring) : jsval :=
  if bool_decide (k ∈ proto) || inherited k then Builtin k else Undefined.

(** An array index is the canonical decimal numeral of an integer below
    2^32 - 1. *)
Fixpoint decimal (acc : N) (s : jsstring) : option N :=
  match s with
  | [] => Some acc
  | c :: s =>
      if (48 <=? c) && (c <=? 57) then decimal (10 * acc + (c - 48)) s else None
  end.

Definition array_index (k : jsstring) : option nat :=
  match k with
  | [] => None
  | c :: rest =>
      if (c =? 48) && negb (bool_decide (rest = [])) then None
      else match decimal 0 k with
           | Some n => if n <? 2 ^ 32 - 1 then Some (N.to_nat n) else None
           | None => None
           end
  end.

Definition of_json (v : JSONValue) : jsval :=
  match v with
  | JString s => Str s
  | v => Json v
  end.

(** [v[k]]: reading a property of [null] throws; a primitive is read
    through its wrapper; an array and a string have their elements and
    [length] as own properties. *)
Definition get (v : value) (k : jsstring) : result jsval :=
  match v with
  | Null => Throw TypeError
  | Object o => Ok (keys_get o k)
  | Boolean _ => Ok (lookup_prototype Boolean_prototype k)
  | Number _ => Ok (lookup_prototype Number_prototype k)
  | String_ s =>
      Ok match array_index k ≫= (s !!.) with
         | Some c => Str [c]
         | None =>
             if bool_decide (k = js "length") then Length (length s)
             else lookup_prototype String_prototype k
         end
  | Array a =>
      Ok match array_index k ≫= (a !!.) with
         | Some x => of_json x
         | None =>
             if bool_decide (k = js "length") then Length (length a)
             else lookup_prototype Array_prototype k
         end
  end.

(** [delete v[k]], in strict mode (the sources are modules): deleting a
    property that cannot be deleted throws.  A deleted element leaves a
    hole, which [JSON.stringify] writes as [null]. *)
Definition delete_property (v : value) (k : jsstring) : result value :=
  match v with
  | Null => Throw TypeError
  | Object o => Ok (Object (delete k o))
  | Boolean _ | Number _ => Ok v
  | String_ s =>
      if bool_decide (is_Some (array_index k ≫= (s !!.)))
         || bool_decide (k = js "length")
      then Throw TypeError else Ok v
  | Array a =>
      match array_index k with
      | Some i => Ok (Array (if bool_decide (i < length a)%nat
                             then <[i := JNull]> a else a))
      | None => if bool_decide (k = js "length") then Throw TypeError else Ok v
      end
  end.

(** [v[k] = x] for a string [x], in strict mode.  Creating a property on a
    primitive throws; [__proto__] is an accessor of [Object.prototype]
    whose setter ignores a string.  On an array an index writes an element
    (holes before it are written as [null]), another name makes a
    property that [JSON.stringify] leaves out.  Assigning a string to
    [length] converts it to a number: a decimal numeral sets the length,
    every other text is taken for no number (RangeError); the routes
    assign to the names [generateApiKey] returns only, never to [length]. *)
Definition array_set_length (a : list JSONValue) (x : jsstring) : result (list JSONValue) :=
  match array_index x with
  | Some n => Ok (take n a ++ replicate (n - length a) JNull)
  | None => Throw RangeError
  end.

Definition set_property (v : value) (k x : jsstring) : result value :=
  match v with
  | Null => Throw TypeError
  | Object o => Ok (Object (keys_set o k x))
  | Boolean _ | Number _ | String_ _ =>
      if bool_decide (k = js "__proto__") then Ok v else Throw TypeError
  | Array a =>
      match array_index k with
      | Some i =>
          Ok (Array (if bool_decide (i < length a)%nat
                     then <[i := JString x]> a
                     else a ++ replicate (i - length a) JNull ++ [JString x]))
      | None =>
          if bool_decide (k = js "length")
          then do a' <- array_set_length a x; Ok (Array a')
          else Ok v
      end
  end.

Record Env : Type := {
  VALID_API_KEYS : option keys_text;
  MASTER_KEY : option jsstring;
  OPENAI_API_KEY : option jsstring;
  ANTHROPIC_API_KEY : option jsstring;
  ENCRYPTION_SECRET : option jsstring;
  NODE_ENV : option jsstring
}.

Definition set_VALID_API_KEYS (t : keys_text) (e : Env) : Env :=
  {| VALID_API_KEYS := Some t; MASTER_KEY := MASTER_KEY e;
     OPENAI_API_KEY := OPENAI_API_KEY e; ANTHROPIC_API_KEY := ANTHROPIC_API_KEY e;
     ENCRYPTION_SECRET := ENCRYPTION_SECRET e; NODE_ENV := NODE_ENV e |}.

(** ** src/types *)

Record User : Type := {
  user_id : jsstring;
  username : jsstring;
  passwordHash : jsstring;
  user_apiKey : jsstring;
  user_createdAt : Z;
  user_lastAccess : Z
}.

Record ApiKeyPayload : Type := {
  payload_apiKey : jsstring;
  userId : jsval
}.

Record Permissions : Type := { openai : bool; anthropic : bool }.

Record RateLimit : Type := { windowMs : Z; maxRequests : Z }.

Inductive Environment : Type := development | staging | production.

Record App : Type := {
  id : jsstring;
  name : jsstring;
  apiKey : jsstring;
  permissions : Permissions;
  allowedIPs : option (list jsstring);
  allowedDomains : option (list jsstring);
  rateLimit : option RateLimit;
  createdAt : Z;
  lastAccess : option Z;
  accessCount : Z;          (* a JS number that holds an integer *)
  environment : Environment;
  expiresAt : option Z
}.

(** [AppConfig.apps]: the properties of the object in enumeration order
    (insertion order, the keys being no array indices). *)
Record AppConfig : Type := { apps : list (jsstring * App) }.

Fixpoint own (o : list (jsstring * App)) (k : jsstring) : option App :=
  match o with
  | [] => None
  | (k', a) :: rest => if bool_decide (k' = k) then Some a else own rest k
  end.

Fixpoint replace_own (o : list (jsstring * App)) (k : jsstring) (a : App)
    : list (jsstring * App) :=
  match o with
  | [] => []
  | (k', a') :: rest =>
      if bool_decide (k' = k) then (k', a) :: rest
      else (k', a') :: replace_own rest k a
  end.

(** [o[k] = a]: an existing property keeps its place, a new one goes last. *)
Definition assign (o : list (jsstring * App)) (k : jsstring) (a : App)
    : list (jsstring * App) :=
  match own o k with
  | Some _ => replace_own o k a
  | None => o ++ [(k, a)]
  end.

(** [delete o[k]] *)
Definition delete_own (o : list (jsstring * App)) (k : jsstring)
    : list (jsstring * App) :=
  filter (fun p => p.1 <> k) o.

(** What [config.apps[apiKey]] yields when it is truthy: an App record, or
    a built-in inherited from [Object.prototype]. *)
Inductive AppData : Type :=
  | AppRecord (a : App)
  | InheritedObject (name : jsstring).

Definition apps_get (o : list (jsstring * App)) (k : jsstring) : option AppData :=
  match own o k with
  | Some a => Some (AppRecord a)
  | None => if inherited k then Some (InheritedObject k) else None
  end.

(** ** The apps file *)

Inductive FileContent : Type :=
  | Missing                       (* readFileSync throws *)
  | Unparsable                    (* JSON.parse throws *)
  | ConfigText (c : AppConfig).

Record File : Type := {
  content : FileContent;
  writable : bool                 (* does writeFileSync succeed? *)
}.

Definition read_config (f : File) : result AppConfig :=
  match content f with
  | Missing => Throw EIO
  | Unparsable => Throw SyntaxError
  | ConfigText c => Ok c
  end.

Definition writeFileSync (f : File) (c : AppConfig) : result File :=
  if writable f then Ok {| content := ConfigText c; writable := true |}
  else Throw EIO.

(** ** Requests and responses *)

Record Request : Type := {
  headers_x_api_key : option jsstring;
  headers_x_app_key : option jsstring;
  headers_origin : option jsstring;
  headers_referer : option jsstring;
  headers_authorization : option jsstring;
  ip : option jsstring;
  socket_remoteAddress : option jsstring;
  body_username : option jsstring;
  body_password : option jsstring;
  body_masterKey : option jsstring;
  apiKeyData : option ApiKeyPayload;     (* set by validateApiKey *)
  appData : option AppData               (* set by validateAppKey *)
}.

Definition set_apiKeyData (d : ApiKeyPayload) (r : Request) : Request :=
  {| headers_x_api_key := headers_x_api_key r; headers_x_app_key := headers_x_app_key r;
     headers_origin := headers_origin r; headers_referer := headers_referer r;
     headers_authorization := headers_authorization r;
     ip := ip r; socket_remoteAddress := socket_remoteAddress r;
     body_username := body_username r; body_password := body_password r;
     body_masterKey := body_masterKey r;
     apiKeyData := Some d; appData := appData r |}.

Definition set_appData (d : AppData) (r : Request) : Request :=
  {| headers_x_api_key := headers_x_api_key r; headers_x_app_key := headers_x_app_key r;
     headers_origin := headers_origin r; headers_referer := headers_referer r;
     headers_authorization := headers_authorization r;
     ip := ip r; socket_remoteAddress := socket_remoteAddress r;
     body_username := body_username r; body_password := body_password r;
     body_masterKey := body_masterKey r;
     apiKeyData := apiKeyData r; appData := Some d |}.

Inductive Service : Type := svc_openai | svc_anthropic.

Definition service_name (s : Service) : string :=
  match s with svc_openai => "openai" | svc_anthropic => "anthropic" end.

(** The [keys] object of the /all routes. *)
Record Keys : Type := {
  keys_openai : option jsontext;
  keys_anthropic : option jsontext
}.

Inductive Body : Type :=
  | error_body (error : string)
  | user_key (service : Service) (encryptedKey : jsontext) (timestamp : Z)
  | user_keys (keys : Keys) (timestamp : Z)
  | app_key (service : Service) (encryptedKey : jsontext)
      (app : jsstring) (env_ : Environment) (timestamp : Z)
  | app_keys (keys : Keys) (app : jsstring) (env_ : Environment)
      (perms : Permissions) (timestamp : Z)
  | registered (userId_ username_ apiKey_ : jsstring)
  | logged_in (token apiKey_ : jsstring)
  | rotated (apiKey_ : jsstring).

Record Response : Type := { status : N; body : Body }.

Definition json (code : N) (b : Body) : Response := {| status := code; body := b |}.

(** What a middleware does with a request: answer it, pass it on with
    [next()], or throw. *)
Inductive Outcome : Type :=
  | Respond (r : Response)
  | Next (req : Request)
  | Raise (e : exn).

(** src/middleware/errorHandler.ts, where Express takes what a middleware
    throws. *)
Definition errorHandler (e : exn) : Response :=
  json 500 (error_body "Internal server error").

(** ** The process *)

Record World : Type := {
  env : Env;                          (* process.env *)
  users : gmap jsstring User;         (* routes/auth.ts *)
  JWT_SECRET : jsstring;              (* middleware/auth.ts *)
  apps_file : File;                   (* the file at APPS_CONFIG_PATH *)
  appsCache : option AppConfig;       (* middleware/appAuth.ts *)
  cacheTimestamp : Z;                 (* middleware/appAuth.ts *)
  entropy : RNG
}.

Definition set_env (e : Env) (w : World) : World :=
  {| env := e; users := users w; JWT_SECRET := JWT_SECRET w;
     apps_file := apps_file w; appsCache := appsCache w;
     cacheTimestamp := cacheTimestamp w; entropy := entropy w |}.

Definition set_users (u : gmap jsstring User) (w : World) : World :=
  {| env := env w; users := u; JWT_SECRET := JWT_SECRET w;
     apps_file := apps_file w; appsCache := appsCache w;
     cacheTimestamp := cacheTimestamp w; entropy := entropy w |}.

Definition set_apps_file (f : File) (w : World) : World :=
  {| env := env w; users := users w; JWT_SECRET := JWT_SECRET w;
     apps_file := f; appsCache := appsCache w;
     cacheTimestamp := cacheTimestamp w; entropy := entropy w |}.

Definition set_cache (c : AppConfig) (t : Z) (w : World) : World :=
  {| env := env w; users := users w; JWT_SECRET := JWT_SECRET w;
     apps_file := apps_file w; appsCache := Some c;
     cacheTimestamp := t; entropy := entropy w |}.

Definition set_entropy (g : RNG) (w : World) : World :=
  {| env := env w; users := users w; JWT_SECRET := JWT_SECRET w;
     apps_file := apps_file w; appsCache := appsCache w;
     cacheTimestamp := cacheTimestamp w; entropy := g |}.

(** [crypto.randomUUID()]: sixteen random bytes with the version and
    variant bits of a version-4 UUID, printed in groups of 8-4-4-4-12. *)
Definition randomUUID (g : RNG) : jsstring * RNG :=
  let '(b, g) := randomBytes 16 g in
  let b := alter (fun x => bN (0x40 + N_of_ascii x mod 16)) 6%nat b in
  let b := alter (fun x => bN (0x80 + N_of_ascii x mod 64)) 8%nat b in
  let h := toString_hex b in
  (take 8 h ++ js "-" ++ take 4 (drop 8 h) ++ js "-" ++ take 4 (drop 12 h)
     ++ js "-" ++ take 4 (drop 16 h) ++ js "-" ++ drop 20 h, g).

Section Server.
Context `{NodeCrypto}.

(** ** src/middleware/auth.ts *)

Definition generateApiKey (g : RNG) : jsstring * RNG :=
  let '(b, g) := randomBytes 32 g in
  (js "ks_" ++ toString_hex b, g).

(** [bcrypt.hash(password, 12)], which draws a 16-byte salt. *)
Definition hashPassword (password : jsstring) (g : RNG) : jsstring * RNG :=
  let '(salt_, g) := randomBytes 16 g in
  (bcrypt_hash password 12 salt_, g).

Definition verifyPassword (password hash : jsstring) : bool :=
  bcrypt_compare password hash.

Definition generateToken (userId_ username_ secret : jsstring) (now : Z) : jsstring :=
  jwt_sign userId_ username_ secret now.

Definition validateApiKey (e : Env) (req : Request) : Outcome :=
  match headers_x_api_key req with
  | None | Some [] => Respond (json 401 (error_body "API key required"))
  | Some apiKey_ =>
      match JSON_parse_keys (or_empty_object (VALID_API_KEYS e)) with
      | Throw err => Raise err
      | Ok validApiKeys =>
          match get validApiKeys apiKey_ with
          | Throw err => Raise err
          | Ok userId_ =>
              if negb (truthy_val userId_)
              then Respond (json 401 (error_body "Invalid API key"))
              else Next (set_apiKeyData
                           {| payload_apiKey := apiKey_; userId := userId_ |} req)
          end
      end
  end.

(** ** src/routes/auth.ts

    A handler is a function of the time of the request, the process and the
    request; its [try]/[catch] turns what the body throws into a 500.
    POST /login and POST /rotate-api-key read the user before they await
    [verifyPassword] and change it after: they are taken in one step, on
    the user as the Map holds it (the same object unless a registration
    has replaced it in between). *)

(** What the handler of POST /register holds while it awaits
    [hashPassword]: other requests are served in between. *)
Record Registration : Type := {
  reg_userId : jsstring;
  reg_username : jsstring;
  reg_passwordHash : jsstring
}.

(** POST /register up to the end of [await hashPassword(password)]. *)
Definition register_begin (w : World) (req : Request)
    : (Response + Registration) * World :=
  if negb (truthy (body_username req)) || negb (truthy (body_password req))
     || negb (truthy (body_masterKey req))
  then (inl (json 400 (error_body "Username, password, and master key are required")), w)
  else if negb (bool_decide (body_masterKey req = MASTER_KEY (env w)))
  then (inl (json 403 (error_body "Invalid master key")), w)
  else
    let username_ := default [] (body_username req) in
    let password := default [] (body_password req) in
    match users w !! username_ with
    | Some _ => (inl (json 409 (error_body "Username already exists")), w)
    | None =>
        let '(userId_, g) := randomUUID (entropy w) in
        let '(hash, g) := hashPassword password g in
        (inr {| reg_userId := userId_; reg_username := username_;
                reg_passwordHash := hash |}, set_entropy g w)
    end.

(** POST /register from there on, at time [now] and in the process as it
    is then. *)
Definition register_resume (now : Z) (p : Registration) (w : World)
    : Response * World :=
  let '(apiKey_, g) := generateApiKey (entropy w) in
  let user := {| user_id := reg_userId p; username := reg_username p;
                 passwordHash := reg_passwordHash p; user_apiKey := apiKey_;
                 user_createdAt := now; user_lastAccess := now |} in
  let w := set_entropy g (set_users (<[reg_username p := user]> (users w)) w) in
  match JSON_parse_keys (or_empty_object (VALID_API_KEYS (env w))) with
  | Throw _ => (json 500 (error_body "Registration failed"), w)
  | Ok currentApiKeys =>
      match set_property currentApiKeys apiKey_ (reg_userId p) with
      | Throw _ => (json 500 (error_body "Registration failed"), w)
      | Ok currentApiKeys =>
          (json 201 (registered (reg_userId p) (reg_username p) apiKey_),
           set_env (set_VALID_API_KEYS (JSON_stringify_keys currentApiKeys) (env w)) w)
      end
  end.

(** POST /register served with no other request in between. *)
Definition post_register (now : Z) (w : World) (req : Request) : Response * World :=
  match register_begin w req with
  | (inl r, w) => (r, w)
  | (inr p, w) => register_resume now p w
  end.

Definition set_lastAccess (t : Z) (u : User) : User :=
  {| user_id := user_id u; username := username u; passwordHash := passwordHash u;
     user_apiKey := user_apiKey u; user_createdAt := user_createdAt u;
     user_lastAccess := t |}.

Definition set_user_apiKey (k : jsstring) (u : User) : User :=
  {| user_id := user_id u; username := username u; passwordHash := passwordHash u;
     user_apiKey := k; user_createdAt := user_createdAt u;
     user_lastAccess := user_lastAccess u |}.

Definition post_login (now : Z) (w : World) (req : Request) : Response * World :=
  if negb (truthy (body_username req)) || negb (truthy (body_password req))
  then (json 400 (error_body "Username and password are required"), w)
  else
    let username_ := default [] (body_username req) in
    let password := default [] (body_password req) in
    match users w !! username_ with
    | None => (json 401 (error_body "Invalid credentials"), w)
    | Some user =>
        if negb (verifyPassword password (passwordHash user))
        then (json 401 (error_body "Invalid credentials"), w)
        else
          let w := set_users (<[username_ := set_lastAccess now user]> (users w)) w in
          let token := generateToken (user_id user) (username user) (JWT_SECRET w) now in
          (json 200 (logged_in token (user_apiKey user)), w)
    end.

Definition post_rotate_api_key (now : Z) (w : World) (req : Request)
    : Response * World :=
  if negb (truthy (body_username req)) || negb (truthy (body_password req))
  then (json 400 (error_body "Username and password are required"), w)
  else
    let username_ := default [] (body_username req) in
    let password := default [] (body_password req) in
    match users w !! username_ with
    | None => (json 401 (error_body "Invalid credentials"), w)
    | Some user =>
        if negb (verifyPassword password (passwordHash user))
        then (json 401 (error_body "Invalid credentials"), w)
        else
          match JSON_parse_keys (or_empty_object (VALID_API_KEYS (env w))) with
          | Throw _ => (json 500 (error_body "API key rotation failed"), w)
          | Ok currentApiKeys =>
              match delete_property currentApiKeys (user_apiKey user) with
              | Throw _ => (json 500 (error_body "API key rotation failed"), w)
              | Ok currentApiKeys =>
                  let '(newApiKey, g) := generateApiKey (entropy w) in
                  let user' := set_user_apiKey newApiKey user in
                  let w := set_entropy g
                             (set_users (<[username_ := user']> (users w)) w) in
                  match set_property currentApiKeys newApiKey (user_id user) with
                  | Throw _ => (json 500 (error_body "API key rotation failed"), w)
                  | Ok currentApiKeys =>
                      (json 200 (rotated newApiKey),
                       set_env (set_VALID_API_KEYS
                                  (JSON_stringify_keys currentApiKeys) (env w)) w)
                  end
              end
          end
    end.

(** ** src/routes/keys.ts, mounted behind [validateApiKey] *)

Definition service_key (e : Env) (s : Service) : option jsstring :=
  match s with
  | svc_openai => OPENAI_API_KEY e
  | svc_anthropic => ANTHROPIC_API_KEY e
  end.

Definition not_configured (s : Service) : string :=
  match s with
  | svc_openai => "OpenAI API key not configured"
  | svc_anthropic => "Anthropic API key not configured"
  end.

(** [process.env.ENCRYPTION_SECRET || apiKeyData.apiKey] *)
Definition encryptionSecret (e : Env) (d : ApiKeyPayload) : jsstring :=
  default [] (or_else (ENCRYPTION_SECRET e) (Some (payload_apiKey d))).

(** GET /openai and GET /anthropic *)
Definition keys_get_service (s : Service) (now : Z) (w : World) (req : Request)
    : Response * World :=
  match apiKeyData req with
  | None => (json 401 (error_body "Unauthorized"), w)
  | Some d =>
      if negb (truthy (service_key (env w) s))
      then (json 404 (error_body (not_configured s)), w)
      else
        let key := default [] (service_key (env w) s) in
        let '(r, g) := encryptKey key (encryptionSecret (env w) d) (entropy w) in
        match r with
        | Ok encryptedKey => (json 200 (user_key s encryptedKey now), set_entropy g w)
        | Throw _ => (json 500 (error_body "Failed to retrieve key"), set_entropy g w)
        end
  end.

(** [if (key) { keys.x = encryptKey(key, secret) }] *)
Definition encrypt_if (cond : bool) (key : option jsstring) (secret : jsstring)
    (g : RNG) : result (option jsontext) * RNG :=
  if cond && truthy key then
    let '(r, g) := encryptKey (default [] key) secret g in
    (do t <- r; Ok (Some t), g)
  else (Ok None, g).

(** GET /all *)
Definition keys_get_all (now : Z) (w : World) (req : Request) : Response * World :=
  match apiKeyData req with
  | None => (json 401 (error_body "Unauthorized"), w)
  | Some d =>
      let secret := encryptionSecret (env w) d in
      let '(r1, g) := encrypt_if true (OPENAI_API_KEY (env w)) secret (entropy w) in
      match r1 with
      | Throw _ => (json 500 (error_body "Failed to retrieve keys"), set_entropy g w)
      | Ok k1 =>
          let '(r2, g) := encrypt_if true (ANTHROPIC_API_KEY (env w)) secret g in
          match r2 with
          | Throw _ => (json 500 (error_body "Failed to retrieve keys"), set_entropy g w)
          | Ok k2 =>
              match k1, k2 with
              | None, None =>
                  (json 404 (error_body "No API keys configured"), set_entropy g w)
              | _, _ =>
                  (json 200 (user_keys {| keys_openai := k1; keys_anthropic := k2 |} now),
                   set_entropy g w)
              end
          end
      end
  end.

(** [app.use('/api/keys', validateApiKey, keyRetrievalLimiter, keysRouter)],
    for a request the rate limiter admits. *)
Definition api_keys (handler : Z -> World -> Request -> Response * World)
    (now : Z) (w : World) (req : Request) : Response * World :=
  match validateApiKey (env w) req with
  | Respond r => (r, w)
  | Raise e => (errorHandler e, w)
  | Next req => handler now w req
  end.

(** ** src/middleware/appAuth.ts *)

Definition CACHE_TTL : Z := 60000.

(** Which object the variable [config] refers to: the one [appsCache]
    holds, or a fresh one no module variable refers to. *)
Inductive ConfigRef : Type := TheCache | Fresh.

(** [loadApps()] returns a reference and the value of what it refers to. *)
Definition loadApps (now : Z) (w : World) : ConfigRef * AppConfig * World :=
  let reload :=
    match read_config (apps_file w) with
    | Ok c => (TheCache, c, set_cache c now w)
    | Throw _ => (Fresh, {| apps := [] |}, w)
    end in
  match appsCache w with
  | Some c => if (now - cacheTimestamp w <? CACHE_TTL)%Z then (TheCache, c, w) else reload
  | None => reload
  end.

(** A mutation of the object [config] refers to reaches the cache when the
    two are the same object. *)
Definition mutate (r : ConfigRef) (c : AppConfig) (w : World) : World :=
  match r with
  | TheCache => set_cache c (cacheTimestamp w) w
  | Fresh => w
  end.

(** [saveApps(config)]: a failing write is logged and swallowed. *)
Definition saveApps (now : Z) (config : AppConfig) (w : World) : World :=
  match writeFileSync (apps_file w) config with
  | Ok f => set_cache config now (set_apps_file f w)
  | Throw _ => w
  end.

Definition generateAppApiKey (g : RNG) : jsstring * RNG :=
  let '(b, g) := randomBytes 32 g in
  (js "app_" ++ toString_hex b, g).

Record Options : Type := {
  opt_allowedIPs : option (list jsstring);
  opt_allowedDomains : option (list jsstring);
  opt_rateLimit : option RateLimit;
  opt_environment : option Environment;
  opt_expiresAt : option Z
}.

Definition registerApp (now : Z) (name_ : jsstring) (permissions_ : Permissions)
    (options : option Options) (w : World) : App * World :=
  let '(ref, config, w) := loadApps now w in
  let '(id_, g) := randomUUID (entropy w) in
  let '(apiKey_, g) := generateAppApiKey g in
  let app :=
    {| id := id_;
       name := name_;
       apiKey := apiKey_;
       permissions := permissions_;
       allowedIPs := options ≫= opt_allowedIPs;
       allowedDomains := options ≫= opt_allowedDomains;
       rateLimit := Some (default {| windowMs := 60000; maxRequests := 30 |}
                            (options ≫= opt_rateLimit));
       createdAt := now;
       lastAccess := None;
       accessCount := 0;
       environment := default production (options ≫= opt_environment);
       expiresAt := options ≫= opt_expiresAt |} in
  let config := {| apps := assign (apps config) apiKey_ app |} in
  let w := mutate ref config (set_entropy g w) in
  let w := saveApps now config w in
  (app, w).

(** [s.startsWith(p)] and [s.includes(d)] *)
Fixpoint startsWith (s p : jsstring) : bool :=
  match p, s with
  | [], _ => true
  | c :: p', d :: s' => (c =? d) && startsWith s' p'
  | _ :: _, [] => false
  end.

Fixpoint includes (s d : jsstring) : bool :=
  startsWith s d
  || match s with
     | [] => false
     | _ :: s' => includes s' d
     end.

(** [req.headers.origin || req.headers.referer] *)
Definition request_origin (req : Request) : option jsstring :=
  or_else (headers_origin req) (headers_referer req).

Definition expired (now : Z) (app : App) : bool :=
  match expiresAt app with
  | Some t => (t <? now)%Z
  | None => false
  end.

(** The IP whitelist check: true when the request is let through. *)
Definition ip_allowed (app : App) (req : Request) : bool :=
  match allowedIPs app with
  | Some (ip0 :: ips) =>
      let clientIP := or_else (ip req) (socket_remoteAddress req) in
      truthy clientIP && bool_decide (default [] clientIP ∈ ip0 :: ips)
  | _ => true
  end.

(** The domain check: true when the request is let through. *)
Definition domain_allowed (app : App) (req : Request) : bool :=
  match allowedDomains app with
  | Some (d0 :: ds) =>
      if truthy (request_origin req)
      then existsb (fun domain => includes (default [] (request_origin req)) domain)
             (d0 :: ds)
      else true
  | _ => true
  end.

(** A JS number that holds an integer, after a sum: the nearest double (53
    significant bits, ties to the even one). *)
Definition round_to_double (z : Z) : Z :=
  let a := Z.abs z in
  let k := (Z.log2 a - 52)%Z in
  if (k <=? 0)%Z then z
  else
    let q := (a / 2 ^ k)%Z in
    let r := (a mod 2 ^ k)%Z in
    let half := (2 ^ (k - 1))%Z in
    let q' := if (r <? half)%Z then q
              else if (half <? r)%Z then (q + 1)%Z
              else if Z.even q then q else (q + 1)%Z in
    (Z.sgn z * (q' * 2 ^ k))%Z.

(** [appData.lastAccess = new Date(); appData.accessCount++] *)
Definition touch (now : Z) (app : App) : App :=
  {| id := id app; name := name app; apiKey := apiKey app;
     permissions := permissions app; allowedIPs := allowedIPs app;
     allowedDomains := allowedDomains app; rateLimit := rateLimit app;
     createdAt := createdAt app;
     lastAccess := Some now;
     accessCount := round_to_double (accessCount app + 1);
     environment := environment app; expiresAt := expiresAt app |}.

Definition validateAppKey (now : Z) (w : World) (req : Request) : Outcome * World :=
  match or_else (headers_x_app_key req) (headers_x_api_key req) with
  | None | Some [] => (Respond (json 401 (error_body "App API key required")), w)
  | Some apiKey_ =>
      let '(ref, config, w) := loadApps now w in
      match apps_get (apps config) apiKey_ with
      | None => (Respond (json 401 (error_body "Invalid app API key")), w)
      | Some (InheritedObject n) =>
          (* a built-in has no expiresAt, allowedIPs or allowedDomains; the
             statistics are written on the built-in, and JSON.stringify
             leaves a function-valued property out of the file *)
          let w := saveApps now config w in
          (Next (set_appData (InheritedObject n) req), w)
      | Some (AppRecord app) =>
          if expired now app
          then (Respond (json 401 (error_body "App API key expired")), w)
          else if negb (ip_allowed app req)
          then (Respond (json 403 (error_body "Access denied from this IP")), w)
          else if negb (domain_allowed app req)
          then (Respond (json 403 (error_body "Access denied from this domain")), w)
          else
            let app := touch now app in
            let config := {| apps := assign (apps config) apiKey_ app |} in
            let w := mutate ref config w in
            let w := saveApps now config w in
            (Next (set_appData (AppRecord app) req), w)
      end
  end.

Definition permission (p : Permissions) (s : Service) : bool :=
  match s with
  | svc_openai => openai p
  | svc_anthropic => anthropic p
  end.

Definition checkAppPermission (s : Service) (req : Request) : Outcome :=
  match appData req with
  | None => Respond (json 401 (error_body "App authentication required"))
  | Some (InheritedObject _) => Raise TypeError    (* app.permissions is undefined *)
  | Some (AppRecord app) =>
      if negb (permission (permissions app) s)
      then Respond (json 403 (error_body
             ("App does not have permission to access " ++ service_name s ++ " keys")))
      else Next req
  end.

(** ** src/routes/apps.ts *)

(** The handlers of GET /keys/openai and GET /keys/anthropic. *)
Definition apps_get_service (s : Service) (now : Z) (w : World) (req : Request)
    : Response * World :=
  match appData req with
  | None => (json 401 (error_body "App not authenticated"), w)
  | Some d =>
      if negb (truthy (service_key (env w) s))
      then (json 404 (error_body (not_configured s)), w)
      else
        match d with
        | InheritedObject _ =>
            (* app.apiKey is undefined and pbkdf2Sync throws a TypeError *)
            (json 500 (error_body "Failed to retrieve key"), w)
        | AppRecord app =>
            let key := default [] (service_key (env w) s) in
            let '(r, g) := encryptKey key (apiKey app) (entropy w) in
            match r with
            | Ok encryptedKey =>
                (json 200 (app_key s encryptedKey (name app) (environment app) now),
                 set_entropy g w)
            | Throw _ => (json 500 (error_body "Failed to retrieve key"), set_entropy g w)
            end
        end
  end.

(** The handler of GET /keys/all. *)
Definition apps_get_all (now : Z) (w : World) (req : Request) : Response * World :=
  match appData req with
  | None => (json 401 (error_body "App not authenticated"), w)
  | Some (InheritedObject _) =>
      (* app.permissions is undefined *)
      (json 500 (error_body "Failed to retrieve keys"), w)
  | Some (AppRecord app) =>
      let '(r1, g) := encrypt_if (openai (permissions app)) (OPENAI_API_KEY (env w))
                        (apiKey app) (entropy w) in
      match r1 with
      | Throw _ => (json 500 (error_body "Failed to retrieve keys"), set_entropy g w)
      | Ok k1 =>
          let '(r2, g) := encrypt_if (anthropic (permissions app))
                            (ANTHROPIC_API_KEY (env w)) (apiKey app) g in
          match r2 with
          | Throw _ => (json 500 (error_body "Failed to retrieve keys"), set_entropy g w)
          | Ok k2 =>
              match k1, k2 with
              | None, None =>
                  (json 404 (error_body "No accessible keys for this app"),
                   set_entropy g w)
              | _, _ =>
                  (json 200 (app_keys {| keys_openai := k1; keys_anthropic := k2 |}
                               (name app) (environment app) (permissions app) now),
                   set_entropy g w)
              end
          end
      end
  end.

(** [appsRouter.use(validateAppKey)] followed by the middlewares of a route. *)
Definition appsRouter_route (check : option Service)
    (handler : Z -> World -> Request -> Response * World)
    (now : Z) (w : World) (req : Request) : Response * World :=
  match validateAppKey now w req with
  | (Respond r, w) => (r, w)
  | (Raise e, w) => (errorHandler e, w)
  | (Next req, w) =>
      match check with
      | None => handler now w req
      | Some s =>
          match checkAppPermission s req with
          | Respond r => (r, w)
          | Raise e => (errorHandler e, w)
          | Next req => handler now w req
          end
      end
  end.

(** GET /keys/openai, GET /keys/anthropic *)
Definition appsRouter_get_keys (s : Service) : Z -> World -> Request -> Response * World :=
  appsRouter_route (Some s) (apps_get_service s).

(** GET /keys/all *)
Definition appsRouter_get_keys_all : Z -> World -> Request -> Response * World :=
  appsRouter_route None apps_get_all.

(** ** src/middleware/security.ts *)

Definition validateRequestOrigin (allowedOrigins : list jsstring) (e : Env)
    (req : Request) : Outcome :=
  let origin := request_origin req in
  if negb (truthy origin) && bool_decide (NODE_ENV e = Some (js "production"))
  then Respond (json 403 (error_body "Origin validation failed"))
  else if truthy origin && (0 <? List.length allowedOrigins)%nat
          && negb (bool_decide (js "*" ∈ allowedOrigins))
  then
    if negb (existsb (fun allowed => startsWith (default [] origin) allowed)
               allowedOrigins)
    then Respond (json 403 (error_body "Origin not allowed"))
    else Next req
  else Next req.

(** ** Notions used in the statements *)

(** [t] is an envelope made by the Envelope Cipher for the plaintext [key]
    under [secret], with an iv of 16 and a salt of 32 bytes. *)
Definition sealed_under (t : jsontext) (key : option jsstring) (secret : jsstring)
    : Prop :=
  exists k ivBuf saltBuf,
    key = Some k /\ List.length ivBuf = 16%nat /\ List.length saltBuf = 32%nat
    /\ t = EnvelopeJson (seal k secret ivBuf saltBuf).

Definition all_sealed_under (ks : Keys) (e : Env) (secret : jsstring) : Prop :=
  (forall t, keys_openai ks = Some t -> sealed_under t (OPENAI_API_KEY e) secret)
  /\ (forall t, keys_anthropic ks = Some t ->
         sealed_under t (ANTHROPIC_API_KEY e) secret).

(** Containment of some listed entry in the origin. *)
Definition contains_listed (o : jsstring) (domains : list jsstring) : Prop :=
  exists d pre post, d ∈ domains /\ o = pre ++ d ++ post.





End Server.

(** ** scripts/manage-apps.ts *)

(** How the script ends: it runs to its end, or [process.exit(code)]. *)
Inductive Exit : Type := Finished | Exited (code : N).

(** The first entry of [Object.entries(config.apps)] with the given name. *)
Definition first_named (name_ : jsstring) (o : list (jsstring * App))
    : option (jsstring * App) :=
  find (fun p => bool_decide (name p.2 = name_)) o.

Definition revokeApp (name_ : jsstring) (f : File) : Exit * File :=
  match read_config f with
  | Throw _ => (Finished, f)                    (* 'Error revoking app:' *)
  | Ok config =>
      match first_named name_ (apps config) with
      | Some (key, _) =>
          let config := {| apps := delete_own (apps config) key |} in
          match writeFileSync f config with
          | Ok f' => (Finished, f')             (* 'has been revoked' *)
          | Throw _ => (Finished, f)            (* 'Error revoking app:' *)
          end
      | None => (Exited 1, f)                   (* 'not found' *)
      end
  end.

(** [Lookup(apiKey)] in the durable store: the record that the apps file
    holds under the key.  The server does not look there on every
    request: see [server_Lookup]. *)
Definition Lookup (f : File) (apiKey_ : jsstring) : option App :=
  match read_config f with
  | Ok config => own (apps config) apiKey_
  | Throw _ => None
  end.

(** The lookup by key that the server does at time [now], through
    [loadApps]: the record filed under the key in the configuration it
    works on, which is its cache while that is under a minute old and what
    it reads from the apps file otherwise. *)
Definition server_Lookup (now : Z) (w : World) (apiKey_ : jsstring) : option App :=
  own (apps (loadApps now w).1.2) apiKey_.

(** ** Sample data on which the model is run *)

Definition sample_env_with (keys : option keys_text) (secret : option jsstring) : Env :=
  {| VALID_API_KEYS := keys;
     MASTER_KEY := Some (js "master");
     OPENAI_API_KEY := Some (js "sk-live");
     ANTHROPIC_API_KEY := Some (js "sk-ant");
     ENCRYPTION_SECRET := secret;
     NODE_ENV := Some (js "production") |}.

Definition sample_env : Env := sample_env_with None None.

Definition sample_app (key name_ : string) (openai_ anthropic_ : bool)
    (ips domains : option (list jsstring)) : App :=
  {| id := js "7f3c"; name := js name_; apiKey := js key;
     permissions := {| openai := openai_; anthropic := anthropic_ |};
     allowedIPs := ips; allowedDomains := domains;
     rateLimit := Some {| windowMs := 60000; maxRequests := 30 |};
     createdAt := 0; lastAccess := None; accessCount := 0;
     environment := production; expiresAt := None |}.

Definition sample_file (entries : list (jsstring * App)) (writable_ : bool) : File :=
  {| content := ConfigText {| apps := entries |}; writable := writable_ |}.

Definition sample_world (e : Env) (f : File) : World :=
  {| env := e; users := ∅; JWT_SECRET := js "jwt"; apps_file := f;
     appsCache := None; cacheTimestamp := 0; entropy := counting_rng |}.

Definition blank_request : Request :=
  {| headers_x_api_key := None; headers_x_app_key := None;
     headers_origin := None; headers_referer := None;
     headers_authorization := None; ip := None; socket_remoteAddress := None;
     body_username := None; body_password := None; body_masterKey := None;
     apiKeyData := None; appData := None |}.

(** A request that carries an API key, an origin and a client address. *)
Definition request_of (x_api_key x_app_key origin_ ip_ : option jsstring) : Request :=
  {| headers_x_api_key := x_api_key; headers_x_app_key := x_app_key;
     headers_origin := origin_; headers_referer := None;
     headers_authorization := None; ip := ip_; socket_remoteAddress := None;
     body_username := None; body_password := None; body_masterKey := None;
     apiKeyData := None; appData := None |}.

(** A request whose body carries a user name, a password and possibly the
    master key. *)
Definition credentials (username_ password : jsstring) (masterKey : option jsstring)
    : Request :=
  {| headers_x_api_key := None; headers_x_app_key := None;
     headers_origin := None; headers_referer := None;
     headers_authorization := None; ip := None; socket_remoteAddress := None;
     body_username := Some username_; body_password := Some password;
     body_masterKey := masterKey; apiKeyData := None; appData := None |}.

(** ** src/routes/keys.ts: POST /decrypt-test *)

(** The fields the handler reads of a body that is a JSON object, each a
    string or missing.  [encryptedData] is the text handed to
    [JSON.parse], represented as for [JSON_parse]; [None] is a field that
    is missing or the empty string, which the handler does not tell
    apart. *)
Record DecryptTestBody : Type := {
  body_encryptedData : option jsontext;
  body_secret : option jsstring
}.

Inductive DecryptTestAnswer : Type :=
  | test_error (error : string)                         (* { error } *)
  | test_failed (error : string)                        (* { success: false, error } *)
  | test_success (message : string) (keyPrefix : jsstring).
                                                        (* { success: true, message, keyPrefix } *)

Section DecryptTest.
Context `{NodeCrypto}.

Definition post_decrypt_test (b : DecryptTestBody) : N * DecryptTestAnswer :=
  match body_encryptedData b with
  | None => (400, test_error "encryptedData and secret are required")
  | Some encryptedData =>
      if negb (truthy (body_secret b))
      then (400, test_error "encryptedData and secret are required")
      else
        match decryptKey encryptedData (default [] (body_secret b)) with
        | Ok decrypted =>
            (200, test_success "Decryption successful" (take 8 decrypted ++ js "..."))
        | Throw _ => (400, test_failed "Decryption failed. Check your secret.")
        end
  end.

End DecryptTest.

(** ** src/utils/client-decrypt.ts *)

(** WhiteSpace and LineTerminator of ECMAScript, which [parseInt] skips at
    the start of its argument. *)
Definition is_white_space (u : N) : bool :=
  bool_decide (u ∈ [0x9; 0xA; 0xB; 0xC; 0xD; 0x20; 0xA0; 0x1680; 0x2028; 0x2029;
                    0x202F; 0x205F; 0x3000; 0xFEFF])
  || ((0x2000 <=? u) && (u <=? 0x200A)).

Fixpoint trimStart (s : jsstring) : jsstring :=
  match s with
  | u :: rest => if is_white_space u then trimStart rest else s
  | [] => []
  end.

(** The value of the longest prefix of hexadecimal digits, [acc] being the
    value read so far ([None]: no digit yet). *)
Fixpoint hex_prefix (acc : option N) (s : jsstring) : option N :=
  match s with
  | u :: rest =>
      match hex_value u with
      | Some d => hex_prefix (Some (16 * default 0 acc + d)) rest
      | None => acc
      end
  | [] => acc
  end.

(** [parseInt(string, 16)]: white space at the start is skipped, a sign
    is read, a prefix "0x" or "0X" is skipped and the digits that follow
    are read up to the first character that is none; [None] is NaN.  The
    result is exact while it is below 2^53. *)
Definition parseInt_16 (string : jsstring) : option Z :=
  let trimmed := trimStart string in
  let negative :=
    match trimmed with
    | c :: _ => c =? 45                                   (* "-" *)
    | [] => false
    end in
  let unsigned :=
    match trimmed with
    | c :: rest => if (c =? 45) || (c =? 43) then rest else trimmed
    | [] => []
    end in
  let digits :=
    match unsigned with
    | z :: x :: rest =>
        if (z =? 48) && ((x =? 120) || (x =? 88)) then rest else unsigned
    | _ => unsigned
    end in
  match hex_prefix None digits with
  | Some n => Some (if negative then - Z.of_N n else Z.of_N n)%Z
  | None => None
  end.

(** A store into a [Uint8Array]: NaN is stored as 0, an integer modulo 256. *)
Definition ToUint8 (x : option Z) : byte :=
  match x with
  | Some z => ascii_of_N (Z.to_N (z mod 256))
  | None => zero
  end.

(** [hexToBuffer(hex)]: the array has [hex.length / 2] elements, rounded
    down; the store of a last lone character falls outside it. *)
Fixpoint hexToBuffer (hex : jsstring) : Buffer :=
  match hex with
  | c1 :: c2 :: rest => ToUint8 (parseInt_16 [c1; c2]) :: hexToBuffer rest
  | _ => []
  end.

(** How the promise of [decryptApiKey] settles. *)
Inductive Reason : Type :=
  | Thrown (e : exn)
  | OperationError.            (* the DOMException of crypto.subtle *)

Inductive Promise (A : Type) : Type :=
  | Fulfilled (a : A)
  | Rejected (reason : Reason).
Arguments Fulfilled {A} a.
Arguments Rejected {A} reason.

(** [new TextDecoder().decode(buf)]: UTF-8, and a byte order mark at the
    start is left out. *)
Definition TextDecoder_decode (buf : Buffer) : jsstring :=
  match buf with
  | b0 :: b1 :: b2 :: rest =>
      if bool_decide (N_of_ascii b0 = 0xEF /\ N_of_ascii b1 = 0xBB /\ N_of_ascii b2 = 0xBF)
      then utf8_decode rest
      else utf8_decode buf
  | _ => utf8_decode buf
  end.

Section Client.
Context `{NodeCrypto}.

(** [importKey('raw', keyMaterial, 'PBKDF2', ...)] and [deriveKey] with
    PBKDF2, SHA-256 and 100000 iterations to a 256-bit AES-GCM key. *)
Definition subtle_deriveKey (keyMaterial salt_ : Buffer) : Buffer :=
  fit 32 (pbkdf2_sha256 keyMaterial salt_ 100000).

(** [crypto.subtle.decrypt({ name: 'AES-GCM', iv }, key, data)]: the last
    16 bytes of [data] are the tag, which is checked before any plaintext
    is given out. *)
Definition subtle_decrypt (key iv_ data : Buffer) : Promise Buffer :=
  if (List.length data <? 16)%nat then Rejected OperationError
  else if (List.length iv_ =? 0)%nat then Rejected OperationError
  else
    let n := (List.length data - 16)%nat in
    let text := take n data in
    let tag := drop n data in
    if bool_decide (tag = fit 16 (gcm_mac key iv_ text))
    then Fulfilled (xor_stream (gcm_keystream key iv_) 0 text)
    else Rejected OperationError.

Definition decryptApiKey (encryptedData : jsontext) (secret : jsstring)
    : Promise jsstring :=
  let fields :=
    do e <- JSON_parse encryptedData;
    do saltHex <- defined (salt e);
    do ivHex <- defined (iv e);
    do tagHex <- defined (authTag e);
    do enc <- defined (encrypted e);
    Ok (hexToBuffer saltHex, hexToBuffer ivHex, hexToBuffer tagHex, hexToBuffer enc) in
  match fields with
  | Throw e => Rejected (Thrown e)
  | Ok (saltBuffer, ivBuffer, authTagBuffer, encryptedBuffer) =>
      let keyMaterial := utf8_encode secret in          (* encoder.encode(secret) *)
      let key := subtle_deriveKey keyMaterial saltBuffer in
      let ciphertext := encryptedBuffer ++ authTagBuffer in
      match subtle_decrypt key ivBuffer ciphertext with
      | Fulfilled decryptedBuffer => Fulfilled (TextDecoder_decode decryptedBuffer)
      | Rejected reason => Rejected reason
      end
  end.

End Client.

(** ** src/middleware/appAuth.ts: createAppRateLimiter *)

(** The options [createAppRateLimiter] hands to [rateLimit]. *)
Record RateLimitOptions : Type := {
  rl_windowMs : Z;
  rl_max : Z;
  rl_message : string;
  rl_standardHeaders : bool;
  rl_legacyHeaders : bool;
  rl_keyGenerator : Request -> jsstring
}.

(** [n || d] on a number that may be undefined: 0 is falsy. *)
Definition or_number (n : option Z) (d : Z) : Z :=
  match n with
  | Some z => if (z =? 0)%Z then d else z
  | None => d
  end.

Definition createAppRateLimiter (app : App) : RateLimitOptions :=
  {| rl_windowMs := or_number (windowMs <$> rateLimit app) 60000;
     rl_max := or_number (maxRequests <$> rateLimit app) 30;
     rl_message := "App rate limit exceeded";
     rl_standardHeaders := true;
     rl_legacyHeaders := false;
     rl_keyGenerator := fun req =>
       match appData req with
       | Some (AppRecord a) => default (js "unknown") (or_else (Some (id a)) None)
       | _ => js "unknown"
       end |}.

(** ** scripts/manage-apps.ts: parseArgs *)

(** The [options] object: a property is a string or undefined; [openai]
    and [anthropic] are [true] once set and undefined before. *)
Record CLIOptions : Type := {
  cli_name : option jsstring;
  cli_openai : bool;
  cli_anthropic : bool;
  cli_ips : option jsstring;
  cli_domains : option jsstring;
  cli_env : option jsstring;
  cli_rateLimit : option jsstring;
  cli_expires : option jsstring
}.

(** [{ name: '' }] *)
Definition no_options : CLIOptions :=
  {| cli_name := Some []; cli_openai := false; cli_anthropic := false;
     cli_ips := None; cli_domains := None; cli_env := None;
     cli_rateLimit := None; cli_expires := None |}.

(** The eight assignments made for the option [key], [value] being the
    argument that follows it. *)
Definition set_option (key : jsstring) (value : option jsstring) (o : CLIOptions)
    : CLIOptions :=
  {| cli_name := if bool_decide (key = js "name") then value else cli_name o;
     cli_openai := if bool_decide (key = js "openai") then true else cli_openai o;
     cli_anthropic := if bool_decide (key = js "anthropic") then true else cli_anthropic o;
     cli_ips := if bool_decide (key = js "ips") then value else cli_ips o;
     cli_domains := if bool_decide (key = js "domains") then value else cli_domains o;
     cli_env := if bool_decide (key = js "env") then value else cli_env o;
     cli_rateLimit := if bool_decide (key = js "rate-limit") then value else cli_rateLimit o;
     cli_expires := if bool_decide (key = js "expires") then value else cli_expires o |}.

(** The loop over [args], from the argument at hand on. *)
Fixpoint parse_options (args : list jsstring) (o : CLIOptions) : CLIOptions :=
  match args with
  | [] => o
  | arg :: rest =>
      if startsWith arg (js "--") then
        let o := set_option (drop 2 arg) (head rest) o in
        match rest with
        | value :: rest' =>
            if truthy (Some value) && negb (startsWith value (js "--"))
            then parse_options rest' o
            else parse_options rest o
        | [] => o
        end
      else parse_options rest o
  end.

(** [parseArgs()], [argv] being [process.argv]. *)
Definition parseArgs (argv : list jsstring) : option jsstring * CLIOptions :=
  let args := drop 2 argv in
  (head args, parse_options (tail args) no_options).

(** ** Further notions used in the statements *)

(** The envelope with its authTag cut to its first [n] bytes. *)
Definition truncate_authTag (n : nat) (e : Envelope) : Envelope :=
  {| encrypted := encrypted e; salt := salt e; iv := iv e;
     authTag := take (2 * n) <$> authTag e |}.

(** The envelope with one more character at the end of its salt, iv and
    authTag. *)
Definition append_to_fields (c : N) (e : Envelope) : Envelope :=
  {| encrypted := encrypted e;
     salt := (fun h => h ++ [c]) <$> salt e;
     iv := (fun h => h ++ [c]) <$> iv e;
     authTag := (fun h => h ++ [c]) <$> authTag e |}.

(** A string with a leading U+FEFF left out. *)
Definition without_BOM (s : jsstring) : jsstring :=
  match s with
  | u :: rest => if u =? 0xFEFF then rest else s
  | [] => []
  end.

(** The arguments of the help text for the options [o]: [--name],
    [--ips], [--domains], [--env], [--rate-limit] and [--expires] with
    their values, [--openai] and [--anthropic] without. *)
Definition with_value (k : string) (v : option jsstring) : list jsstring :=
  match v with
  | Some s => [js "--" ++ js k; s]
  | None => []
  end.

Definition switch (k : string) (b : bool) : list jsstring :=
  if b then [js "--" ++ js k] else [].

Definition option_arguments (o : CLIOptions) : list jsstring :=
  with_value "name" (cli_name o)
  ++ switch "openai" (cli_openai o) ++ switch "anthropic" (cli_anthropic o)
  ++ with_value "ips" (cli_ips o) ++ with_value "domains" (cli_domains o)
  ++ with_value "env" (cli_env o) ++ with_value "rate-limit" (cli_rateLimit o)
  ++ with_value "expires" (cli_expires o).

(** A value that is not mistaken for an option. *)
Definition plain (v : option jsstring) : Prop :=
  match v with
  | Some s => startsWith s (js "--") = false
  | None => True
  end.

(** What the arguments after an option start with: nothing, or an option. *)
Definition option_next (args : list jsstring) : Prop :=
  match args with
  | [] => True
  | a :: _ => startsWith a (js "--") = true
  end.

(** A JSON value that is no object, array or [null]. *)
Definition primitive (v : value) : bool :=
  match v with
  | Boolean _ | Number _ | String_ _ => true
  | _ => false
  end.


(** * Properties *)

(** ** Bytes, hex and UTF-8 *)

Lemma xor_byte_involutive (a k : byte) : xor_byte (xor_byte a k) k = a.
Proof.
  destruct a, k; simpl.
  by rewrite !xorb_assoc_reverse, !xorb_nilpotent, !xorb_false_r.
Qed.

Lemma xor_byte_zero_inv (a k : byte) : xor_byte a k = a -> k = zero.
Proof.
  destruct a as [a0 a1 a2 a3 a4 a5 a6 a7], k as [k0 k1 k2 k3 k4 k5 k6 k7]; simpl.
  intros [= H0 H1 H2 H3 H4 H5 H6 H7]. unfold zero.
  f_equal; [destruct a0, k0|destruct a1, k1|destruct a2, k2|destruct a3, k3
           |destruct a4, k4|destruct a5, k5|destruct a6, k6|destruct a7, k7];
    simpl in *; congruence.
Qed.

Lemma flip_bit_changes (i : nat) (b : byte) : flip_bit i b <> b.
Proof.
  unfold flip_bit. intros E. apply xor_byte_zero_inv in E.
  assert (Hlt : (i mod 8 < 8)%nat) by (apply Nat.mod_upper_bound; lia).
  revert E. generalize (i mod 8)%nat Hlt. intros n Hn.
  do 8 (destruct n as [|n]; [discriminate|]). lia.
Qed.

Lemma xor_stream_involutive (ks : nat -> byte) (pos : nat) (d : Buffer) :
  xor_stream ks pos (xor_stream ks pos d) = d.
Proof.
  revert pos. induction d as [|b d IH]; intros pos; simpl; [done|].
  by rewrite xor_byte_involutive, IH.
Qed.

Lemma xor_stream_length (ks : nat -> byte) (pos : nat) (d : Buffer) :
  List.length (xor_stream ks pos d) = List.length d.
Proof. revert pos. induction d as [|b d IH]; intros pos; simpl; [done|]. by rewrite IH. Qed.

Lemma hex_value_digit (n : N) : n < 16 -> hex_value (hex_digit n) = Some n.
Proof.
  intros Hn. unfold hex_digit, hex_value.
  destruct (N.ltb_spec n 10).
  - replace ((48 <=? 48 + n) && (48 + n <=? 57)) with true; [f_equal; lia|].
    symmetry. apply andb_true_iff. split; apply N.leb_le; lia.
  - replace ((48 <=? 87 + n) && (87 + n <=? 57)) with false.
    + replace ((97 <=? 87 + n) && (87 + n <=? 102)) with true; [f_equal; lia|].
      symmetry. apply andb_true_iff. split; apply N.leb_le; lia.
    + symmetry. apply andb_false_iff. right. apply N.leb_gt. lia.
Qed.

Lemma Buffer_from_hex_toString (buf : Buffer) :
  Buffer_from_hex (toString_hex buf) = buf.
Proof.
  induction buf as [|b buf IH]; [done|].
  unfold toString_hex in *. cbn [flat_map hex_of_byte app Buffer_from_hex].
  pose proof (N_ascii_bounded b) as Hb.
  rewrite !hex_value_digit
    by (first [apply N.Div0.div_lt_upper_bound | apply N.mod_lt]; lia).
  rewrite IH. f_equal.
  rewrite <- (ascii_N_embedding b) at 3. f_equal.
  symmetry. apply N.div_mod. lia.
Qed.

Lemma toString_hex_length (buf : Buffer) :
  List.length (toString_hex buf) = (2 * List.length buf)%nat.
Proof.
  induction buf as [|b buf IH]; [done|].
  unfold toString_hex in *. cbn [flat_map hex_of_byte app List.length].
  rewrite IH. lia.
Qed.

Lemma toString_hex_even (buf : Buffer) :
  Nat.odd (List.length (toString_hex buf)) = false.
Proof.
  rewrite toString_hex_length, <- Nat.negb_even, Nat.even_mul. done.
Qed.



Ltac decide_cmp :=
  repeat match goal with
  | |- context [N.ltb ?a ?b] =>
      first [ rewrite (proj2 (N.ltb_lt a b)) by lia
            | rewrite (proj2 (N.ltb_ge a b)) by lia ]
  | |- context [N.leb ?a ?b] =>
      first [ rewrite (proj2 (N.leb_le a b)) by lia
            | rewrite (proj2 (N.leb_gt a b)) by lia ]
  | |- context [N.eqb ?a ?b] =>
      first [ rewrite (proj2 (N.eqb_eq a b)) by lia
            | rewrite (proj2 (N.eqb_neq a b)) by lia
            | destruct (N.eqb_spec a b) ]
  end.

Lemma N_of_bN (n : N) : n < 256 -> N_of_ascii (bN n) = n.
Proof. apply N_ascii_embedding. Qed.

Lemma between_bN (lo hi n : N) :
  n < 256 -> lo <= n <= hi -> between lo hi (bN n) = true.
Proof.
  intros Hn [Hl Hh]. unfold between. rewrite N_of_bN by done.
  apply andb_true_iff. split; by apply N.leb_le.
Qed.

Lemma cont_bN (n : N) : n < 256 -> cont (bN n) = n - 0x80.
Proof. intros Hn. unfold cont. by rewrite N_of_bN. Qed.

Lemma utf8_decode_unfold (bs : Buffer) :
  utf8_decode bs = utf8_decode_step utf8_decode bs.
Proof. by destruct bs. Qed.

Ltac decode_head :=
  rewrite utf8_decode_unfold; unfold utf8_decode_step; cbv beta iota zeta.

Lemma utf8_decode_1 (n0 : N) (t : Buffer) :
  n0 < 0x80 -> utf8_decode (bN n0 :: t) = n0 :: utf8_decode t.
Proof.
  intros H0. decode_head. rewrite N_of_bN by lia. by decide_cmp.
Qed.

Lemma utf8_decode_2 (n0 n1 : N) (t : Buffer) :
  0xC2 <= n0 <= 0xDF -> 0x80 <= n1 <= 0xBF ->
  utf8_decode (bN n0 :: bN n1 :: t)
  = ((n0 - 0xC0) * 64 + (n1 - 0x80)) :: utf8_decode t.
Proof.
  intros H0 H1. decode_head.
  rewrite between_bN, cont_bN by lia. rewrite N_of_bN by lia.
  decide_cmp. cbn [andb]. by decide_cmp.
Qed.

Lemma bounds_of (n0 n1 : N) :
  0x80 <= n1 <= 0xBF ->
  (n0 = 0xE0 -> 0xA0 <= n1) -> (n0 = 0xED -> n1 <= 0x9F) ->
  (n0 = 0xF0 -> 0x90 <= n1) -> (n0 = 0xF4 -> n1 <= 0x8F) ->
  lower_of n0 <= n1 <= upper_of n0.
Proof.
  intros H1 Ha Hb Hc Hd. unfold lower_of, upper_of.
  destruct (N.eqb_spec n0 0xE0), (N.eqb_spec n0 0xF0),
    (N.eqb_spec n0 0xED), (N.eqb_spec n0 0xF4); lia.
Qed.

Lemma utf8_decode_3 (n0 n1 n2 : N) (t : Buffer) :
  0xE0 <= n0 <= 0xEF -> 0x80 <= n1 <= 0xBF -> 0x80 <= n2 <= 0xBF ->
  (n0 = 0xE0 -> 0xA0 <= n1) -> (n0 = 0xED -> n1 <= 0x9F) ->
  utf8_decode (bN n0 :: bN n1 :: bN n2 :: t)
  = ((n0 - 0xE0) * 4096 + (n1 - 0x80) * 64 + (n2 - 0x80)) :: utf8_decode t.
Proof.
  intros H0 H1 H2 Ha Hb. decode_head. rewrite !N_of_bN by lia.
  rewrite (between_bN (lower_of n0) (upper_of n0) n1)
    by (try apply bounds_of; lia).
  rewrite (between_bN 0x80 0xBF n2) by lia.
  rewrite !cont_bN by lia.
  decide_cmp. cbn [andb]. by decide_cmp.
Qed.

Lemma utf8_decode_4 (n0 n1 n2 n3 : N) (t : Buffer) :
  0xF0 <= n0 <= 0xF4 -> 0x80 <= n1 <= 0xBF -> 0x80 <= n2 <= 0xBF ->
  0x80 <= n3 <= 0xBF ->
  (n0 = 0xF0 -> 0x90 <= n1) -> (n0 = 0xF4 -> n1 <= 0x8F) ->
  utf8_decode (bN n0 :: bN n1 :: bN n2 :: bN n3 :: t)
  = units_of_codepoint
      ((n0 - 0xF0) * 262144 + (n1 - 0x80) * 4096 + (n2 - 0x80) * 64 + (n3 - 0x80))
    ++ utf8_decode t.
Proof.
  intros H0 H1 H2 H3 Ha Hb. decode_head. rewrite !N_of_bN by lia.
  rewrite (between_bN (lower_of n0) (upper_of n0) n1)
    by (try apply bounds_of; lia).
  rewrite (between_bN 0x80 0xBF n2), (between_bN 0x80 0xBF n3) by lia.
  rewrite !cont_bN by lia.
  decide_cmp. cbn [andb]. by decide_cmp.
Qed.

Lemma split64 (c : N) :
  exists q r, c = 64 * q + r /\ r < 64 /\ c / 64 = q /\ c mod 64 = r.
Proof.
  exists (c / 64), (c mod 64). repeat split.
  - apply N.div_mod. lia.
  - apply N.mod_lt. lia.
Qed.

(** A scalar value survives encoding and decoding, whatever follows. *)
Lemma utf8_decode_codepoint (c : N) (t : Buffer) :
  c < 0x110000 -> ~ (0xD800 <= c <= 0xDFFF) ->
  utf8_decode (utf8_of_codepoint c ++ t) = units_of_codepoint c ++ utf8_decode t.
Proof.
  intros Hc Hs. unfold utf8_of_codepoint.
  change 4096 with (64 * 64). change 262144 with (64 * 64 * 64).
  rewrite <- !N.Div0.div_div.
  destruct (split64 c) as (q & r & Ec & Hr & -> & ->).
  destruct (split64 q) as (q1 & r1 & Eq & Hr1 & -> & ->).
  destruct (split64 q1) as (q2 & r2 & Eq1 & Hr2 & -> & ->).
  destruct (N.ltb_spec c 0x80);
    [|destruct (N.ltb_spec c 0x800); [|destruct (N.ltb_spec c 0x10000)]];
    cbn [app].
  - rewrite utf8_decode_1 by lia. unfold units_of_codepoint. by decide_cmp.
  - rewrite utf8_decode_2 by lia. unfold units_of_codepoint. decide_cmp.
    cbn [app]. f_equal. lia.
  - rewrite utf8_decode_3 by lia. unfold units_of_codepoint. decide_cmp.
    cbn [app]. f_equal. lia.
  - rewrite utf8_decode_4 by lia. f_equal. f_equal. lia.
Qed.

Lemma units_of_pair (u v : N) :
  is_high_surrogate u = true -> is_low_surrogate v = true ->
  units_of_codepoint (codepoint_of_pair u v) = [u; v].
Proof.
  unfold is_high_surrogate, is_low_surrogate, units_of_codepoint, codepoint_of_pair.
  intros [Hu1%N.leb_le Hu2%N.leb_le]%andb_true_iff [Hv1%N.leb_le Hv2%N.leb_le]%andb_true_iff.
  decide_cmp.
  replace (0x10000 + (u - 0xD800) * 0x400 + (v - 0xDC00) - 0x10000)
    with ((v - 0xDC00) + (u - 0xD800) * 0x400) by lia.
  rewrite N.div_add, N.Div0.mod_add by lia.
  rewrite N.div_small, N.mod_small by lia. f_equal; [lia|f_equal; lia].
Qed.

Lemma pair_is_scalar (u v : N) :
  is_high_surrogate u = true -> is_low_surrogate v = true ->
  codepoint_of_pair u v < 0x110000 /\ ~ (0xD800 <= codepoint_of_pair u v <= 0xDFFF).
Proof.
  unfold is_high_surrogate, is_low_surrogate, codepoint_of_pair.
  intros [Hu1%N.leb_le Hu2%N.leb_le]%andb_true_iff [Hv1%N.leb_le Hv2%N.leb_le]%andb_true_iff.
  lia.
Qed.

(** Decoding undoes encoding on well-formed strings. *)
Lemma utf8_roundtrip (s : jsstring) :
  isWellFormed s = true -> utf8_decode (utf8_encode s) = s.
Proof.
  remember (List.length s) as n eqn:Hn. revert s Hn.
  induction n as [n IH] using lt_wf_ind. intros s Hn Hw.
  destruct s as [|u rest]; [done|]. cbn [utf8_encode isWellFormed] in *.
  destruct (is_high_surrogate u) eqn:Hh.
  - destruct rest as [|v rest']; [done|].
    apply andb_true_iff in Hw as [Hl Hw]. rewrite Hl.
    destruct (pair_is_scalar u v Hh Hl) as [Hc Hs].
    rewrite utf8_decode_codepoint, units_of_pair by done.
    cbn [app]. do 2 f_equal. apply (IH (List.length rest')); [|done..].
    subst n. cbn [List.length]. lia.
  - destruct (is_low_surrogate u) eqn:Hl; [done|].
    apply andb_true_iff in Hw as [Hu%N.ltb_lt Hw].
    rewrite utf8_decode_codepoint.
    + unfold units_of_codepoint. decide_cmp. cbn [app]. f_equal.
      apply (IH (List.length rest)); [|done..]. subst n. cbn [List.length]. lia.
    + lia.
    + unfold is_high_surrogate, is_low_surrogate in *.
      apply andb_false_iff in Hh, Hl. rewrite !N.leb_gt in Hh, Hl. lia.
Qed.

(** ** The envelope cipher *)

Lemma fit_length (n : nat) (l : Buffer) : List.length (fit n l) = n.
Proof. unfold fit. rewrite length_take, length_app, repeat_length. lia. Qed.

Lemma randomBytes_length (n : nat) (g : RNG) :
  List.length (randomBytes n g).1 = n.
Proof. cbn. by rewrite length_map, length_seq. Qed.

Lemma flip_at_length (j i : nat) (buf : Buffer) :
  List.length (flip_at j i buf) = List.length buf.
Proof. apply length_alter. Qed.

Lemma flip_at_changes (j i : nat) (buf : Buffer) :
  (j < List.length buf)%nat -> flip_at j i buf <> buf.
Proof.
  intros Hj E. apply lookup_lt_is_Some in Hj as [b Hb].
  assert (Hl : flip_at j i buf !! j = Some (flip_bit i b)).
  { unfold flip_at. by rewrite list_lookup_alter_eq, Hb. }
  rewrite E, Hb in Hl. injection Hl as Hl. by apply (flip_bit_changes i b).
Qed.

Section CryptoFacts.
Context `{NodeCrypto}.

Lemma pbkdf2Sync_length password salt_ it n :
  List.length (pbkdf2Sync password salt_ it n) = n.
Proof. apply fit_length. Qed.

Lemma createCipheriv_ok (key ivBuf : Buffer) :
  List.length key = 32%nat -> List.length ivBuf <> 0%nat ->
  createCipheriv key ivBuf
  = Ok {| c_key := key; c_iv := ivBuf; c_pos := 0; c_text := []; c_final := false |}.
Proof.
  intros Hk Hi. unfold createCipheriv. rewrite Hk. cbn.
  by destruct (List.length ivBuf).
Qed.

(** [encryptKey] never throws, and its envelope is [seal] of the entropy. *)
Lemma encryptKey_seal (key secret : jsstring) (g : RNG) :
  encryptKey key secret g
  = (Ok (EnvelopeJson
           (seal key secret (randomBytes 16 g).1
              (randomBytes 32 (randomBytes 16 g).2).1)),
     (randomBytes 32 (randomBytes 16 g).2).2).
Proof.
  unfold encryptKey.
  destruct (randomBytes 16 g) as [ivBuf g1] eqn:E1. cbn [fst snd].
  destruct (randomBytes 32 g1) as [saltBuf g2] eqn:E2. cbn [fst snd].
  rewrite createCipheriv_ok.
  - cbn [bind cipher_update cipher_final cipher_getAuthTag c_final c_key c_iv
           c_text c_pos app JSON_stringify].
    unfold seal. by rewrite app_nil_r.
  - apply pbkdf2Sync_length.
  - pose proof (randomBytes_length 16 g) as Hl. rewrite E1 in Hl. cbn in Hl.
    by rewrite Hl.
Qed.

(** [decryptKey] on an envelope with its four fields, as one expression. *)
Lemma decryptKey_fields (enc saltHex ivHex tagHex secret : jsstring) :
  let e := {| encrypted := Some enc; salt := Some saltHex;
              iv := Some ivHex; authTag := Some tagHex |} in
  let derivedKey := pbkdf2Sync secret (Buffer_from_hex saltHex) 100000 32 in
  decryptKey (EnvelopeJson e) secret
  = if (List.length (Buffer_from_hex ivHex) =? 0)%nat then Throw ERR_CRYPTO_INVALID_IV
    else if negb (valid_gcm_tag_length (List.length (Buffer_from_hex tagHex)))
    then Throw ERR_CRYPTO_INVALID_AUTH_TAG
    else if Nat.odd (List.length enc) then Throw ERR_INVALID_ARG_VALUE
    else if envelope_tag_verifies e secret
    then Ok (utf8_decode
               (xor_stream (gcm_keystream derivedKey (Buffer_from_hex ivHex)) 0
                  (Buffer_from_hex enc)))
    else Throw ERR_CRYPTO_AUTH_FAILED.
Proof.
  cbv zeta. unfold decryptKey.
  cbn [JSON_parse bind defined salt iv authTag encrypted].
  unfold createDecipheriv.
  rewrite (pbkdf2Sync_length _ _ _ 32). cbn [Nat.eqb negb].
  destruct (List.length (Buffer_from_hex ivHex) =? 0)%nat; [done|]. cbn [bind].
  unfold decipher_setAuthTag.
  destruct (valid_gcm_tag_length _); [|done]. cbn [bind negb].
  unfold decipher_update. destruct (Nat.odd _); [done|]. cbn [bind].
  unfold decipher_final, tag_verifies, expected_tag, envelope_tag_verifies.
  cbn [d_tag d_key d_iv d_text d_pos app salt iv authTag encrypted].
  destruct (bool_decide _); cbn [bind]; [|done]. by rewrite app_nil_r.
Qed.

Lemma decryptKey_not_verified (t : jsontext) (e : Envelope) (secret : jsstring) :
  JSON_parse t = Ok e -> envelope_tag_verifies e secret = false ->
  exists err, decryptKey t secret = Throw err.
Proof.
  intros Ht Hv. destruct t as [|e']; cbn in Ht; [done|]. injection Ht as ->.
  destruct e as [[enc|] [saltHex|] [ivHex|] [tagHex|]].
  1: { rewrite decryptKey_fields. cbv zeta. rewrite Hv.
       repeat match goal with
              | |- context [if ?b then _ else _] => destruct b; [by eexists|]
              end.
       by eexists. }
  all: unfold decryptKey; cbn [JSON_parse bind defined salt iv authTag encrypted].
  all: repeat first
         [ by eexists
         | match goal with
           | |- context [bind ?r _] => destruct r; cbn [bind defined]
           end ].
Qed.

End CryptoFacts.

Section CipherTheorems.
Context `{NodeCrypto}.

Lemma seal_fields (key secret : jsstring) (ivBuf saltBuf : Buffer) :
  exists enc tagHex,
    seal key secret ivBuf saltBuf
    = {| encrypted := Some enc; salt := Some (toString_hex saltBuf);
         iv := Some (toString_hex ivBuf); authTag := Some tagHex |}
    /\ Buffer_from_hex enc
       = xor_stream (gcm_keystream (pbkdf2Sync secret saltBuf 100000 32) ivBuf) 0
           (utf8_encode key)
    /\ Buffer_from_hex tagHex
       = fit 16 (gcm_mac (pbkdf2Sync secret saltBuf 100000 32) ivBuf
                   (Buffer_from_hex enc))
    /\ Nat.odd (List.length enc) = false.
Proof.
  eexists _, _. split; [reflexivity|].
  rewrite !Buffer_from_hex_toString. repeat split. apply toString_hex_even.
Qed.

(** The tag of a sealed envelope is compared under the key of [secret'];
    the check succeeds exactly when the two 16-byte tags agree. *)
Lemma seal_tag_verifies (key secret secret' : jsstring) (ivBuf saltBuf : Buffer) :
  let text := xor_stream (gcm_keystream (pbkdf2Sync secret saltBuf 100000 32) ivBuf) 0
                (utf8_encode key) in
  envelope_tag_verifies (seal key secret ivBuf saltBuf) secret'
  = bool_decide
      (fit 16 (gcm_mac (pbkdf2Sync secret saltBuf 100000 32) ivBuf text)
       = fit 16 (gcm_mac (pbkdf2Sync secret' saltBuf 100000 32) ivBuf text)).
Proof.
  cbv zeta. unfold envelope_tag_verifies, seal.
  cbn [salt iv authTag encrypted]. rewrite !Buffer_from_hex_toString.
  rewrite fit_length, take_ge by (rewrite fit_length; lia). done.
Qed.

(** Decrypting a sealed envelope with the secret that sealed it. *)
Lemma decryptKey_seal (key secret : jsstring) (ivBuf saltBuf : Buffer) :
  List.length ivBuf = 16%nat ->
  decryptKey (EnvelopeJson (seal key secret ivBuf saltBuf)) secret
  = Ok (utf8_decode (utf8_encode key)).
Proof.
  intros Hiv. pose proof (seal_tag_verifies key secret secret ivBuf saltBuf) as Hv.
  cbv zeta in Hv. rewrite bool_decide_eq_true_2 in Hv by done.
  revert Hv. unfold seal. intros Hv. rewrite decryptKey_fields. cbv zeta.
  rewrite Hv. rewrite !Buffer_from_hex_toString, Hiv, fit_length, toString_hex_even.
  cbn [Nat.eqb valid_gcm_tag_length orb andb negb Nat.leb].
  by rewrite xor_stream_involutive.
Qed.

End CipherTheorems.

(** C2, amended.  For every plaintext string P that is well formed (no
    unpaired surrogate) and every secret S, [encryptKey] returns an
    envelope, and [decryptKey] of that envelope under the same S returns
    exactly P. *)
Theorem decryptKey_encryptKey_roundtrip `{NodeCrypto}
    (P S : jsstring) (g : RNG) :
  isWellFormed P = true ->
  exists t g', encryptKey P S g = (Ok t, g') /\ decryptKey t S = Ok P.
Proof.
  intros Hw. rewrite encryptKey_seal. eexists _, _. split; [reflexivity|].
  rewrite decryptKey_seal by apply randomBytes_length.
  by rewrite utf8_roundtrip.
Qed.

Lemma decryptKey_encryptKey_roundtrip_witness :
  isWellFormed (js "sk-proj-4f") = true /\
  exists t g',
    encryptKey (js "sk-proj-4f") (js "ks_00ff") counting_rng = (Ok t, g')
    /\ decryptKey t (js "ks_00ff") = Ok (js "sk-proj-4f").
Proof.
  split; [reflexivity|].
  apply (decryptKey_encryptKey_roundtrip (js "sk-proj-4f") (js "ks_00ff") counting_rng).
  reflexivity.
Defined.

(** C2 as stated fails: the plaintext made of the single unpaired surrogate
    U+D800 is encrypted as the bytes EF BF BD of U+FFFD, so decryption under
    the same secret returns U+FFFD, whatever the primitives, the secret and
    the random tape are. *)
Lemma decryptKey_encryptKey_lone_surrogate :
  [0xD800] <> [0xFFFD] /\
  forall (C : NodeCrypto) (S : jsstring) (g : RNG),
  exists t g', encryptKey [0xD800] S g = (Ok t, g') /\ decryptKey t S = Ok [0xFFFD].
Proof.
  split; [discriminate|]. intros C S g.
  rewrite encryptKey_seal. eexists _, _. split; [reflexivity|].
  by rewrite decryptKey_seal by apply randomBytes_length.
Qed.

(** The secret enters [decryptKey] through its UTF-8 encoding only. *)
Lemma decryptKey_secret_utf8 `{NodeCrypto} (t : jsontext) (S1 S2 : jsstring) :
  utf8_encode S1 = utf8_encode S2 -> decryptKey t S1 = decryptKey t S2.
Proof.
  intros E. unfold decryptKey, pbkdf2Sync. by rewrite E.
Qed.

Lemma tampered_tag_not_verified `{NodeCrypto}
    (P S : jsstring) (ivBuf saltBuf : Buffer) (j i : nat) :
  (j < 16)%nat ->
  envelope_tag_verifies (tamper_authTag j i (seal P S ivBuf saltBuf)) S = false.
Proof.
  intros Hj. unfold envelope_tag_verifies, tamper_authTag, seal.
  cbn [encrypted salt iv authTag flip_hex].
  rewrite !Buffer_from_hex_toString, flip_at_length, fit_length.
  rewrite take_ge by (rewrite fit_length; lia).
  apply bool_decide_eq_false_2, flip_at_changes. by rewrite fit_length.
Qed.

Lemma tampered_tag_rejected `{NodeCrypto}
    (P S : jsstring) (ivBuf saltBuf : Buffer) (j i : nat) :
  List.length ivBuf = 16%nat -> (j < 16)%nat ->
  decryptKey (EnvelopeJson (tamper_authTag j i (seal P S ivBuf saltBuf))) S
  = Throw ERR_CRYPTO_AUTH_FAILED.
Proof.
  intros Hiv Hj. pose proof (tampered_tag_not_verified P S ivBuf saltBuf j i Hj) as Hv.
  revert Hv. unfold tamper_authTag, seal.
  cbn [encrypted salt iv authTag flip_hex]. intros Hv.
  rewrite decryptKey_fields. cbv zeta. rewrite Hv.
  rewrite !Buffer_from_hex_toString.
  rewrite Hiv, flip_at_length, fit_length, toString_hex_even.
  done.
Qed.

(** The tag that is computed for a sealed envelope. *)
Lemma computed_tag_seal `{NodeCrypto}
    (P S S' : jsstring) (ivBuf saltBuf : Buffer) :
  computed_tag (seal P S ivBuf saltBuf) S'
  = fit 16 (gcm_mac (pbkdf2Sync S' saltBuf 100000 32) ivBuf
              (xor_stream (gcm_keystream (pbkdf2Sync S saltBuf 100000 32) ivBuf) 0
                 (utf8_encode P))).
Proof.
  unfold computed_tag, derived_key, seal.
  cbn [salt iv encrypted default from_option Datatypes.id].
  by rewrite !Buffer_from_hex_toString.
Qed.

(** A sealed envelope under another secret: the tag check decides. *)
Lemma decryptKey_seal_other `{NodeCrypto}
    (P S S' : jsstring) (ivBuf saltBuf : Buffer) :
  List.length ivBuf = 16%nat ->
  let e := seal P S ivBuf saltBuf in
  decryptKey (EnvelopeJson e) S'
  = if bool_decide (computed_tag e S = computed_tag e S')
    then Ok (utf8_decode
               (xor_stream (gcm_keystream (pbkdf2Sync S' saltBuf 100000 32) ivBuf) 0
                  (xor_stream (gcm_keystream (pbkdf2Sync S saltBuf 100000 32) ivBuf) 0
                     (utf8_encode P))))
    else Throw ERR_CRYPTO_AUTH_FAILED.
Proof.
  intros Hiv e. subst e. rewrite !computed_tag_seal.
  pose proof (seal_tag_verifies P S S' ivBuf saltBuf) as Hv. cbv zeta in Hv.
  revert Hv. unfold seal. intros Hv. rewrite decryptKey_fields. cbv zeta.
  rewrite Hv. rewrite !Buffer_from_hex_toString, Hiv, fit_length, toString_hex_even.
  done.
Qed.

(** A sealed envelope with one bit of its ciphertext inverted, under the
    secret that sealed it. *)
Lemma tampered_text_rejected `{NodeCrypto}
    (P S : jsstring) (ivBuf saltBuf : Buffer) (j i : nat) :
  List.length ivBuf = 16%nat ->
  (j < List.length (utf8_encode P))%nat ->
  tag_detects_bit_flips (derived_key (seal P S ivBuf saltBuf) S) ->
  envelope_tag_verifies (tamper_ciphertext j i (seal P S ivBuf saltBuf)) S = false
  /\ decryptKey (EnvelopeJson (tamper_ciphertext j i (seal P S ivBuf saltBuf))) S
     = Throw ERR_CRYPTO_AUTH_FAILED.
Proof.
  intros Hiv Hj Hlaw.
  assert (Hv : envelope_tag_verifies (tamper_ciphertext j i (seal P S ivBuf saltBuf)) S
               = false).
  { revert Hlaw. unfold envelope_tag_verifies, tamper_ciphertext, derived_key, seal.
    cbn [encrypted salt iv authTag flip_hex default from_option Datatypes.id].
    rewrite !Buffer_from_hex_toString. intros Hlaw.
    rewrite fit_length, take_ge by (rewrite fit_length; lia).
    apply bool_decide_eq_false_2. intros E. symmetry in E. revert E.
    apply Hlaw. by rewrite xor_stream_length. }
  split; [exact Hv|].
  revert Hv. unfold tamper_ciphertext, seal.
  cbn [encrypted salt iv authTag flip_hex]. intros Hv.
  rewrite decryptKey_fields. cbv zeta. rewrite Hv.
  by rewrite !Buffer_from_hex_toString, Hiv, fit_length, toString_hex_even.
Qed.

(** The sample primitives have the property: their tag holds the sum of
    the bytes of the ciphertext, which changes with every bit. *)
Lemma sum_bytes_cons (b : byte) (l : Buffer) :
  N_of_ascii (sum_bytes (b :: l))
  = (N_of_ascii b + N_of_ascii (sum_bytes l)) mod 256.
Proof.
  cbn [sum_bytes fold_right]. apply N_ascii_embedding, N.mod_upper_bound. lia.
Qed.

Lemma N_of_ascii_eq (x y : byte) : N_of_ascii x = N_of_ascii y -> x = y.
Proof. intros E. by rewrite <- (ascii_N_embedding x), E, ascii_N_embedding. Qed.

Lemma sum_bytes_alter (f : byte -> byte) (j : nat) (l : Buffer) :
  (forall b, f b <> b) -> (j < List.length l)%nat ->
  sum_bytes (alter f j l) <> sum_bytes l.
Proof.
  intros Hf. revert j. induction l as [|b l IH]; intros j Hj; cbn in Hj; [lia|].
  assert (Hbound : forall c, N_of_ascii c < 256) by (intros c; apply N_ascii_bounded).
  destruct j as [|j]; cbn [alter list_alter]; intros E;
    apply (f_equal N_of_ascii) in E; rewrite !sum_bytes_cons in E.
  - apply (Hf b), N_of_ascii_eq.
    pose proof (Hbound (f b)). pose proof (Hbound b).
    pose proof (Hbound (sum_bytes l)).
    apply N2Z.inj. apply (f_equal Z.of_N) in E. rewrite !N2Z.inj_mod, !N2Z.inj_add in E.
    revert E. change (Z.of_N 256) with 256%Z. intros E.
    Z.div_mod_to_equations. lia.
  - apply (IH j); [lia|]. apply N_of_ascii_eq.
    pose proof (Hbound (sum_bytes (alter f j l))). pose proof (Hbound b).
    pose proof (Hbound (sum_bytes l)).
    apply N2Z.inj. apply (f_equal Z.of_N) in E. rewrite !N2Z.inj_mod, !N2Z.inj_add in E.
    revert E. change (Z.of_N 256) with 256%Z. intros E.
    Z.div_mod_to_equations. lia.
Qed.

Lemma demo_tag_detects_bit_flips (key : Buffer) :
  @tag_detects_bit_flips demo_crypto key.
Proof.
  intros ivBuf text j i Hj E. cbn in E.
  apply (f_equal (fun l => l !! 2%nat)) in E. cbn in E.
  injection E as E. revert E. apply sum_bytes_alter; [|done].
  intros b. apply flip_bit_changes.
Qed.

(** C3, amended.  [decryptKey] fails closed: on every envelope whose authTag
    does not verify against its ciphertext under the key derived from the
    supplied secret it throws, and returns no plaintext.  This is the case
    of every envelope produced by [encryptKey] in which one bit of the
    authTag has been inverted, decrypted under the secret that made it, and
    of every such envelope in which one bit of the ciphertext has been
    inverted, GCM's tag changing with every bit of the ciphertext.  An
    envelope produced by [encryptKey] under S and decrypted under another
    secret S' is rejected exactly when the tag computed under the key
    derived from S' differs from the tag of the envelope; a secret with
    the same UTF-8 encoding as S derives the same key and the same tag,
    and with the same tag the decryption returns a text. *)
Theorem decryptKey_fails_closed `{NodeCrypto} :
  (forall (t : jsontext) (e : Envelope) (secret : jsstring),
     JSON_parse t = Ok e -> envelope_tag_verifies e secret = false ->
     exists err, decryptKey t secret = Throw err)
  /\ (forall (P S : jsstring) (g g' : RNG) (e : Envelope) (j i : nat),
        encryptKey P S g = (Ok (EnvelopeJson e), g') -> (j < 16)%nat ->
        envelope_tag_verifies (tamper_authTag j i e) S = false
        /\ decryptKey (EnvelopeJson (tamper_authTag j i e)) S
           = Throw ERR_CRYPTO_AUTH_FAILED)
  /\ (forall (P S : jsstring) (g g' : RNG) (e : Envelope) (j i : nat),
        encryptKey P S g = (Ok (EnvelopeJson e), g') ->
        (j < List.length (utf8_encode P))%nat ->
        tag_detects_bit_flips (derived_key e S) ->
        envelope_tag_verifies (tamper_ciphertext j i e) S = false
        /\ decryptKey (EnvelopeJson (tamper_ciphertext j i e)) S
           = Throw ERR_CRYPTO_AUTH_FAILED)
  /\ (forall (P S S' : jsstring) (g g' : RNG) (e : Envelope),
        encryptKey P S g = (Ok (EnvelopeJson e), g') ->
        (decryptKey (EnvelopeJson e) S' = Throw ERR_CRYPTO_AUTH_FAILED
         <-> computed_tag e S' <> computed_tag e S)
        /\ (computed_tag e S' = computed_tag e S ->
              exists P', decryptKey (EnvelopeJson e) S' = Ok P')
        /\ (utf8_encode S' = utf8_encode S ->
              derived_key e S' = derived_key e S
              /\ computed_tag e S' = computed_tag e S)).
Proof.
  split; [apply decryptKey_not_verified|].
  split; [|split].
  - intros P S g g' e j i He Hj. rewrite encryptKey_seal in He.
    pose proof (randomBytes_length 16 g) as Hiv. revert He Hiv.
    generalize (randomBytes 16 g).1 as ivBuf,
               (randomBytes 32 (randomBytes 16 g).2).1 as saltBuf.
    intros ivBuf saltBuf [= <- _] Hiv. split.
    + by apply tampered_tag_not_verified.
    + by apply tampered_tag_rejected.
  - intros P S g g' e j i He. rewrite encryptKey_seal in He.
    pose proof (randomBytes_length 16 g) as Hiv. revert He Hiv.
    generalize (randomBytes 16 g).1 as ivBuf,
               (randomBytes 32 (randomBytes 16 g).2).1 as saltBuf.
    intros ivBuf saltBuf [= <- _] Hiv Hj Hlaw. by apply tampered_text_rejected.
  - intros P S S' g g' e He. rewrite encryptKey_seal in He.
    pose proof (randomBytes_length 16 g) as Hiv. revert He Hiv.
    generalize (randomBytes 16 g).1 as ivBuf,
               (randomBytes 32 (randomBytes 16 g).2).1 as saltBuf.
    intros ivBuf saltBuf [= <- _] Hiv.
    pose proof (decryptKey_seal_other P S S' ivBuf saltBuf Hiv) as Hd.
    cbv zeta in Hd. rewrite Hd. split; [|split].
    + case_bool_decide as E; split; done.
    + intros E. rewrite bool_decide_eq_true_2 by done. by eexists.
    + intros E. unfold computed_tag, derived_key, pbkdf2Sync. by rewrite E.
Qed.

Lemma decryptKey_fails_closed_witness :
  (exists err,
     decryptKey
       (EnvelopeJson {| encrypted := Some (js "1818"); salt := Some (js "00");
                        iv := Some (js "01"); authTag := Some (js "00000000") |})
       (js "ks") = Throw err)
  /\ decryptKey
       (EnvelopeJson
          (tamper_authTag 3 5 (seal (js "sk") (js "ks")
             (randomBytes 16 counting_rng).1
             (randomBytes 32 (randomBytes 16 counting_rng).2).1)))
       (js "ks")
     = Throw ERR_CRYPTO_AUTH_FAILED
  /\ decryptKey
       (EnvelopeJson
          (tamper_ciphertext 1 0 (seal (js "sk") (js "ks")
             (randomBytes 16 counting_rng).1
             (randomBytes 32 (randomBytes 16 counting_rng).2).1)))
       (js "ks")
     = Throw ERR_CRYPTO_AUTH_FAILED.
Proof.
  split; [|split].
  - eapply (proj1 decryptKey_fails_closed); reflexivity.
  - refine (proj2 (proj1 (proj2 decryptKey_fails_closed) (js "sk") (js "ks")
                     counting_rng _ _ 3%nat 5%nat (encryptKey_seal _ _ _) _)).
    lia.
  - refine (proj2 (proj1 (proj2 (proj2 decryptKey_fails_closed)) (js "sk") (js "ks")
                     counting_rng _ _ 1%nat 0%nat (encryptKey_seal _ _ _) _ _)).
    + by vm_compute.
    + apply demo_tag_detects_bit_flips.
Defined.

(** C3 as stated fails on its wrong-secret clause: the secrets U+FFFD and
    U+D800 differ, but both are handed to PBKDF2 as the bytes EF BF BD, so
    an envelope sealed under the first is decrypted by the second, whatever
    the primitives and the random tape are. *)
Lemma decryptKey_accepts_other_secret :
  [0xFFFD] <> [0xD800] /\
  forall (C : NodeCrypto) (g : RNG),
  exists t g',
    encryptKey (js "sk-proj-4f") [0xFFFD] g = (Ok t, g')
    /\ decryptKey t [0xD800] = Ok (js "sk-proj-4f").
Proof.
  split; [discriminate|]. intros C g.
  rewrite encryptKey_seal. eexists _, _. split; [reflexivity|].
  rewrite (decryptKey_secret_utf8 _ [0xD800] [0xFFFD]) by reflexivity.
  by rewrite decryptKey_seal by apply randomBytes_length.
Qed.

(** ** Objects as ordered tables *)

Lemma own_app_l (o o' : list (jsstring * App)) (k : jsstring) (a : App) :
  own o k = Some a -> own (o ++ o') k = Some a.
Proof.
  induction o as [|[k' a'] o IH]; cbn; [done|].
  case_bool_decide; [done|]. apply IH.
Qed.

Lemma own_app_r (o o' : list (jsstring * App)) (k : jsstring) :
  own o k = None -> own (o ++ o') k = own o' k.
Proof.
  induction o as [|[k' a'] o IH]; cbn; [done|].
  case_bool_decide; [done|]. apply IH.
Qed.

Lemma own_replace_eq (o : list (jsstring * App)) (k : jsstring) (a a0 : App) :
  own o k = Some a0 -> own (replace_own o k a) k = Some a.
Proof.
  induction o as [|[k' a'] o IH]; cbn; [done|].
  case_bool_decide as E; cbn; rewrite ?bool_decide_eq_true_2 by done; [done|].
  rewrite bool_decide_eq_false_2 by done. apply IH.
Qed.

Lemma own_replace_ne (o : list (jsstring * App)) (k k' : jsstring) (a : App) :
  k <> k' -> own (replace_own o k a) k' = own o k'.
Proof.
  intros Hne. induction o as [|[k0 a0] o IH]; cbn; [done|].
  case_bool_decide as E; cbn.
  - subst k0. by rewrite !bool_decide_eq_false_2 by done.
  - case_bool_decide; [done|]. apply IH.
Qed.

Lemma own_assign_eq (o : list (jsstring * App)) (k : jsstring) (a : App) :
  own (assign o k a) k = Some a.
Proof.
  unfold assign. destruct (own o k) as [a0|] eqn:E.
  - by apply own_replace_eq with a0.
  - rewrite own_app_r by done. cbn. by rewrite bool_decide_eq_true_2.
Qed.

Lemma own_assign_ne (o : list (jsstring * App)) (k k' : jsstring) (a : App) :
  k <> k' -> own (assign o k a) k' = own o k'.
Proof.
  intros Hne. unfold assign. destruct (own o k) as [a0|] eqn:E.
  - by apply own_replace_ne.
  - destruct (own o k') as [a'|] eqn:E'.
    + by apply own_app_l.
    + rewrite own_app_r by done. cbn. by rewrite bool_decide_eq_false_2.
Qed.



Lemma own_None_notin (o : list (jsstring * App)) (k : jsstring) :
  own o k = None <-> k ∉ map fst o.
Proof.
  induction o as [|[k' a'] o IH]; cbn.
  - split; [intros _; apply not_elem_of_nil|done].
  - rewrite not_elem_of_cons. case_bool_decide as E.
    + split; [done|]. intros [? _]. by subst.
    + rewrite IH. split; [intros ?; split; [by intros ->|done]|by intros [_ ?]].
Qed.



Lemma first_named_split (name_ : jsstring) (o : list (jsstring * App))
    (k : jsstring) (a : App) :
  first_named name_ o = Some (k, a) ->
  exists pre post,
    o = pre ++ (k, a) :: post /\ name a = name_
    /\ Forall (fun p => name p.2 <> name_) pre.
Proof.
  unfold first_named. induction o as [|[k' a'] o IH]; cbn; [done|].
  case_bool_decide as E.
  - intros [= -> ->]. by exists [], o.
  - intros Hf. destruct (IH Hf) as (pre & post & -> & Hn & Hpre).
    exists ((k', a') :: pre), post. repeat split; [done|]. by constructor.
Qed.

Lemma first_named_None (name_ : jsstring) (o : list (jsstring * App)) :
  first_named name_ o = None -> Forall (fun p => name p.2 <> name_) o.
Proof.
  unfold first_named. induction o as [|[k' a'] o IH]; cbn; [done|].
  case_bool_decide as E; [done|]. intros Hf. constructor; [done|]. by apply IH.
Qed.


(** ** The apps registry of the server *)

Lemma loadApps_frame (now : Z) (w : World) :
  let '(ref, config, w1) := loadApps now w in
  apps_file w1 = apps_file w /\ entropy w1 = entropy w /\ env w1 = env w
  /\ users w1 = users w
  /\ (ref = TheCache -> appsCache w1 = Some config).
Proof.
  unfold loadApps.
  destruct (appsCache w) as [c|] eqn:Hc;
    [destruct (now - cacheTimestamp w <? CACHE_TTL)%Z|];
    try destruct (read_config (apps_file w)); by cbn.
Qed.

Lemma saveApps_writable (now : Z) (config : AppConfig) (w : World) :
  writable (apps_file w) = true ->
  saveApps now config w
  = set_cache config now
      (set_apps_file {| content := ConfigText config; writable := true |} w).
Proof. intros Hw. unfold saveApps, writeFileSync. by rewrite Hw. Qed.

Lemma saveApps_unwritable (now : Z) (config : AppConfig) (w : World) :
  writable (apps_file w) = false -> saveApps now config w = w.
Proof. intros Hw. unfold saveApps, writeFileSync. by rewrite Hw. Qed.

Lemma mutate_frame (r : ConfigRef) (c : AppConfig) (w : World) :
  apps_file (mutate r c w) = apps_file w /\ entropy (mutate r c w) = entropy w
  /\ env (mutate r c w) = env w.
Proof. by destruct r. Qed.


(** ** The App authentication gate *)

(** [validateAppKey] on a request whose key is filed in the loaded
    configuration, as one expression. *)
Lemma validateAppKey_found (now : Z) (w : World) (req : Request)
    (key : jsstring) (ref : ConfigRef) (config : AppConfig) (w1 : World) (app : App) :
  or_else (headers_x_app_key req) (headers_x_api_key req) = Some key ->
  key <> [] ->
  loadApps now w = (ref, config, w1) ->
  own (apps config) key = Some app ->
  validateAppKey now w req
  = if expired now app
    then (Respond (json 401 (error_body "App API key expired")), w1)
    else if negb (ip_allowed app req)
    then (Respond (json 403 (error_body "Access denied from this IP")), w1)
    else if negb (domain_allowed app req)
    then (Respond (json 403 (error_body "Access denied from this domain")), w1)
    else
      let config' := {| apps := assign (apps config) key (touch now app) |} in
      (Next (set_appData (AppRecord (touch now app)) req),
       saveApps now config' (mutate ref config' w1)).
Proof.
  intros Hk Hne Hl Ho. unfold validateAppKey. rewrite Hk.
  destruct key as [|c key]; [done|]. rewrite Hl. unfold apps_get. rewrite Ho.
  destruct (expired now app); [done|].
  destruct (ip_allowed app req); [|done].
  by destruct (domain_allowed app req).
Qed.

Lemma touch_frame (now : Z) (app : App) :
  permissions (touch now app) = permissions app
  /\ apiKey (touch now app) = apiKey app
  /\ name (touch now app) = name app
  /\ accessCount (touch now app) = round_to_double (accessCount app + 1)
  /\ lastAccess (touch now app) = Some now.
Proof. done. Qed.

(** The sum is exact up to 2^53. *)
Lemma round_to_double_exact (z : Z) :
  (- 2 ^ 53 < z <= 2 ^ 53)%Z -> round_to_double z = z.
Proof.
  intros Hz. destruct (decide (z = 2 ^ 53)%Z) as [->|Hne]; [by vm_compute|].
  unfold round_to_double.
  assert (Hl : (Z.log2 (Z.abs z) < 53)%Z).
  { destruct (decide (Z.abs z = 0)%Z) as [->|H0]; [done|].
    apply Z.log2_lt_pow2; lia. }
  destruct (Z.leb_spec (Z.log2 (Z.abs z) - 52) 0); [done|lia].
Qed.

Lemma touch_accessCount (now : Z) (app : App) :
  ((- 2 ^ 53 <= accessCount app < 2 ^ 53)%Z ->
     accessCount (touch now app) = (accessCount app + 1)%Z)
  /\ (accessCount app = 2 ^ 53 ->
        accessCount (touch now app) = accessCount app)%Z.
Proof.
  split.
  - intros Hb. cbn [touch accessCount]. apply round_to_double_exact. lia.
  - intros E. cbn [touch accessCount]. rewrite E. by vm_compute.
Qed.

Section GateTheorems.
Context `{NodeCrypto}.

Lemma appsRouter_get_keys_denied (s : Service) (now : Z) (w w' : World)
    (req req' : Request) (app : App) :
  validateAppKey now w req = (Next req', w') ->
  appData req' = Some (AppRecord app) ->
  permission (permissions app) s = false ->
  appsRouter_get_keys s now w req
  = (json 403 (error_body
       ("App does not have permission to access " ++ service_name s ++ " keys")),
     w').
Proof.
  intros Hv Ha Hp. unfold appsRouter_get_keys, appsRouter_route.
  rewrite Hv. unfold checkAppPermission. by rewrite Ha, Hp.
Qed.

End GateTheorems.

(** C7, amended.  For every App request with a valid, unexpired key that
    also passes the IP and the domain check, [validateAppKey] increments
    the record's accessCount, sets lastAccess and saves the configuration,
    with a synchronous write, before the service permission is checked: a
    request that [checkAppPermission] then rejects has been counted, and
    the count is in the apps file when the file is writable.  The count is
    a double: the increment adds one while the count is below 2^53 and
    leaves a count of 2^53 as it is.  A request that the IP or the domain
    check rejects is answered 403 without any change to the record or to
    the apps file. *)
Theorem validateAppKey_access_stats `{NodeCrypto} (now : Z) (w : World)
    (req : Request) (key : jsstring) (ref : ConfigRef) (config : AppConfig)
    (w1 : World) (app : App) :
  or_else (headers_x_app_key req) (headers_x_api_key req) = Some key ->
  key <> [] ->
  loadApps now w = (ref, config, w1) ->
  own (apps config) key = Some app ->
  expired now app = false ->
  let config' := {| apps := assign (apps config) key (touch now app) |} in
  let w' := saveApps now config' (mutate ref config' w1) in
  (ip_allowed app req = true -> domain_allowed app req = true ->
     validateAppKey now w req
       = (Next (set_appData (AppRecord (touch now app)) req), w')
     /\ ((- 2 ^ 53 <= accessCount app < 2 ^ 53)%Z ->
           accessCount (touch now app) = (accessCount app + 1)%Z)
     /\ (accessCount app = 2 ^ 53 ->
           accessCount (touch now app) = accessCount app)%Z
     /\ lastAccess (touch now app) = Some now
     /\ (writable (apps_file w) = true ->
           Lookup (apps_file w') key = Some (touch now app))
     /\ (forall s, permission (permissions app) s = false ->
           exists msg,
             appsRouter_get_keys s now w req = (json 403 (error_body msg), w')))
  /\ (ip_allowed app req = false \/ domain_allowed app req = false ->
        exists msg,
          validateAppKey now w req = (Respond (json 403 (error_body msg)), w1)
          /\ apps_file w1 = apps_file w
          /\ own (apps config) key = Some app).
Proof.
  intros Hk Hne Hl Ho He config' w'.
  pose proof (validateAppKey_found now w req key ref config w1 app Hk Hne Hl Ho) as Hv.
  rewrite He in Hv. pose proof (loadApps_frame now w) as Hf. rewrite Hl in Hf.
  destruct Hf as (Hf & _). split.
  - intros Hip Hdom. rewrite Hip, Hdom in Hv. cbn [negb] in Hv.
    split; [done|]. split; [apply touch_accessCount|].
    split; [apply touch_accessCount|]. split; [done|]. split.
    + intros Hw. subst w'. rewrite saveApps_writable.
      * unfold Lookup. cbn. apply own_assign_eq.
      * destruct (mutate_frame ref config' w1) as (-> & _). by rewrite Hf.
    + intros s Hs. eexists.
      by apply (appsRouter_get_keys_denied s now w w' req
                  (set_appData (AppRecord (touch now app)) req) (touch now app)).
  - intros Hrej. destruct (ip_allowed app req); cbn [negb] in Hv.
    + destruct Hrej as [|Hd]; [done|]. rewrite Hd in Hv.
      eexists. split; [exact Hv|done].
    + eexists. split; [exact Hv|done].
Qed.

Lemma validateAppKey_access_stats_witness :
  let bot := sample_app "app_1" "Bot" true false None None in
  let w := sample_world sample_env (sample_file [(js "app_1", bot)] true) in
  let req := request_of None (Some (js "app_1")) None (Some (js "10.0.0.9")) in
  exists w',
    validateAppKey 1000 w req = (Next (set_appData (AppRecord (touch 1000 bot)) req), w')
    /\ accessCount (touch 1000 bot) = 1%Z
    /\ Lookup (apps_file w') (js "app_1") = Some (touch 1000 bot)
    /\ exists msg,
         appsRouter_get_keys svc_anthropic 1000 w req = (json 403 (error_body msg), w').
Proof.
  intros bot w req.
  destruct (validateAppKey_access_stats 1000 w req (js "app_1") TheCache
              {| apps := [(js "app_1", bot)] |}
              (set_cache {| apps := [(js "app_1", bot)] |} 1000 w) bot
              eq_refl ltac:(discriminate) eq_refl eq_refl eq_refl) as [Hpass _].
  destruct (Hpass eq_refl eq_refl) as (Hv & Hc & _ & _ & Hl & Hd).
  eexists. split; [exact Hv|]. split; [exact (Hc ltac:(by vm_compute))|].
  split; [exact (Hl eq_refl)|].
  exact (Hd svc_anthropic eq_refl).
Defined.

(** C7 as stated fails: a request with a valid, unexpired key that comes
    from an address outside the App's allowedIPs is answered 403 and is not
    counted; the record in the cache and in the apps file still has
    accessCount 0 and no lastAccess. *)
Lemma validateAppKey_rejected_not_counted :
  let bot := sample_app "app_1" "Bot" true true (Some [js "10.0.0.5"]) None in
  let w := sample_world sample_env (sample_file [(js "app_1", bot)] true) in
  let req := request_of None (Some (js "app_1")) None (Some (js "10.0.0.9")) in
  let r := validateAppKey 1000 w req in
  expired 1000 bot = false
  /\ r.1 = Respond (json 403 (error_body "Access denied from this IP"))
  /\ Lookup (apps_file r.2) (js "app_1") = Some bot
  /\ appsCache r.2 = Some {| apps := [(js "app_1", bot)] |}
  /\ accessCount bot = 0%Z /\ lastAccess bot = None.
Proof. by vm_compute. Qed.
(** ** Loading the apps: cache and file *)

Lemma loadApps_cached (now : Z) (w : World) (c : AppConfig) :
  appsCache w = Some c -> (now - cacheTimestamp w < CACHE_TTL)%Z ->
  loadApps now w = (TheCache, c, w).
Proof.
  intros Hc Ht. unfold loadApps. rewrite Hc.
  by rewrite (proj2 (Z.ltb_lt _ _) Ht).
Qed.

Lemma loadApps_reads (now : Z) (w : World) :
  appsCache w = None \/ (CACHE_TTL <= now - cacheTimestamp w)%Z ->
  loadApps now w
  = match read_config (apps_file w) with
    | Ok c => (TheCache, c, set_cache c now w)
    | Throw _ => (Fresh, {| apps := [] |}, w)
    end.
Proof.
  intros Hc. unfold loadApps. destruct (appsCache w) as [c|]; [|done].
  destruct Hc as [|Ht]; [done|]. by rewrite (proj2 (Z.ltb_ge _ _) Ht).
Qed.


(** A key that the loaded configuration does not file, and that is no
    property of [Object.prototype], is answered 401. *)
Lemma validateAppKey_not_found (now : Z) (w : World) (req : Request)
    (key : jsstring) (ref : ConfigRef) (config : AppConfig) (w1 : World) :
  or_else (headers_x_app_key req) (headers_x_api_key req) = Some key ->
  key <> [] ->
  loadApps now w = (ref, config, w1) ->
  own (apps config) key = None -> inherited key = false ->
  validateAppKey now w req
  = (Respond (json 401 (error_body "Invalid app API key")), w1).
Proof.
  intros Hk Hne Hl Ho Hi. unfold validateAppKey. rewrite Hk.
  destruct key as [|u key]; [done|]. rewrite Hl. unfold apps_get.
  by rewrite Ho, Hi.
Qed.

(** ** C4: revoking an app by name *)



(** A server that has loaded the apps less than a minute ago still finds a
    record that has been revoked since. *)
Lemma revoked_app_found_in_cache :
  let bot := sample_app "app_1" "Bot" true false None None in
  let f := sample_file [(js "app_1", bot)] true in
  let w := set_cache {| apps := [(js "app_1", bot)] |} 0 (sample_world sample_env f) in
  let f' := (revokeApp (js "Bot") f).2 in
  Lookup f' (js "app_1") = None
  /\ server_Lookup 1000 (set_apps_file f' w) (js "app_1") = Some bot
  /\ server_Lookup 60000 (set_apps_file f' w) (js "app_1") = None.
Proof. by vm_compute. Qed.


(** ** C6: the domain check *)

Lemma startsWith_spec (s p : jsstring) :
  startsWith s p = true <-> exists post, s = p ++ post.
Proof.
  revert s. induction p as [|c p IH]; intros s.
  - destruct s; cbn; split; eauto.
  - destruct s as [|d s]; cbn.
    + split; [done|]. by intros [post ?].
    + rewrite andb_true_iff, N.eqb_eq, IH. split.
      * intros [-> [post ->]]. by exists post.
      * intros [post [= -> ->]]. eauto.
Qed.

Lemma includes_spec (s d : jsstring) :
  includes s d = true <-> exists pre post, s = pre ++ d ++ post.
Proof.
  induction s as [|c s IH].
  - cbn [includes]. rewrite orb_false_r, startsWith_spec. split.
    + intros [post ->]. by exists [], post.
    + intros (pre & post & E). symmetry in E.
      apply app_eq_nil in E as [-> E]. apply app_eq_nil in E as [-> ->]. by exists [].
  - cbn [includes]. rewrite orb_true_iff, startsWith_spec, IH. split.
    + intros [[post ->]|(pre & post & ->)].
      * by exists [], post.
      * by exists (c :: pre), post.
    + intros ([|c' pre] & post & E).
      * left. by exists post.
      * right. injection E as -> ->. by exists pre, post.
Qed.

Lemma existsb_includes (o : jsstring) (domains : list jsstring) :
  existsb (fun domain => includes o domain) domains = true
  <-> contains_listed o domains.
Proof.
  unfold contains_listed. rewrite existsb_exists. split.
  - intros (d & Hin & (pre & post & E)%includes_spec).
    exists d, pre, post. by rewrite list_elem_of_In.
  - intros (d & pre & post & Hin & E). exists d.
    rewrite <- list_elem_of_In. split; [done|]. apply includes_spec. eauto.
Qed.

(** C6, amended.  For every App request whose key is valid and unexpired
    and whose address passes the IP check, the App having a non-empty
    allowedDomains list: if the request carries an origin (the Origin
    header, or the Referer header when Origin is absent or empty) it passes
    the domain check exactly when the origin contains some listed entry as
    a substring, and is answered 403 otherwise; if it carries neither
    header it passes, whatever the deployment mode (NODE_ENV) is. *)
Theorem validateAppKey_domain_check (now : Z) (w : World) (req : Request)
    (key : jsstring) (ref : ConfigRef) (config : AppConfig) (w1 : World)
    (app : App) (d0 : jsstring) (ds : list jsstring) :
  or_else (headers_x_app_key req) (headers_x_api_key req) = Some key ->
  key <> [] ->
  loadApps now w = (ref, config, w1) ->
  own (apps config) key = Some app ->
  expired now app = false ->
  ip_allowed app req = true ->
  allowedDomains app = Some (d0 :: ds) ->
  (forall o, request_origin req = Some o -> o <> [] ->
     (contains_listed o (d0 :: ds) ->
        exists w', validateAppKey now w req
                   = (Next (set_appData (AppRecord (touch now app)) req), w'))
     /\ (~ contains_listed o (d0 :: ds) ->
           validateAppKey now w req
           = (Respond (json 403 (error_body "Access denied from this domain")), w1)))
  /\ (truthy (request_origin req) = false ->
        exists w', validateAppKey now w req
                   = (Next (set_appData (AppRecord (touch now app)) req), w')).
Proof.
  intros Hk Hne Hl Ho He Hip Hd.
  pose proof (validateAppKey_found now w req key ref config w1 app Hk Hne Hl Ho) as Hv.
  rewrite He, Hip in Hv. cbn [negb] in Hv. unfold domain_allowed in Hv.
  rewrite Hd in Hv. split.
  - intros o Hor Hoe. rewrite Hor in Hv. cbn [default] in Hv.
    assert (truthy (Some o) = true) as Ht by (by destruct o).
    rewrite Ht in Hv. pose proof (existsb_includes o (d0 :: ds)) as Hex.
    destruct (existsb _ (d0 :: ds)); cbn [negb] in Hv.
    + split; [eauto|]. intros Hn. exfalso. by apply Hn, Hex.
    + split; [|done]. intros Hc. apply Hex in Hc. done.
  - intros Ht. rewrite Ht in Hv. cbn [negb] in Hv. eauto.
Qed.

Lemma validateAppKey_domain_check_witness :
  let web := sample_app "app_1" "Web" true true None (Some [js "myapp.com"]) in
  let w := sample_world sample_env (sample_file [(js "app_1", web)] true) in
  let req := request_of None (Some (js "app_1")) (Some (js "https://myapp.com")) None in
  exists w', validateAppKey 1000 w req
             = (Next (set_appData (AppRecord (touch 1000 web)) req), w').
Proof.
  intros web w req.
  destruct (validateAppKey_domain_check 1000 w req (js "app_1") TheCache
              {| apps := [(js "app_1", web)] |}
              (set_cache {| apps := [(js "app_1", web)] |} 1000 w) web
              (js "myapp.com") []
              eq_refl ltac:(discriminate) eq_refl eq_refl eq_refl eq_refl eq_refl)
    as [Horigin _].
  destruct (Horigin (js "https://myapp.com") eq_refl ltac:(discriminate)) as [Hpass _].
  apply Hpass. exists (js "myapp.com"), (js "https://"), [].
  split; [apply list_elem_of_here|reflexivity].
Defined.

(** C6 as stated fails: in a production deployment, a request without
    Origin and Referer headers for an App with a non-empty allowedDomains
    list passes [validateAppKey]. *)
Lemma validateAppKey_no_origin_passes_in_production :
  let web := sample_app "app_1" "Web" true true None (Some [js "myapp.com"]) in
  let w := sample_world sample_env (sample_file [(js "app_1", web)] true) in
  let req := request_of None (Some (js "app_1")) None None in
  NODE_ENV (env w) = Some (js "production")
  /\ request_origin req = None
  /\ (validateAppKey 1000 w req).1
     = Next (set_appData (AppRecord (touch 1000 web)) req).
Proof. by vm_compute. Qed.

(** ** C9: the service permission *)

(** C9.  For every App whose permissions.anthropic is false, every request
    that [validateAppKey] authenticates as that App (so its key is valid
    and unexpired and its IP and domain restrictions are satisfied) is
    answered 403 on GET /keys/anthropic. *)
Theorem anthropic_denied_without_permission `{NodeCrypto} (now : Z) (w w' : World)
    (req req' : Request) (key : jsstring) (ref : ConfigRef) (config : AppConfig)
    (w1 : World) (app : App) :
  or_else (headers_x_app_key req) (headers_x_api_key req) = Some key ->
  loadApps now w = (ref, config, w1) ->
  own (apps config) key = Some app ->
  anthropic (permissions app) = false ->
  validateAppKey now w req = (Next req', w') ->
  appsRouter_get_keys svc_anthropic now w req
  = (json 403 (error_body "App does not have permission to access anthropic keys"), w').
Proof.
  intros Hk Hl Ho Hp Hv.
  assert (Hne : key <> []).
  { intros ->. unfold validateAppKey in Hv. by rewrite Hk in Hv. }
  pose proof (validateAppKey_found now w req key ref config w1 app Hk Hne Hl Ho) as Hf.
  rewrite Hv in Hf.
  destruct (expired now app); [done|].
  destruct (negb (ip_allowed app req)); [done|].
  destruct (negb (domain_allowed app req)); [done|].
  injection Hf as -> ->.
  by apply (appsRouter_get_keys_denied svc_anthropic now w _ req
              (set_appData (AppRecord (touch now app)) req) (touch now app)).
Qed.

Lemma anthropic_denied_without_permission_witness :
  let bot := sample_app "app_1" "Bot" true false None None in
  let w := sample_world sample_env (sample_file [(js "app_1", bot)] true) in
  let req := request_of None (Some (js "app_1")) None None in
  (appsRouter_get_keys svc_anthropic 1000 w req).1
  = json 403 (error_body "App does not have permission to access anthropic keys").
Proof.
  intros bot w req.
  rewrite (anthropic_denied_without_permission 1000 w
             (validateAppKey 1000 w req).2 req
             (set_appData (AppRecord (touch 1000 bot)) req) (js "app_1") TheCache
             {| apps := [(js "app_1", bot)] |}
             (set_cache {| apps := [(js "app_1", bot)] |} 1000 w) bot
             eq_refl eq_refl eq_refl eq_refl eq_refl).
  reflexivity.
Defined.

(** ** The User API-key gate *)

Lemma validateApiKey_Next (e : Env) (req req' : Request) :
  validateApiKey e req = Next req' ->
  exists k v x,
    headers_x_api_key req = Some k /\ k <> []
    /\ JSON_parse_keys (or_empty_object (VALID_API_KEYS e)) = Ok v
    /\ get v k = Ok x
    /\ truthy_val x = true
    /\ req' = set_apiKeyData {| payload_apiKey := k; userId := x |} req.
Proof.
  unfold validateApiKey. destruct (headers_x_api_key req) as [[|c k]|]; [done| |done].
  destruct (JSON_parse_keys _) as [v|]; [|done].
  destruct (get v _) as [x|] eqn:Hx; [|done].
  destruct (truthy_val _) eqn:Ht; cbn [negb]; [|done].
  intros [= <-]. by exists (c :: k), v, x.
Qed.

(** On keys that are no property of [Object.prototype] the gate admits,
    when the table is an object, exactly the keys filed with a non-empty
    value. *)
Lemma validateApiKey_own (e : Env) (req : Request) (k : jsstring)
    (o : gmap jsstring jsstring) :
  headers_x_api_key req = Some k -> k <> [] -> inherited k = false ->
  JSON_parse_keys (or_empty_object (VALID_API_KEYS e)) = Ok (Object o) ->
  validateApiKey e req
  = match o !! k with
    | Some (c :: v) =>
        Next (set_apiKeyData {| payload_apiKey := k; userId := Str (c :: v) |} req)
    | _ => Respond (json 401 (error_body "Invalid API key"))
    end.
Proof.
  intros Hk Hne Hi Ho. unfold validateApiKey. rewrite Hk.
  destruct k as [|c k]; [done|]. rewrite Ho. cbn [get]. unfold keys_get. rewrite Hi.
  by destruct (o !! (c :: k)) as [[|c' v]|].
Qed.

(** C10 is violated by the code at the key "constructor": with
    VALID_API_KEYS unset the table is the empty object, whose property
    [constructor] is inherited from [Object.prototype] and truthy, so
    [validateApiKey] calls [next()] and GET /api/keys/openai answers 200
    with the OpenAI key sealed under the secret "constructor". *)
Theorem validateApiKey_admits_inherited_property `{NodeCrypto} :
  let w := sample_world sample_env (sample_file [] true) in
  let req := request_of (Some (js "constructor")) None None None in
  VALID_API_KEYS (env w) = None
  /\ validateApiKey (env w) req
     = Next (set_apiKeyData {| payload_apiKey := js "constructor";
                               userId := Builtin (js "constructor") |} req)
  /\ exists t w',
       api_keys (keys_get_service svc_openai) 1000 w req
         = (json 200 (user_key svc_openai t 1000), w')
       /\ sealed_under t (Some (js "sk-live")) (js "constructor").
Proof.
  intros w req. split; [done|]. split; [done|].
  unfold api_keys.
  change (validateApiKey (env w) req)
    with (Next (set_apiKeyData {| payload_apiKey := js "constructor";
                                  userId := Builtin (js "constructor") |} req)).
  unfold keys_get_service.
  cbn [apiKeyData set_apiKeyData service_key env w sample_world sample_env
       sample_env_with OPENAI_API_KEY truthy js negb].
  rewrite encryptKey_seal. eexists _, _. split; [reflexivity|].
  eexists _, _, _. split; [reflexivity|].
  split; [apply randomBytes_length|]. split; [apply randomBytes_length|done].
Qed.

(** ** C1: the secret of a key release *)

Section ReleaseFacts.
Context `{NodeCrypto}.

Lemma encryptKey_sealed (key secret : jsstring) (g g' : RNG) (t : jsontext) :
  encryptKey key secret g = (Ok t, g') -> sealed_under t (Some key) secret.
Proof.
  rewrite encryptKey_seal. intros He.
  exists key, (randomBytes 16 g).1, (randomBytes 32 (randomBytes 16 g).2).1.
  split; [done|]. split; [apply randomBytes_length|].
  split; [apply randomBytes_length|]. congruence.
Qed.

Lemma encrypt_if_sealed (cond : bool) (key : option jsstring) (secret : jsstring)
    (g g' : RNG) (k : option jsontext) :
  encrypt_if cond key secret g = (Ok k, g') ->
  forall t, k = Some t -> sealed_under t key secret.
Proof.
  unfold encrypt_if. destruct (cond && truthy key) eqn:Hc.
  - apply andb_true_iff in Hc as [_ Ht]. destruct key as [[|c key]|]; try done.
    cbn [default]. destruct (encryptKey _ _ _) as [[t0|e] g0] eqn:He;
      cbn [bind]; [|done].
    intros [= <- <-] t [= <-]. by apply encryptKey_sealed in He.
  - by intros [= <- _] t.
Qed.

(** A sealed envelope opens under the secret that sealed it. *)
Lemma sealed_under_decrypt (t : jsontext) (key secret : jsstring) :
  sealed_under t (Some key) secret -> isWellFormed key = true ->
  decryptKey t secret = Ok key.
Proof.
  intros (k & ivBuf & saltBuf & [= <-] & Hiv & _ & ->) Hw.
  by rewrite decryptKey_seal, utf8_roundtrip.
Qed.

End ReleaseFacts.

(** C1, amended.  For every successful key-retrieval request the service
    key returned is encrypted by the Envelope Cipher: in the App flow under
    the apiKey of the App record the request was authenticated as; in the
    User flow under ENCRYPTION_SECRET when that variable is set and not
    empty, and under the caller's own API key otherwise. *)
Theorem key_release_secret `{NodeCrypto} :
  (forall s now w req r w',
     apps_get_service s now w req = (r, w') -> status r = 200 ->
     exists app t,
       appData req = Some (AppRecord app)
       /\ body r = app_key s t (name app) (environment app) now
       /\ sealed_under t (service_key (env w) s) (apiKey app))
  /\ (forall now w req r w',
        apps_get_all now w req = (r, w') -> status r = 200 ->
        exists app ks,
          appData req = Some (AppRecord app)
          /\ body r = app_keys ks (name app) (environment app) (permissions app) now
          /\ all_sealed_under ks (env w) (apiKey app))
  /\ (forall s now w req r w',
        keys_get_service s now w req = (r, w') -> status r = 200 ->
        exists d t,
          apiKeyData req = Some d
          /\ body r = user_key s t now
          /\ sealed_under t (service_key (env w) s) (encryptionSecret (env w) d))
  /\ (forall now w req r w',
        keys_get_all now w req = (r, w') -> status r = 200 ->
        exists d ks,
          apiKeyData req = Some d
          /\ body r = user_keys ks now
          /\ all_sealed_under ks (env w) (encryptionSecret (env w) d))
  /\ (forall e d,
        encryptionSecret e d
        = match ENCRYPTION_SECRET e with
          | Some (c :: secret) => c :: secret
          | _ => payload_apiKey d
          end)
  /\ (forall e req req',
        validateApiKey e req = Next req' ->
        exists d, apiKeyData req' = Some d
                  /\ headers_x_api_key req = Some (payload_apiKey d)).
Proof.
  split; [|split; [|split; [|split; [|split]]]].
  - intros s now w req r w'. unfold apps_get_service.
    destruct (appData req) as [[app|n]|]; [| |by intros [= <- _]].
    + destruct (service_key (env w) s) as [[|c key]|] eqn:Hk; cbn [truthy negb];
        [by intros [= <- _]| |by intros [= <- _]].
      cbn [default].
      destruct (encryptKey _ _ _) as [[t|e] g] eqn:He; [|by intros [= <- _]].
      intros [= <- _] _. exists app, t. repeat split. by apply encryptKey_sealed in He.
    + by destruct (negb _); intros [= <- _].
  - intros now w req r w'. unfold apps_get_all.
    destruct (appData req) as [[app|n]|]; [|by intros [= <- _]..].
    destruct (encrypt_if (openai _) _ _ _) as [[k1|e1] g1] eqn:E1; [|by intros [= <- _]].
    destruct (encrypt_if (anthropic _) _ _ _) as [[k2|e2] g2] eqn:E2; [|by intros [= <- _]].
    pose proof (encrypt_if_sealed _ _ _ _ _ _ E1) as S1.
    pose proof (encrypt_if_sealed _ _ _ _ _ _ E2) as S2.
    destruct k1 as [t1|], k2 as [t2|]; intros [= <- _] Hs; try done;
      eexists app, _; (split; [done|]); (split; [reflexivity|]); by split.
  - intros s now w req r w'. unfold keys_get_service.
    destruct (apiKeyData req) as [d|]; [|by intros [= <- _]].
    destruct (service_key (env w) s) as [[|c key]|] eqn:Hk; cbn [truthy negb];
      [by intros [= <- _]| |by intros [= <- _]].
    cbn [default].
    destruct (encryptKey _ _ _) as [[t|e] g] eqn:He; [|by intros [= <- _]].
    intros [= <- _] _. exists d, t. repeat split. by apply encryptKey_sealed in He.
  - intros now w req r w'. unfold keys_get_all.
    destruct (apiKeyData req) as [d|]; [|by intros [= <- _]].
    destruct (encrypt_if true (OPENAI_API_KEY _) _ _) as [[k1|e1] g1] eqn:E1;
      [|by intros [= <- _]].
    destruct (encrypt_if true (ANTHROPIC_API_KEY _) _ _) as [[k2|e2] g2] eqn:E2;
      [|by intros [= <- _]].
    pose proof (encrypt_if_sealed _ _ _ _ _ _ E1) as S1.
    pose proof (encrypt_if_sealed _ _ _ _ _ _ E2) as S2.
    destruct k1 as [t1|], k2 as [t2|]; intros [= <- _] Hs; try done;
      eexists d, _; (split; [done|]); (split; [reflexivity|]); by split.
  - intros e d. unfold encryptionSecret, or_else.
    by destruct (ENCRYPTION_SECRET e) as [[|c secret]|].
  - intros e req req' (k & v & x & Hk & _ & _ & _ & _ & ->)%validateApiKey_Next.
    eexists. split; [reflexivity|done].
Qed.

(** C1 as stated fails in the User flow: with ENCRYPTION_SECRET set to
    "shared", the caller whose API key is "ks_caller" receives the OpenAI
    key sealed under "shared", whatever the primitives are; on the sample
    primitives the envelope opens under "shared" and not under the
    caller's API key. *)
Lemma user_key_sealed_under_shared_secret :
  let e := sample_env_with (Some (ObjectText {[ js "ks_caller" := js "user-1" ]}))
             (Some (js "shared")) in
  let w := sample_world e (sample_file [] true) in
  let req := request_of (Some (js "ks_caller")) None None None in
  (forall C : NodeCrypto,
     exists t w',
       api_keys (keys_get_service svc_openai) 1000 w req
         = (json 200 (user_key svc_openai t 1000), w')
       /\ sealed_under t (Some (js "sk-live")) (js "shared"))
  /\ (exists t w',
        api_keys (@keys_get_service demo_crypto svc_openai) 1000 w req
          = (json 200 (user_key svc_openai t 1000), w')
        /\ @decryptKey demo_crypto t (js "shared") = Ok (js "sk-live")
        /\ @decryptKey demo_crypto t (js "ks_caller") = Throw ERR_CRYPTO_AUTH_FAILED).
Proof.
  intros e w req.
  assert (Hv : validateApiKey (env w) req
               = Next (set_apiKeyData {| payload_apiKey := js "ks_caller";
                                         userId := Str (js "user-1") |} req))
    by by vm_compute.
  split.
  - intros C. unfold api_keys. rewrite Hv. unfold keys_get_service.
    cbn [apiKeyData set_apiKeyData service_key env w sample_world e
         sample_env_with OPENAI_API_KEY truthy js negb].
    rewrite encryptKey_seal. eexists _, _. split; [reflexivity|].
    eexists _, _, _. split; [reflexivity|].
    split; [apply randomBytes_length|]. split; [apply randomBytes_length|done].
  - unfold api_keys. rewrite Hv. unfold keys_get_service.
    cbn [apiKeyData set_apiKeyData service_key env w sample_world e
         sample_env_with OPENAI_API_KEY truthy js negb].
    rewrite encryptKey_seal. eexists _, _. split; [reflexivity|].
    split; by vm_compute.
Qed.

Lemma key_release_secret_witness :
  let bot := sample_app "app_1" "Bot" true false None None in
  let w := sample_world sample_env (sample_file [(js "app_1", bot)] true) in
  let req := set_appData (AppRecord bot) blank_request in
  exists app t,
    appData req = Some (AppRecord app)
    /\ body (apps_get_service svc_openai 1000 w req).1
       = app_key svc_openai t (name app) (environment app) 1000
    /\ sealed_under t (Some (js "sk-live")) (apiKey app).
Proof.
  intros bot w req.
  refine (proj1 key_release_secret svc_openai 1000%Z w req _ _
            (surjective_pairing _) _).
  by vm_compute.
Defined.

(** ** C8: rotation of a user's API key *)

Lemma generateApiKey_form (g : RNG) :
  exists b, (generateApiKey g).1 = js "ks_" ++ toString_hex b.
Proof. unfold generateApiKey. destruct (randomBytes 32 g) as [b g']. by exists b. Qed.

Lemma randomUUID_nonempty (g : RNG) : (randomUUID g).1 <> [].
Proof.
  unfold randomUUID. destruct (randomBytes 16 g) as [b g']. cbn [fst].
  intros E. apply app_eq_nil in E as [_ E]. discriminate E.
Qed.

Lemma ks_not_inherited (b : Buffer) : inherited (js "ks_" ++ toString_hex b) = false.
Proof.
  apply bool_decide_eq_false_2. unfold Object_prototype. cbn [map].
  rewrite !elem_of_cons, elem_of_nil. intros Hin. destruct_or?; try done;
    discriminate Hin.
Qed.

Lemma ks_not_proto (b : Buffer) :
  bool_decide (js "ks_" ++ toString_hex b = js "__proto__") = false.
Proof. apply bool_decide_eq_false_2. discriminate. Qed.

Lemma ks_not_length (b : Buffer) :
  bool_decide (js "ks_" ++ toString_hex b = js "length") = false.
Proof. apply bool_decide_eq_false_2. discriminate. Qed.

Lemma ks_not_index (b : Buffer) : array_index (js "ks_" ++ toString_hex b) = None.
Proof. done. Qed.

Lemma ks_not_elem_of (l : list jsstring) (t : jsstring) :
  forallb (fun n => negb (bool_decide (take 3 n = js "ks_"))) l = true ->
  js "ks_" ++ t ∉ l.
Proof.
  intros Hf Hin%list_elem_of_In. rewrite forallb_forall in Hf.
  apply Hf in Hin. by rewrite bool_decide_eq_true_2 in Hin.
Qed.

Lemma ks_not_Array_prototype (b : Buffer) :
  lookup_prototype Array_prototype (js "ks_" ++ toString_hex b) = Undefined.
Proof.
  unfold lookup_prototype. rewrite ks_not_inherited.
  rewrite bool_decide_eq_false_2; [done|].
  apply ks_not_elem_of. by vm_compute.
Qed.

(** A name that [generateApiKey] returns is no property of an array,
    and assigning to it or deleting it leaves the elements as they are. *)
Lemma ks_on_array (b : Buffer) (a : list JSONValue) (x : jsstring) :
  let k := js "ks_" ++ toString_hex b in
  get (Array a) k = Ok Undefined
  /\ delete_property (Array a) k = Ok (Array a)
  /\ set_property (Array a) k x = Ok (Array a).
Proof.
  intros k. unfold get, delete_property, set_property. subst k.
  rewrite ks_not_index, ks_not_length, ks_not_Array_prototype. done.
Qed.

Section Rotation.
Context `{NodeCrypto}.

(** What a registration holds when it is resumed. *)
Lemma register_begin_pending (w : World) (req : Request) (p : Registration) :
  (register_begin w req).1 = inr p ->
  truthy (body_username req) = true /\ truthy (body_password req) = true
  /\ truthy (body_masterKey req) = true
  /\ body_masterKey req = MASTER_KEY (env w)
  /\ users w !! default [] (body_username req) = None
  /\ reg_userId p = (randomUUID (entropy w)).1
  /\ reg_username p = default [] (body_username req)
  /\ reg_passwordHash p
     = (hashPassword (default [] (body_password req)) (randomUUID (entropy w)).2).1
  /\ (register_begin w req).2
     = set_entropy
         (hashPassword (default [] (body_password req)) (randomUUID (entropy w)).2).2 w.
Proof.
  unfold register_begin.
  destruct (truthy (body_username req)); [|done].
  destruct (truthy (body_password req)); [|done].
  destruct (truthy (body_masterKey req)); [|done]. cbn [negb orb].
  case_bool_decide as Hm; [|done]. cbn [negb].
  destruct (users w !! _) eqn:Hu; [done|].
  destruct (randomUUID (entropy w)) as [uid g1]. cbn [fst snd].
  destruct (hashPassword _ g1) as [hash g2]. cbn [fst snd].
  by intros [= <-].
Qed.

Lemma register_begin_users (w : World) (req : Request) :
  users (register_begin w req).2 = users w
  /\ env (register_begin w req).2 = env w
  /\ apps_file (register_begin w req).2 = apps_file w.
Proof.
  unfold register_begin.
  repeat (destruct (_ : bool); [done|]).
  destruct (users w !! _); [done|].
  destruct (randomUUID (entropy w)) as [uid g1].
  by destruct (hashPassword _ g1) as [hash g2].
Qed.

(** A resumed registration stores its user under its name, whatever is
    there. *)
Lemma register_resume_users (now : Z) (p : Registration) (w : World) :
  users (register_resume now p w).2
  = <[reg_username p :=
        {| user_id := reg_userId p; username := reg_username p;
           passwordHash := reg_passwordHash p;
           user_apiKey := (generateApiKey (entropy w)).1;
           user_createdAt := now; user_lastAccess := now |}]> (users w).
Proof.
  unfold register_resume. destruct (generateApiKey (entropy w)) as [k g].
  destruct (JSON_parse_keys _) as [v|]; [|done].
  by destruct (set_property _ _ _).
Qed.



Lemma users_frame_entropy (g : RNG) (w : World) : users (set_entropy g w) = users w.
Proof. done. Qed.



End Rotation.



(** ** C5: what the writes to the Credential Store persist *)

Section Durable.
Context `{NodeCrypto}.

(** The user routes write to the memory of the process only. *)
Lemma register_resume_file (now : Z) (p : Registration) (w : World) :
  apps_file (register_resume now p w).2 = apps_file w
  /\ appsCache (register_resume now p w).2 = appsCache w.
Proof.
  unfold register_resume. destruct (generateApiKey (entropy w)) as [k g].
  destruct (JSON_parse_keys _) as [v|]; [|done].
  by destruct (set_property _ _ _).
Qed.

Lemma post_register_file (now : Z) (w : World) (req : Request) :
  apps_file (post_register now w req).2 = apps_file w
  /\ appsCache (post_register now w req).2 = appsCache w.
Proof.
  unfold post_register.
  pose proof (register_begin_users w req) as (_ & _ & Hf).
  assert (Hc : appsCache (register_begin w req).2 = appsCache w).
  { unfold register_begin. repeat (destruct (_ : bool); [done|]).
    destruct (users w !! _); [done|].
    destruct (randomUUID (entropy w)) as [uid g1].
    by destruct (hashPassword _ g1) as [hash g2]. }
  destruct (register_begin w req) as [[r|p] w1]; cbn [snd] in *; [done|].
  destruct (register_resume_file now p w1) as [-> ->]. done.
Qed.

Lemma post_rotate_api_key_file (now : Z) (w : World) (req : Request) :
  apps_file (post_rotate_api_key now w req).2 = apps_file w
  /\ appsCache (post_rotate_api_key now w req).2 = appsCache w.
Proof.
  unfold post_rotate_api_key.
  destruct (_ || _); [done|].
  destruct (users w !! _) as [user|]; [|done].
  destruct (negb _); [done|].
  destruct (JSON_parse_keys _) as [v|]; [|done].
  destruct (delete_property _ _) as [v1|]; [|done].
  destruct (generateApiKey (entropy w)) as [k g].
  by destruct (set_property _ _ _).
Qed.

End Durable.

(** C5, amended.  Of the writes to the Credential Store, those to the App
    registry call the synchronous write before the operation returns.
    [registerApp] always returns the new App record: when the write
    succeeds the apps file holds the record under its API key and the
    cache is the written configuration, stamped with the time of the call;
    when the write fails the error is swallowed, the record is returned all
    the same and the apps file is what it was.  The access update of
    [validateAppKey] is saved before the request is passed on: the file
    holds the updated record when the write succeeds; when it fails the
    request is passed on all the same, the file as it was.  [revokeApp]
    writes the file without the record before it ends; when the write
    fails it ends normally as well, the file as it was.  The registration
    of a user and the rotation of a user's key write nothing to durable
    storage, whatever they answer: the apps file is as it was (users and
    the table of valid keys are held in the memory of the process). *)
Theorem registerApp_persistence `{NodeCrypto} (now : Z) (name_ : jsstring)
    (p : Permissions) (options : option Options) (w : World) :
  (exists app w',
     registerApp now name_ p options w = (app, w')
     /\ name app = name_ /\ permissions app = p
     /\ (writable (apps_file w) = true ->
           Lookup (apps_file w') (apiKey app) = Some app
           /\ (exists config, appsCache w' = Some config
                 /\ content (apps_file w') = ConfigText config)
           /\ cacheTimestamp w' = now)
     /\ (writable (apps_file w) = false -> apps_file w' = apps_file w))
  /\ (forall req key ref config w1 app,
        or_else (headers_x_app_key req) (headers_x_api_key req) = Some key ->
        key <> [] ->
        loadApps now w = (ref, config, w1) ->
        own (apps config) key = Some app ->
        expired now app = false -> ip_allowed app req = true ->
        domain_allowed app req = true ->
        exists w',
          validateAppKey now w req
          = (Next (set_appData (AppRecord (touch now app)) req), w')
          /\ (writable (apps_file w) = true ->
                Lookup (apps_file w') key = Some (touch now app)
                /\ (exists config', appsCache w' = Some config'
                      /\ content (apps_file w') = ConfigText config')
                /\ cacheTimestamp w' = now)
          /\ (writable (apps_file w) = false -> apps_file w' = apps_file w))
  /\ (forall c key a,
        read_config (apps_file w) = Ok c ->
        first_named name_ (apps c) = Some (key, a) ->
        (writable (apps_file w) = true ->
           revokeApp name_ (apps_file w)
           = (Finished, {| content := ConfigText {| apps := delete_own (apps c) key |};
                           writable := true |}))
        /\ (writable (apps_file w) = false ->
              revokeApp name_ (apps_file w) = (Finished, apps_file w)))
  /\ (forall req,
        apps_file (post_register now w req).2 = apps_file w
        /\ apps_file (post_rotate_api_key now w req).2 = apps_file w).
Proof.
  split; [|split; [|split]].
  - unfold registerApp. pose proof (loadApps_frame now w) as Hl.
    destruct (loadApps now w) as [[ref config] w1].
    destruct Hl as (Hf & _ & _ & _ & _).
    destruct (randomUUID (entropy w1)) as [id_ g1].
    destruct (generateAppApiKey g1) as [apiKey_ g2].
    eexists _, _. split; [reflexivity|]. cbn [name permissions apiKey].
    split; [done|]. split; [done|].
    set (app := {| id := id_ |}).
    set (config' := {| apps := assign (apps config) apiKey_ app |}).
    assert (Hf2 : apps_file (mutate ref config' (set_entropy g2 w1)) = apps_file w).
    { destruct ref; cbn; by rewrite Hf. }
    split; intros Hw.
    + rewrite saveApps_writable by (by rewrite Hf2). cbn.
      split; [|split; [by exists config'|done]].
      unfold Lookup. cbn. apply own_assign_eq.
    + rewrite saveApps_unwritable by (by rewrite Hf2). done.
  - intros req key ref config w1 app Hk Hne Hl Ho He Hi Hd.
    rewrite (validateAppKey_found now w req key ref config w1 app Hk Hne Hl Ho).
    rewrite He, Hi, Hd. cbn [negb]. eexists. split; [reflexivity|].
    pose proof (loadApps_frame now w) as Hfr. rewrite Hl in Hfr.
    destruct Hfr as (Hf & _).
    set (config' := {| apps := assign (apps config) key (touch now app) |}).
    assert (Hf2 : apps_file (mutate ref config' w1) = apps_file w).
    { destruct ref; cbn; by rewrite Hf. }
    split; intros Hw.
    + rewrite saveApps_writable by (by rewrite Hf2). cbn.
      split; [|split; [by exists config'|done]].
      unfold Lookup. cbn. apply own_assign_eq.
    + rewrite saveApps_unwritable by (by rewrite Hf2). done.
  - intros c key a Hr Hf. unfold revokeApp, writeFileSync. rewrite Hr, Hf.
    split; by intros ->.
  - intros req. split; [apply post_register_file|apply post_rotate_api_key_file].
Qed.

Lemma registerApp_persistence_witness :
  let w := sample_world sample_env (sample_file [] true) in
  exists app w',
    registerApp 1000 (js "Bot") {| openai := true; anthropic := false |} None w
      = (app, w')
    /\ name app = js "Bot"
    /\ Lookup (apps_file w') (apiKey app) = Some app
    /\ cacheTimestamp w' = 1000%Z.
Proof.
  intros w.
  destruct (registerApp_persistence 1000 (js "Bot")
              {| openai := true; anthropic := false |} None w)
    as ((app & w' & Hr & Hn & _ & Hok & _) & _).
  destruct (Hok eq_refl) as (Hl & _ & Ht).
  by exists app, w'.
Defined.

(** C5 as stated fails: with an apps file that cannot be written,
    [registerApp] still returns the new record, and the record is not in
    the file. *)
Lemma registerApp_acknowledged_without_write :
  let w := sample_world sample_env (sample_file [] false) in
  let r := registerApp 1000 (js "Bot") {| openai := true; anthropic := false |} None w in
  name r.1 = js "Bot"
  /\ apps_file r.2 = apps_file w
  /\ Lookup (apps_file r.2) (apiKey r.1) = None.
Proof. by vm_compute. Qed.

(** ** The envelope: shape and leniency *)

Lemma map_seq_add {A} (g : nat -> A) (n k m : nat) :
  map (fun i => g (n + i)%nat) (seq k m) = map g (seq (n + k) m).
Proof.
  revert k. induction m as [|m IH]; intros k; cbn [seq map]; [done|].
  by rewrite IH, Nat.add_succ_r.
Qed.

Lemma map_seq_shift {A} (g : nat -> A) (n m : nat) :
  map (fun i => g (n + i)%nat) (seq 0 m) = map g (seq n m).
Proof. by rewrite map_seq_add, Nat.add_0_r. Qed.

Lemma take_toString_hex (n : nat) (buf : Buffer) :
  take (2 * n) (toString_hex buf) = toString_hex (take n buf).
Proof.
  revert buf. induction n as [|n IH]; intros buf; [done|].
  destruct buf as [|b buf]; [done|].
  replace (2 * S n)%nat with (S (S (2 * n))) by lia.
  unfold toString_hex in *. cbn [flat_map hex_of_byte app take].
  by rewrite IH.
Qed.

(** [Buffer.from(_, 'hex')] drops a last character that has no partner. *)
Lemma Buffer_from_hex_lone (buf : Buffer) (c : N) :
  Buffer_from_hex (toString_hex buf ++ [c]) = buf.
Proof.
  induction buf as [|b buf IH]; [done|].
  unfold toString_hex in *. cbn [flat_map hex_of_byte app Buffer_from_hex].
  pose proof (N_ascii_bounded b) as Hb.
  rewrite !hex_value_digit
    by (first [apply N.Div0.div_lt_upper_bound | apply N.mod_lt]; lia).
  rewrite IH. f_equal.
  rewrite <- (ascii_N_embedding b) at 3. f_equal.
  symmetry. apply N.div_mod. lia.
Qed.

Lemma length_app_lone (h : jsstring) (c : N) :
  Nat.odd (List.length h) = false -> Nat.odd (List.length (h ++ [c])) = true.
Proof.
  intros Hh. rewrite length_app. cbn [List.length].
  rewrite Nat.add_1_r, Nat.odd_succ, <- Nat.negb_odd, Hh. done.
Qed.

(** X1.  [encryptKey] returns an envelope for every key and secret.  Its
    iv is the first 16 bytes of the random tape and its salt the next 32,
    both printed in hex; the ciphertext has two hex digits for every byte
    of the UTF-8 encoding of the key, so it shows the length of the key;
    the tag has 16 bytes; the call uses up 48 random bytes. *)
Theorem encryptKey_envelope_shape `{NodeCrypto} (P S : jsstring) (g : RNG) :
  exists enc tagHex g',
    encryptKey P S g
    = (Ok (EnvelopeJson {| encrypted := Some enc;
                           salt := Some (toString_hex (map g (seq 16 32)));
                           iv := Some (toString_hex (map g (seq 0 16)));
                           authTag := Some tagHex |}), g')
    /\ List.length enc = (2 * List.length (utf8_encode P))%nat
    /\ List.length (Buffer_from_hex tagHex) = 16%nat
    /\ List.length (toString_hex (map g (seq 0 16))) = 32%nat
    /\ List.length (toString_hex (map g (seq 16 32))) = 64%nat
    /\ forall i, g' i = g (48 + i)%nat.
Proof.
  rewrite encryptKey_seal. unfold seal.
  eexists _, _, _. split.
  - unfold randomBytes. cbn [fst snd]. by rewrite map_seq_shift.
  - rewrite toString_hex_length, xor_stream_length, Buffer_from_hex_toString,
      fit_length, !toString_hex_length, !length_map, !length_seq.
    repeat split.
Qed.

(** X2.  [decryptKey] passes no [authTagLength] to [createDecipheriv], so
    Node takes a tag of 4, 8 or 12 to 16 bytes and compares that many
    bytes only: an envelope made by [encryptKey] whose authTag is cut to
    its first n bytes, n being one of these lengths, still decrypts to the
    key. *)
Theorem decryptKey_accepts_truncated_tag `{NodeCrypto}
    (P S : jsstring) (g g' : RNG) (e : Envelope) (n : nat) :
  isWellFormed P = true ->
  encryptKey P S g = (Ok (EnvelopeJson e), g') ->
  n = 4%nat \/ n = 8%nat \/ (12 <= n <= 16)%nat ->
  decryptKey (EnvelopeJson (truncate_authTag n e)) S = Ok P.
Proof.
  intros Hw He Hn.
  apply encryptKey_sealed in He as (k & ivBuf & saltBuf & [= <-] & Hiv & Hsalt & [= ->]).
  unfold truncate_authTag, seal. cbn [encrypted salt iv authTag fmap option_fmap option_map].
  rewrite decryptKey_fields. cbv zeta.
  unfold envelope_tag_verifies. cbn [encrypted salt iv authTag].
  rewrite take_toString_hex, !Buffer_from_hex_toString, Hiv, toString_hex_even.
  assert (Hlen : List.length (take n (fit 16
            (gcm_mac (pbkdf2Sync S saltBuf 100000 32) ivBuf
               (xor_stream (gcm_keystream (pbkdf2Sync S saltBuf 100000 32) ivBuf) 0
                  (utf8_encode P))))) = n).
  { rewrite length_take, fit_length. lia. }
  rewrite Hlen.
  assert (Hv : valid_gcm_tag_length n = true).
  { unfold valid_gcm_tag_length.
    destruct Hn as [->|[->|[H1 H2]]]; [done|done|].
    apply orb_true_iff. right. apply andb_true_iff.
    split; apply Nat.leb_le; lia. }
  rewrite Hv. cbn [Nat.eqb negb].
  rewrite bool_decide_eq_true_2 by done.
  by rewrite xor_stream_involutive, utf8_roundtrip.
Qed.

Lemma decryptKey_accepts_truncated_tag_witness :
  exists e g',
    encryptKey (js "sk-proj-4f") (js "ks_00ff") counting_rng = (Ok (EnvelopeJson e), g')
    /\ (List.length <$> authTag (truncate_authTag 4 e)) = Some 8%nat
    /\ decryptKey (EnvelopeJson (truncate_authTag 4 e)) (js "ks_00ff")
       = Ok (js "sk-proj-4f").
Proof.
  eexists _, _. split; [apply encryptKey_seal|]. split; [reflexivity|].
  eapply (decryptKey_accepts_truncated_tag (js "sk-proj-4f") (js "ks_00ff") counting_rng).
  - reflexivity.
  - apply encryptKey_seal.
  - by left.
Defined.

(** X3.  [Buffer.from(_, 'hex')] drops a last character that has no
    partner, so the text of an envelope is not unique: with one more
    character, whatever it is, at the end of its salt, iv and authTag, an
    envelope made by [encryptKey] decrypts to the same key; with one more
    character at the end of [encrypted] it is refused. *)
Theorem decryptKey_ignores_trailing_character `{NodeCrypto}
    (P S : jsstring) (g g' : RNG) (e : Envelope) (c : N) :
  isWellFormed P = true ->
  encryptKey P S g = (Ok (EnvelopeJson e), g') ->
  decryptKey (EnvelopeJson (append_to_fields c e)) S = Ok P
  /\ decryptKey
       (EnvelopeJson {| encrypted := (fun h => h ++ [c]) <$> encrypted e;
                        salt := salt e; iv := iv e; authTag := authTag e |}) S
     = Throw ERR_INVALID_ARG_VALUE.
Proof.
  intros Hw He.
  apply encryptKey_sealed in He as (k & ivBuf & saltBuf & [= <-] & Hiv & Hsalt & [= ->]).
  unfold append_to_fields, seal.
  cbn [encrypted salt iv authTag fmap option_fmap option_map].
  rewrite !decryptKey_fields. cbv zeta.
  unfold envelope_tag_verifies. cbn [encrypted salt iv authTag].
  rewrite !Buffer_from_hex_lone, !Buffer_from_hex_toString, Hiv, fit_length.
  rewrite toString_hex_even, length_app_lone by apply toString_hex_even.
  cbn [Nat.eqb valid_gcm_tag_length orb andb negb Nat.leb].
  rewrite take_ge by (rewrite fit_length; lia).
  rewrite bool_decide_eq_true_2 by done.
  by rewrite xor_stream_involutive, utf8_roundtrip.
Qed.

Lemma decryptKey_ignores_trailing_character_witness :
  exists e g',
    encryptKey (js "sk-proj-4f") (js "ks_00ff") counting_rng = (Ok (EnvelopeJson e), g')
    /\ decryptKey (EnvelopeJson (append_to_fields 122 e)) (js "ks_00ff")
       = Ok (js "sk-proj-4f").
Proof.
  eexists _, _. split; [apply encryptKey_seal|].
  eapply (proj1 (decryptKey_ignores_trailing_character
                   (js "sk-proj-4f") (js "ks_00ff") counting_rng _ _ 122 eq_refl
                   (encryptKey_seal _ _ _))).
Defined.

(** ** The key routes of the User flow *)

Section KeyRoutes.
Context `{NodeCrypto}.

Lemma encryptKey_total (key secret : jsstring) (g : RNG) :
  exists t g', encryptKey key secret g = (Ok t, g').
Proof. rewrite encryptKey_seal. by eexists _, _. Qed.

(** [encrypt_if] never throws; it yields a key exactly under its condition. *)
Lemma encrypt_if_value (cond : bool) (key : option jsstring) (secret : jsstring)
    (g : RNG) :
  exists k g',
    encrypt_if cond key secret g = (Ok k, g')
    /\ (is_Some k <-> cond && truthy key = true).
Proof.
  unfold encrypt_if. destruct (cond && truthy key).
  - destruct (encryptKey_total (default [] key) secret g) as (t & g' & ->).
    cbn [bind]. eexists _, _. split; [done|]. split; [done|]. by eexists.
  - eexists _, _. split; [done|]. split; [by intros [? ?]|done].
Qed.

Lemma keys_get_service_cases (s : Service) (now : Z) (w : World) (req : Request)
    (d : ApiKeyPayload) :
  apiKeyData req = Some d ->
  (truthy (service_key (env w) s) = false
   /\ keys_get_service s now w req = (json 404 (error_body (not_configured s)), w))
  \/ (truthy (service_key (env w) s) = true
      /\ exists t g,
           encryptKey (default [] (service_key (env w) s))
             (encryptionSecret (env w) d) (entropy w) = (Ok t, g)
           /\ keys_get_service s now w req
              = (json 200 (user_key s t now), set_entropy g w)).
Proof.
  intros Hd. unfold keys_get_service. rewrite Hd.
  destruct (truthy (service_key (env w) s)); cbn [negb]; [right|by left].
  split; [done|].
  destruct (encryptKey_total (default [] (service_key (env w) s))
              (encryptionSecret (env w) d) (entropy w)) as (t & g & He).
  rewrite He. by eexists _, _.
Qed.

End KeyRoutes.

(** What [validateApiKey] answers itself is a 401. *)
Lemma validateApiKey_Respond (e : Env) (req : Request) (r : Response) :
  validateApiKey e req = Respond r ->
  (r = json 401 (error_body "API key required")
   /\ truthy (headers_x_api_key req) = false)
  \/ (r = json 401 (error_body "Invalid API key")
      /\ truthy (headers_x_api_key req) = true).
Proof.
  unfold validateApiKey.
  destruct (headers_x_api_key req) as [[|c k]|];
    [intros [= <-]; by left| |intros [= <-]; by left].
  destruct (JSON_parse_keys _) as [o|]; [|done].
  destruct (get o _) as [x|]; [|done].
  destruct (truthy_val _); cbn [negb]; [done|]. intros [= <-]. by right.
Qed.

(** It throws when the text of VALID_API_KEYS is not JSON, and when it is
    [null], whose property cannot be read. *)
Lemma validateApiKey_Raise (e : Env) (req : Request) (err : exn) :
  validateApiKey e req = Raise err ->
  truthy (headers_x_api_key req) = true
  /\ (JSON_parse_keys (or_empty_object (VALID_API_KEYS e)) = Throw err
      \/ (VALID_API_KEYS e = Some (JsonText Null) /\ err = TypeError)).
Proof.
  unfold validateApiKey.
  destruct (headers_x_api_key req) as [[|c k]|]; [done| |done].
  destruct (JSON_parse_keys _) as [v|err'] eqn:Hv; [|intros [= <-]; by split; [|left]].
  destruct (get v _) as [x|err'] eqn:Hx.
  - by destruct (truthy_val _).
  - intros [= <-]. split; [done|]. right.
    destruct v; try done. injection Hx as <-.
    destruct (VALID_API_KEYS e) as [[| |v]|]; try done.
    cbn in Hv. by injection Hv as ->.
Qed.

(** X4.  What GET /api/keys/openai or /anthropic releases passes POST
    /decrypt-test: for a request answered 200, the envelope of the answer
    and the secret it was sealed under (ENCRYPTION_SECRET when that is set
    and not empty, the caller's API key otherwise) are answered 200 with
    the first 8 code units of the service key followed by "...", the
    service key being a well-formed string. *)
Theorem decrypt_test_opens_released_key `{NodeCrypto} (s : Service) (now : Z)
    (w w' : World) (req : Request) (t : jsontext) (key apiKey_ : jsstring) :
  api_keys (keys_get_service s) now w req = (json 200 (user_key s t now), w') ->
  headers_x_api_key req = Some apiKey_ ->
  service_key (env w) s = Some key ->
  isWellFormed key = true ->
  let secret := match ENCRYPTION_SECRET (env w) with
                | Some (c :: rest) => c :: rest
                | _ => apiKey_
                end in
  post_decrypt_test {| body_encryptedData := Some t; body_secret := Some secret |}
  = (200, test_success "Decryption successful" (take 8 key ++ js "...")).
Proof.
  intros Hr Hk Hs Hw secret. unfold api_keys in Hr.
  destruct (validateApiKey (env w) req) as [r0|req'|err] eqn:Hv.
  { apply validateApiKey_Respond in Hv as [[-> _]|[-> _]]; done. }
  2: done.
  apply validateApiKey_Next in Hv as (k & o & x & Hk' & Hne & _ & _ & _ & ->).
  rewrite Hk in Hk'. injection Hk' as <-.
  destruct (keys_get_service_cases s now w
              (set_apiKeyData {| payload_apiKey := apiKey_; userId := x |} req)
              _ eq_refl)
    as [[_ E]|(_ & t0 & g0 & He & E)]; rewrite E in Hr; [done|].
  injection Hr as [= <- _]. rewrite Hs in He. cbn [default from_option Datatypes.id] in He.
  apply encryptKey_sealed in He.
  assert (Hsec : encryptionSecret (env w)
                   {| payload_apiKey := apiKey_; userId := x |}
                 = secret).
  { unfold encryptionSecret, or_else, secret. cbn [payload_apiKey].
    by destruct (ENCRYPTION_SECRET (env w)) as [[|c rest]|]. }
  rewrite Hsec in He.
  unfold post_decrypt_test.
  cbn [body_encryptedData body_secret default from_option Datatypes.id].
  assert (Ht : truthy (Some secret) = true).
  { unfold secret. destruct (ENCRYPTION_SECRET (env w)) as [[|c rest]|];
      try done; by destruct apiKey_. }
  rewrite Ht. cbn [negb].
  by rewrite (sealed_under_decrypt t0 key secret He Hw).
Qed.

Lemma decrypt_test_opens_released_key_witness :
  let e := sample_env_with (Some (ObjectText {[ js "ks_caller" := js "user-1" ]})) None in
  let w := sample_world e (sample_file [] true) in
  let req := request_of (Some (js "ks_caller")) None None None in
  exists t w',
    api_keys (keys_get_service svc_openai) 1000 w req
      = (json 200 (user_key svc_openai t 1000), w')
    /\ post_decrypt_test {| body_encryptedData := Some t;
                            body_secret := Some (js "ks_caller") |}
       = (200, test_success "Decryption successful" (js "sk-live...")).
Proof.
  intros e w req. eexists _, _. split; [reflexivity|].
  exact (decrypt_test_opens_released_key svc_openai 1000 w _ req _
           (js "sk-live") (js "ks_caller") eq_refl eq_refl eq_refl eq_refl).
Defined.

(** X5.  POST /decrypt-test, on a body that is a JSON object with
    strings for fields, answers 200 or 400, never 500.  It answers
    200, showing at most 8 code units of the plaintext, only for a
    non-empty secret and an envelope whose authTag verifies against its
    ciphertext under the key derived from that secret; anything else
    (missing field, text that is no JSON, envelope that does not verify)
    is answered 400. *)
Theorem decrypt_test_fails_closed `{NodeCrypto} (b : DecryptTestBody) :
  ((post_decrypt_test b).1 = 200 \/ (post_decrypt_test b).1 = 400)
  /\ (forall answer, post_decrypt_test b = (200, answer) ->
        exists t secret e prefix,
          body_encryptedData b = Some t /\ body_secret b = Some secret
          /\ secret <> []
          /\ JSON_parse t = Ok e
          /\ envelope_tag_verifies e secret = true
          /\ answer = test_success "Decryption successful" (prefix ++ js "...")
          /\ (List.length prefix <= 8)%nat
          /\ exists rest, decryptKey t secret = Ok (prefix ++ rest)).
Proof.
  unfold post_decrypt_test.
  destruct (body_encryptedData b) as [t|]; [|split; [by right|done]].
  destruct (body_secret b) as [[|c secret]|];
    cbn [truthy negb default from_option Datatypes.id];
    [split; [by right|done]| |split; [by right|done]].
  destruct (decryptKey t (c :: secret)) as [decrypted|err] eqn:Hd;
    [|split; [by right|done]].
  split; [by left|]. intros answer [= <-].
  destruct (JSON_parse t) as [e|err] eqn:Ht.
  - exists t, (c :: secret), e, (take 8 decrypted).
    repeat split; try done.
    + destruct (envelope_tag_verifies e (c :: secret)) eqn:Hv; [done|].
      destruct (decryptKey_not_verified t e (c :: secret) Ht Hv) as [err' He].
      congruence.
    + rewrite length_take. lia.
    + exists (drop 8 decrypted). by rewrite take_drop.
  - unfold decryptKey in Hd. rewrite Ht in Hd. done.
Qed.

Lemma encryptKey_entropy `{NodeCrypto} (key secret : jsstring) (g g' : RNG)
    (r : result jsontext) :
  encryptKey key secret g = (r, g') -> forall i, g' i = g (48 + i)%nat.
Proof.
  rewrite encryptKey_seal. intros E i. apply (f_equal snd) in E. cbn [snd] in E.
  subst g'. reflexivity.
Qed.

Lemma validateApiKey_throws (e : Env) (req : Request) :
  truthy (headers_x_api_key req) = true ->
  VALID_API_KEYS e = Some NotJsonText \/ VALID_API_KEYS e = Some (JsonText Null) ->
  exists err, validateApiKey e req = Raise err.
Proof.
  intros Hk Ht. unfold validateApiKey.
  destruct (headers_x_api_key req) as [[|c k]|]; [done| |done].
  destruct Ht as [-> | ->]; by eexists.
Qed.

(** X6.  GET /api/keys/openai and /anthropic behind [validateApiKey], for
    a request the rate limiters let through, answer 200, 401, 404 or 500.  The
    answer is 500 exactly when the request carries a key and VALID_API_KEYS
    holds a text that is not JSON or the text [null] ([JSON.parse] throws,
    or reading a property of [null] does), and it is Express's own.  The
    answers 'Unauthorized' and 'Failed to retrieve key' of the handler are
    never given.  A request that is not answered 200 leaves the process as
    it was; one answered 200 uses up 48 random bytes and changes nothing
    else. *)
Theorem api_keys_answers `{NodeCrypto} (s : Service) (now : Z) (w : World)
    (req : Request) :
  let r := (api_keys (keys_get_service s) now w req).1 in
  let w' := (api_keys (keys_get_service s) now w req).2 in
  (status r = 200 \/ status r = 401 \/ status r = 404 \/ status r = 500)
  /\ (status r = 500 <->
        truthy (headers_x_api_key req) = true
        /\ (VALID_API_KEYS (env w) = Some NotJsonText
            \/ VALID_API_KEYS (env w) = Some (JsonText Null)))
  /\ (status r = 500 -> r = json 500 (error_body "Internal server error"))
  /\ body r <> error_body "Unauthorized"
  /\ body r <> error_body "Failed to retrieve key"
  /\ (status r <> 200 -> w' = w)
  /\ (status r = 200 ->
        env w' = env w /\ users w' = users w /\ apps_file w' = apps_file w
        /\ appsCache w' = appsCache w
        /\ forall i, entropy w' i = entropy w (48 + i)%nat).
Proof.
  cbv zeta. unfold api_keys.
  destruct (validateApiKey (env w) req) as [r0|req'|err] eqn:Hv; cbn [fst snd].
  - assert (Hno : ~ (truthy (headers_x_api_key req) = true
                     /\ (VALID_API_KEYS (env w) = Some NotJsonText
                         \/ VALID_API_KEYS (env w) = Some (JsonText Null)))).
    { intros [Hk Ht]. destruct (validateApiKey_throws _ _ Hk Ht) as [err E].
      by rewrite E in Hv. }
    apply validateApiKey_Respond in Hv as [[-> _]|[-> _]]; cbn [status body json];
      repeat split; try done; auto.
  - assert (Hno : ~ (truthy (headers_x_api_key req) = true
                     /\ (VALID_API_KEYS (env w) = Some NotJsonText
                         \/ VALID_API_KEYS (env w) = Some (JsonText Null)))).
    { intros [Hk Ht]. destruct (validateApiKey_throws _ _ Hk Ht) as [err E].
      by rewrite E in Hv. }
    apply validateApiKey_Next in Hv as (k & o & x & _ & _ & _ & _ & _ & ->).
    destruct (keys_get_service_cases s now w
                (set_apiKeyData {| payload_apiKey := k; userId := x |} req)
                _ eq_refl)
      as [[_ E]|(_ & t0 & g0 & He & E)]; rewrite E; cbn [fst snd status body json].
    + repeat split; try done; auto; by destruct s.
    + repeat split; try done; auto. exact (encryptKey_entropy _ _ _ _ _ He).
  - apply validateApiKey_Raise in Hv as [Hk Hp]. unfold errorHandler.
    cbn [status body json]. repeat split; try done; auto.
    destruct Hp as [Hp|[Hp _]]; [|by right].
    destruct (VALID_API_KEYS (env w)) as [[| |o]|]; cbn in Hp |- *; try done.
    by left.
Qed.

(** X7.  The /all routes hand out exactly the keys there are.  GET
    /api/keys/all holds a key for each service whose key is configured
    (set and not empty) and answers 404 when there is none.  GET /keys/all
    of the App flow, which has no [checkAppPermission] in front, holds a
    key for a service exactly when the App has the permission for it and
    the key is configured, and answers 404 when there is none. *)
Theorem keys_all_exact `{NodeCrypto} (now : Z) (w : World) (req : Request) :
  (forall d, apiKeyData req = Some d ->
     let r := (keys_get_all now w req).1 in
     let has s := truthy (service_key (env w) s) in
     (has svc_openai = false -> has svc_anthropic = false ->
        r = json 404 (error_body "No API keys configured"))
     /\ (has svc_openai = true \/ has svc_anthropic = true ->
           exists ks, r = json 200 (user_keys ks now)
             /\ (is_Some (keys_openai ks) <-> has svc_openai = true)
             /\ (is_Some (keys_anthropic ks) <-> has svc_anthropic = true)))
  /\ (forall app, appData req = Some (AppRecord app) ->
        let r := (apps_get_all now w req).1 in
        let has s := permission (permissions app) s && truthy (service_key (env w) s) in
        (has svc_openai = false -> has svc_anthropic = false ->
           r = json 404 (error_body "No accessible keys for this app"))
        /\ (has svc_openai = true \/ has svc_anthropic = true ->
              exists ks,
                r = json 200 (app_keys ks (name app) (environment app)
                                (permissions app) now)
                /\ (is_Some (keys_openai ks) <-> has svc_openai = true)
                /\ (is_Some (keys_anthropic ks) <-> has svc_anthropic = true))).
Proof.
  split.
  - intros d Hd. cbv zeta. unfold keys_get_all. rewrite Hd.
    cbn [service_key].
    destruct (encrypt_if_value true (OPENAI_API_KEY (env w))
                (encryptionSecret (env w) d) (entropy w)) as (k1 & g1 & -> & H1).
    destruct (encrypt_if_value true (ANTHROPIC_API_KEY (env w))
                (encryptionSecret (env w) d) g1) as (k2 & g2 & -> & H2).
    cbn [andb] in H1, H2. split.
    + intros E1 E2. rewrite E1 in H1. rewrite E2 in H2.
      destruct k1 as [t1|]; [discriminate (proj1 H1 (ex_intro _ t1 eq_refl))|].
      destruct k2 as [t2|]; [discriminate (proj1 H2 (ex_intro _ t2 eq_refl))|]. done.
    + intros Hor. exists {| keys_openai := k1; keys_anthropic := k2 |}.
      split; [|done].
      destruct k1 as [t1|]; [done|]. destruct k2 as [t2|]; [done|].
      destruct Hor as [E|E]; [apply H1 in E|apply H2 in E]; by destruct E.
  - intros app Ha. cbv zeta. unfold apps_get_all. rewrite Ha.
    cbn [service_key permission].
    destruct (encrypt_if_value (openai (permissions app)) (OPENAI_API_KEY (env w))
                (apiKey app) (entropy w)) as (k1 & g1 & -> & H1).
    destruct (encrypt_if_value (anthropic (permissions app))
                (ANTHROPIC_API_KEY (env w)) (apiKey app) g1) as (k2 & g2 & -> & H2).
    split.
    + intros E1 E2. rewrite E1 in H1. rewrite E2 in H2.
      destruct k1 as [t1|]; [discriminate (proj1 H1 (ex_intro _ t1 eq_refl))|].
      destruct k2 as [t2|]; [discriminate (proj1 H2 (ex_intro _ t2 eq_refl))|]. done.
    + intros Hor. exists {| keys_openai := k1; keys_anthropic := k2 |}.
      split; [|done].
      destruct k1 as [t1|]; [done|]. destruct k2 as [t2|]; [done|].
      destruct Hor as [E|E]; [apply H1 in E|apply H2 in E]; by destruct E.
Qed.

(** ** The client-side decryption *)

Lemma hex_value_range (c h : N) :
  hex_value c = Some h ->
  h < 16 /\ ((48 <= c <= 57 /\ h = c - 48) \/ (97 <= c <= 102 /\ h = c - 87)
             \/ (65 <= c <= 70 /\ h = c - 55)).
Proof.
  unfold hex_value.
  destruct (N.leb_spec 48 c), (N.leb_spec c 57); cbn [andb];
    try (intros [= <-]; lia);
    destruct (N.leb_spec 97 c), (N.leb_spec c 102); cbn [andb];
    try (intros [= <-]; lia);
    destruct (N.leb_spec 65 c), (N.leb_spec c 70); cbn [andb];
    try (intros [= <-]; lia); done.
Qed.

Lemma hex_digit_not_white_space (c h : N) :
  hex_value c = Some h -> is_white_space c = false.
Proof.
  intros Hc%hex_value_range. unfold is_white_space.
  rewrite bool_decide_eq_false_2.
  - cbn [orb]. apply andb_false_iff. left. apply N.leb_gt. lia.
  - rewrite !elem_of_cons, elem_of_nil. lia.
Qed.

(** [parseInt] of two hexadecimal digits is their value. *)
Lemma parseInt_16_pair (c1 c2 h l : N) :
  hex_value c1 = Some h -> hex_value c2 = Some l ->
  parseInt_16 [c1; c2] = Some (Z.of_N (16 * h + l)).
Proof.
  intros H1 H2. unfold parseInt_16. cbn [trimStart].
  rewrite (hex_digit_not_white_space c1 h H1).
  pose proof (hex_value_range _ _ H1) as R1.
  pose proof (hex_value_range _ _ H2) as R2.
  replace (c1 =? 45) with false by (symmetry; apply N.eqb_neq; lia).
  replace (c1 =? 43) with false by (symmetry; apply N.eqb_neq; lia).
  cbn [orb].
  replace (c2 =? 120) with false by (symmetry; apply N.eqb_neq; lia).
  replace (c2 =? 88) with false by (symmetry; apply N.eqb_neq; lia).
  cbn [orb]. rewrite andb_false_r. cbn [hex_prefix]. rewrite H1, H2.
  cbn [default from_option Datatypes.id]. do 2 f_equal; lia.
Qed.

Lemma ToUint8_pair (h l : N) :
  h < 16 -> l < 16 -> ToUint8 (Some (Z.of_N (16 * h + l))) = ascii_of_N (16 * h + l).
Proof.
  intros Hh Hl. unfold ToUint8. f_equal.
  rewrite Z.mod_small by lia. apply N2Z.id.
Qed.

(** Two characters at a time. *)
Lemma pairs_ind (P : jsstring -> Prop) :
  P [] -> (forall c, P [c]) -> (forall c1 c2 s, P s -> P (c1 :: c2 :: s)) ->
  forall s, P s.
Proof.
  intros H0 H1 H2.
  assert (forall s, P s /\ forall c, P (c :: s)) as Hboth.
  { induction s as [|c s [IHs IHc]]; [by split|]. split; [apply IHc|].
    intros c0. by apply H2. }
  intros s. apply Hboth.
Qed.

Lemma hexToBuffer_length (s : jsstring) :
  List.length (hexToBuffer s) = (List.length s / 2)%nat.
Proof.
  induction s as [|c|c1 c2 s IH] using pairs_ind; [done..|].
  cbn [hexToBuffer List.length]. rewrite IH.
  change (S (S (List.length s))) with (2 + List.length s)%nat.
  replace (2 + List.length s)%nat with (List.length s + 1 * 2)%nat by lia.
  rewrite Nat.div_add by lia. lia.
Qed.

Lemma hexToBuffer_hex (s : jsstring) :
  Forall (fun c => is_Some (hex_value c)) s -> hexToBuffer s = Buffer_from_hex s.
Proof.
  induction s as [|c|c1 c2 s IH] using pairs_ind; [done..|].
  intros Hs. apply Forall_cons in Hs as [[h H1] Hs].
  apply Forall_cons in Hs as [[l H2] Hs].
  cbn [hexToBuffer Buffer_from_hex]. rewrite H1, H2, IH by done.
  rewrite (parseInt_16_pair c1 c2 h l H1 H2).
  rewrite ToUint8_pair;
    [done|exact (proj1 (hex_value_range _ _ H1))|exact (proj1 (hex_value_range _ _ H2))].
Qed.

Lemma toString_hex_digits (buf : Buffer) :
  Forall (fun c => is_Some (hex_value c)) (toString_hex buf).
Proof.
  induction buf as [|b buf IH]; [by constructor|].
  unfold toString_hex in *. cbn [flat_map hex_of_byte app].
  pose proof (N_ascii_bounded b) as Hb.
  repeat constructor; [..|done];
    rewrite hex_value_digit
      by (first [apply N.Div0.div_lt_upper_bound | apply N.mod_lt]; lia);
    by eexists.
Qed.

Lemma hexToBuffer_toString_hex (buf : Buffer) :
  hexToBuffer (toString_hex buf) = buf.
Proof.
  rewrite hexToBuffer_hex by apply toString_hex_digits.
  apply Buffer_from_hex_toString.
Qed.

(** X8.  [hexToBuffer] of the client reads what the server writes: it
    gives the bytes back from their hex text, and on every string of
    hexadecimal digits it agrees with Node's [Buffer.from(_, 'hex')].  It
    never fails: whatever the string, the buffer has half as many bytes as
    the string has characters, rounded down (where a pair is no
    hexadecimal number Node's decoder stops, and the client's goes on). *)
Theorem hexToBuffer_reads_server_hex :
  (forall buf, hexToBuffer (toString_hex buf) = buf)
  /\ (forall s, Forall (fun c => is_Some (hex_value c)) s ->
        hexToBuffer s = Buffer_from_hex s)
  /\ (forall s, List.length (hexToBuffer s) = (List.length s / 2)%nat)
  /\ (forall s c1 c2, hex_value c1 = None ->
        Buffer_from_hex (c1 :: c2 :: s) = []).
Proof.
  split; [apply hexToBuffer_toString_hex|].
  split; [apply hexToBuffer_hex|].
  split; [apply hexToBuffer_length|].
  intros s c1 c2 H1. cbn [Buffer_from_hex]. by rewrite H1.
Qed.

Lemma bN_inj (a b : N) : a < 256 -> b < 256 -> bN a = bN b -> a = b.
Proof.
  intros Ha Hb E. apply (f_equal N_of_ascii) in E. by rewrite !N_of_bN in E.
Qed.

Lemma TextDecoder_decode_other (b0 : byte) (t : Buffer) :
  N_of_ascii b0 <> 0xEF -> TextDecoder_decode (b0 :: t) = utf8_decode (b0 :: t).
Proof.
  intros Hb. unfold TextDecoder_decode. destruct t as [|b1 [|b2 t]]; [done..|].
  rewrite bool_decide_eq_false_2; [done|]. by intros [? _].
Qed.

Lemma utf8_of_codepoint_head (c : N) (t : Buffer) :
  c < 0x110000 -> c <> 0xFEFF ->
  TextDecoder_decode (utf8_of_codepoint c ++ t) = utf8_decode (utf8_of_codepoint c ++ t).
Proof.
  intros Hc Hne. unfold utf8_of_codepoint.
  change 4096 with (64 * 64). change 262144 with (64 * 64 * 64).
  rewrite <- !N.Div0.div_div.
  destruct (split64 c) as (q & r & Ec & Hr & -> & ->).
  destruct (split64 q) as (q1 & r1 & Eq & Hr1 & -> & ->).
  destruct (split64 q1) as (q2 & r2 & Eq1 & Hr2 & -> & ->).
  destruct (N.ltb_spec c 0x80);
    [|destruct (N.ltb_spec c 0x800); [|destruct (N.ltb_spec c 0x10000)]];
    cbn [app].
  - apply TextDecoder_decode_other. rewrite N_of_bN by lia. lia.
  - apply TextDecoder_decode_other. rewrite N_of_bN by lia. lia.
  - unfold TextDecoder_decode. rewrite !N_of_bN by lia.
    rewrite bool_decide_eq_false_2; [done|]. lia.
  - apply TextDecoder_decode_other. rewrite N_of_bN by lia. lia.
Qed.

(** Decoding by [TextDecoder] undoes encoding up to a leading U+FEFF. *)
Lemma TextDecoder_decode_encode (s : jsstring) :
  isWellFormed s = true -> TextDecoder_decode (utf8_encode s) = without_BOM s.
Proof.
  intros Hw. destruct s as [|u rest]; [done|].
  cbn [without_BOM]. destruct (N.eqb_spec u 0xFEFF) as [->|Hne].
  - cbn in Hw. change (utf8_encode (0xFEFF :: rest))
      with (bN 0xEF :: bN 0xBB :: bN 0xBF :: utf8_encode rest).
    unfold TextDecoder_decode. rewrite bool_decide_eq_true_2 by done.
    by apply utf8_roundtrip.
  - rewrite <- (utf8_roundtrip (u :: rest) Hw) at 2.
    cbn [utf8_encode isWellFormed] in *.
    destruct (is_high_surrogate u) eqn:Hh.
    + destruct rest as [|v rest']; [done|].
      apply andb_true_iff in Hw as [Hl Hw]. rewrite Hl.
      destruct (pair_is_scalar u v Hh Hl) as [Hc Hs].
      apply utf8_of_codepoint_head; [done|].
      unfold is_high_surrogate, is_low_surrogate, codepoint_of_pair in *.
      apply andb_true_iff in Hh as [?%N.leb_le ?%N.leb_le].
      apply andb_true_iff in Hl as [?%N.leb_le ?%N.leb_le]. lia.
    + destruct (is_low_surrogate u) eqn:Hl; [done|].
      apply andb_true_iff in Hw as [Hu%N.ltb_lt Hw].
      apply utf8_of_codepoint_head; [lia|done].
Qed.

Section ClientTheorems.
Context `{NodeCrypto}.

Lemma subtle_decrypt_tagged (key ivBuf text tag : Buffer) :
  List.length ivBuf <> 0%nat -> List.length tag = 16%nat ->
  subtle_decrypt key ivBuf (text ++ tag)
  = if bool_decide (tag = fit 16 (gcm_mac key ivBuf text))
    then Fulfilled (xor_stream (gcm_keystream key ivBuf) 0 text)
    else Rejected OperationError.
Proof.
  intros Hiv Htag. unfold subtle_decrypt.
  rewrite length_app, Htag.
  replace (List.length text + 16 <? 16)%nat with false
    by (symmetry; apply Nat.ltb_ge; lia).
  replace (List.length ivBuf =? 0)%nat with false
    by (symmetry; by apply Nat.eqb_neq).
  replace (List.length text + 16 - 16)%nat with (List.length text) by lia.
  by rewrite take_app_length, drop_app_length.
Qed.

(** [decryptApiKey] on a sealed envelope whose tag was replaced. *)
Lemma decryptApiKey_seal (key secret : jsstring) (ivBuf saltBuf tag : Buffer) :
  List.length ivBuf = 16%nat -> List.length tag = 16%nat ->
  let derivedKey := pbkdf2Sync secret saltBuf 100000 32 in
  let text := xor_stream (gcm_keystream derivedKey ivBuf) 0 (utf8_encode key) in
  decryptApiKey
    (EnvelopeJson {| encrypted := Some (toString_hex text);
                     salt := Some (toString_hex saltBuf);
                     iv := Some (toString_hex ivBuf);
                     authTag := Some (toString_hex tag) |}) secret
  = if bool_decide (tag = fit 16 (gcm_mac derivedKey ivBuf text))
    then Fulfilled (TextDecoder_decode (utf8_encode key))
    else Rejected OperationError.
Proof.
  intros Hiv Htag. cbv zeta. unfold decryptApiKey.
  cbn [JSON_parse bind defined salt iv authTag encrypted].
  rewrite !hexToBuffer_toString_hex.
  change (subtle_deriveKey (utf8_encode secret) saltBuf)
    with (pbkdf2Sync secret saltBuf 100000 32).
  rewrite subtle_decrypt_tagged by (rewrite ?Hiv; done).
  destruct (bool_decide _); [|done]. by rewrite xor_stream_involutive.
Qed.

End ClientTheorems.

(** X9.  The client opens what the server seals: for every well-formed
    key and every secret, [decryptApiKey] of the envelope that
    [encryptKey] makes, under the same secret, is fulfilled with the key;
    a U+FEFF at the start of the key is lost, as [TextDecoder] takes it
    for a byte order mark. *)
Theorem decryptApiKey_encryptKey `{NodeCrypto} (P S : jsstring) (g : RNG) :
  isWellFormed P = true ->
  exists t g',
    encryptKey P S g = (Ok t, g')
    /\ decryptApiKey t S = Fulfilled (without_BOM P)
    /\ (head P <> Some 0xFEFF -> decryptApiKey t S = Fulfilled P).
Proof.
  intros Hw. rewrite encryptKey_seal. eexists _, _. split; [reflexivity|].
  assert (E : decryptApiKey
                (EnvelopeJson (seal P S (randomBytes 16 g).1
                                 (randomBytes 32 (randomBytes 16 g).2).1)) S
              = Fulfilled (without_BOM P)).
  { unfold seal. rewrite decryptApiKey_seal
      by first [apply randomBytes_length | apply fit_length].
    cbv zeta. rewrite bool_decide_eq_true_2 by done.
    by rewrite TextDecoder_decode_encode. }
  split; [exact E|]. intros Hb. rewrite E. f_equal.
  destruct P as [|u rest]; [done|]. cbn [without_BOM].
  destruct (N.eqb_spec u 0xFEFF) as [->|]; [by destruct Hb|done].
Qed.

Lemma decryptApiKey_encryptKey_witness :
  exists t g',
    encryptKey (js "sk-proj-4f") (js "ks_00ff") counting_rng = (Ok t, g')
    /\ decryptApiKey t (js "ks_00ff") = Fulfilled (js "sk-proj-4f").
Proof.
  destruct (decryptApiKey_encryptKey (js "sk-proj-4f") (js "ks_00ff") counting_rng eq_refl)
    as (t & g' & He & Hd & _).
  by exists t, g'.
Defined.

(** X10.  The client fails closed as the server does: an envelope made by
    [encryptKey] with one bit of its authTag inverted is rejected by
    [decryptApiKey] under the secret that sealed it, and no plaintext is
    given out. *)
Theorem decryptApiKey_rejects_tampered_tag `{NodeCrypto}
    (P S : jsstring) (g g' : RNG) (e : Envelope) (j i : nat) :
  encryptKey P S g = (Ok (EnvelopeJson e), g') -> (j < 16)%nat ->
  decryptApiKey (EnvelopeJson (tamper_authTag j i e)) S = Rejected OperationError.
Proof.
  intros He Hj.
  apply encryptKey_sealed in He as (k & ivBuf & saltBuf & [= <-] & Hiv & Hsalt & [= ->]).
  unfold tamper_authTag, seal, flip_hex. cbn [encrypted salt iv authTag].
  rewrite Buffer_from_hex_toString.
  rewrite decryptApiKey_seal by (rewrite ?flip_at_length, ?fit_length; done).
  cbv zeta. rewrite bool_decide_eq_false_2; [done|].
  apply flip_at_changes. by rewrite fit_length.
Qed.

Lemma decryptApiKey_rejects_tampered_tag_witness :
  decryptApiKey
    (EnvelopeJson
       (tamper_authTag 3 5 (seal (js "sk") (js "ks")
          (randomBytes 16 counting_rng).1
          (randomBytes 32 (randomBytes 16 counting_rng).2).1)))
    (js "ks")
  = Rejected OperationError.
Proof.
  apply (decryptApiKey_rejects_tampered_tag (js "sk") (js "ks") counting_rng _ _ 3 5
           (encryptKey_seal _ _ _)).
  lia.
Defined.

(** ** API keys and the users' routes *)

Lemma toString_hex_inj (a b : Buffer) : toString_hex a = toString_hex b -> a = b.
Proof.
  intros E. apply (f_equal Buffer_from_hex) in E.
  by rewrite !Buffer_from_hex_toString in E.
Qed.

Lemma map_seq_eq {A} (f g : nat -> A) (k n : nat) :
  map f (seq k n) = map g (seq k n)
  <-> forall i, (k <= i < k + n)%nat -> f i = g i.
Proof.
  revert k. induction n as [|n IH]; intros k; cbn [seq map].
  - split; [intros _ i Hi; lia|done].
  - split.
    + intros [= E0 E] i Hi. destruct (decide (i = k)) as [->|Hne]; [done|].
      apply (proj1 (IH (S k)) E). lia.
    + intros Hall. f_equal; [apply Hall; lia|]. apply IH. intros i Hi.
      apply Hall. lia.
Qed.

Lemma app_not_inherited (b : Buffer) : inherited (js "app_" ++ toString_hex b) = false.
Proof.
  apply bool_decide_eq_false_2. unfold Object_prototype. cbn [map].
  rewrite !elem_of_cons, elem_of_nil. intros Hin. destruct_or?; try done;
    discriminate Hin.
Qed.

(** X11.  An API key of a user is "ks_" and an API key of an App "app_",
    followed by the 64 hex digits of the next 32 random bytes.  Two keys
    are equal only when these 32 bytes are equal, a user's key is never an
    App's key, and no key is the name of a property of [Object.prototype]. *)
Theorem generateApiKey_distinct :
  (forall g,
     generateApiKey g
       = (js "ks_" ++ toString_hex (map g (seq 0 32)), fun i => g (32 + i)%nat)
     /\ generateAppApiKey g
        = (js "app_" ++ toString_hex (map g (seq 0 32)), fun i => g (32 + i)%nat)
     /\ List.length (generateApiKey g).1 = 67%nat
     /\ List.length (generateAppApiKey g).1 = 68%nat
     /\ inherited (generateApiKey g).1 = false
     /\ inherited (generateAppApiKey g).1 = false)
  /\ (forall g1 g2,
        (generateApiKey g1).1 = (generateApiKey g2).1
        <-> forall i, (i < 32)%nat -> g1 i = g2 i)
  /\ (forall g1 g2,
        (generateAppApiKey g1).1 = (generateAppApiKey g2).1
        <-> forall i, (i < 32)%nat -> g1 i = g2 i)
  /\ (forall g1 g2, (generateApiKey g1).1 <> (generateAppApiKey g2).1).
Proof.
  assert (Hk : forall g, generateApiKey g
             = (js "ks_" ++ toString_hex (map g (seq 0 32)), fun i => g (32 + i)%nat))
    by done.
  assert (Ha : forall g, generateAppApiKey g
             = (js "app_" ++ toString_hex (map g (seq 0 32)), fun i => g (32 + i)%nat))
    by done.
  split; [|split; [|split]].
  - intros g. rewrite Hk, Ha. cbn [fst].
    rewrite !length_app, toString_hex_length, length_map, length_seq.
    repeat split; first [apply ks_not_inherited | apply app_not_inherited].
  - intros g1 g2. rewrite !Hk. cbn [fst]. split.
    + intros E%app_inv_head%toString_hex_inj i Hi.
      apply (proj1 (map_seq_eq g1 g2 0 32) E). lia.
    + intros Hall. do 2 f_equal. apply map_seq_eq. intros i Hi. apply Hall. lia.
  - intros g1 g2. rewrite !Ha. cbn [fst]. split.
    + intros E%app_inv_head%toString_hex_inj i Hi.
      apply (proj1 (map_seq_eq g1 g2 0 32) E). lia.
    + intros Hall. do 2 f_equal. apply map_seq_eq. intros i Hi. apply Hall. lia.
  - intros g1 g2. rewrite Hk, Ha. discriminate.
Qed.

Section UserRoutes.
Context `{NodeCrypto}.

(** [post_register] past its three checks. *)
Lemma post_register_new (now : Z) (w : World) (req : Request) :
  truthy (body_username req) = true -> truthy (body_password req) = true ->
  truthy (body_masterKey req) = true ->
  body_masterKey req = MASTER_KEY (env w) ->
  users w !! default [] (body_username req) = None ->
  exists uid hash b g,
    uid <> []
    /\ let un := default [] (body_username req) in
       let key := js "ks_" ++ toString_hex b in
       let user := {| user_id := uid; username := un; passwordHash := hash;
                      user_apiKey := key; user_createdAt := now;
                      user_lastAccess := now |} in
       let w1 := set_entropy g (set_users (<[un := user]> (users w)) w) in
       post_register now w req
       = match JSON_parse_keys (or_empty_object (VALID_API_KEYS (env w))) with
         | Throw _ => (json 500 (error_body "Registration failed"), w1)
         | Ok v =>
             match set_property v key uid with
             | Throw _ => (json 500 (error_body "Registration failed"), w1)
             | Ok v' =>
                 (json 201 (registered uid un key),
                  set_env (set_VALID_API_KEYS (JSON_stringify_keys v') (env w)) w1)
             end
         end.
Proof.
  intros Hu Hp Hm Hmk Hnew. unfold post_register, register_begin.
  rewrite Hu, Hp, Hm, Hmk, bool_decide_eq_true_2 by done. cbn [negb orb].
  rewrite Hnew.
  pose proof (randomUUID_nonempty (entropy w)) as Hid.
  destruct (randomUUID (entropy w)) as [uid g1].
  destruct (hashPassword _ g1) as [hash g2].
  unfold register_resume. cbn [entropy set_entropy].
  pose proof (generateApiKey_form g2) as [b Hk].
  destruct (generateApiKey g2) as [k g3]. cbn [fst] in *. subst k.
  exists uid, hash, b, g3. split; [done|]. cbv zeta.
  cbn [env set_entropy set_users reg_userId reg_username reg_passwordHash users].
  reflexivity.
Qed.

(** Assigning a user id to a name that [generateApiKey] returns. *)
Lemma set_property_ks (v : value) (b : Buffer) (uid : jsstring) :
  set_property v (js "ks_" ++ toString_hex b) uid
  = match v with
    | Object o => Ok (Object (<[js "ks_" ++ toString_hex b := uid]> o))
    | Array a => Ok (Array a)
    | _ => Throw TypeError
    end.
Proof.
  destruct v as [|bo|d|s|a|o]; cbn [set_property];
    rewrite ?ks_not_proto; done.
Qed.

(** What [post_register] answers when one of its checks fails. *)
Lemma post_register_refused (now : Z) (w : World) (req : Request) :
  (truthy (body_username req) && truthy (body_password req)
   && truthy (body_masterKey req)
   && bool_decide (body_masterKey req = MASTER_KEY (env w))
   && bool_decide (users w !! default [] (body_username req) = None)) = false ->
  (post_register now w req).2 = w
  /\ (status (post_register now w req).1 = 400
      \/ status (post_register now w req).1 = 403
      \/ status (post_register now w req).1 = 409).
Proof.
  unfold post_register, register_begin.
  destruct (truthy (body_username req)), (truthy (body_password req)),
    (truthy (body_masterKey req)); cbn [negb orb andb]; auto.
  case_bool_decide; cbn [negb andb]; auto.
  destruct (users w !! _); [auto|]. by rewrite bool_decide_eq_true_2.
Qed.

End UserRoutes.

(** X12.  Registration hands out a working key when the key table is an
    object: when POST /register has answered 201, the user of that name,
    new to the server, is stored with the id and the key of the answer,
    and VALID_API_KEYS was unset, empty, the text of a JSON object or the
    text of a JSON array.  In the first three cases a request that
    presents the API key of the answer passes [validateApiKey] as the user
    id of the answer; in the last the key was set as a property of the
    array that [JSON.stringify] leaves out, and it is answered 401. *)
Theorem register_then_authenticate `{NodeCrypto} (now : Z) (w w' : World)
    (req : Request) (uid un key : jsstring) :
  post_register now w req = (json 201 (registered uid un key), w') ->
  users w !! un = None
  /\ (exists user,
        users w' !! un = Some user
        /\ user_id user = uid /\ user_apiKey user = key /\ username user = un)
  /\ ((exists o, JSON_parse_keys (or_empty_object (VALID_API_KEYS (env w)))
                 = Ok (Object o))
      \/ (exists a, VALID_API_KEYS (env w) = Some (JsonText (Array a))))
  /\ ((exists o, JSON_parse_keys (or_empty_object (VALID_API_KEYS (env w)))
                 = Ok (Object o)) ->
      forall r, headers_x_api_key r = Some key ->
        validateApiKey (env w') r
        = Next (set_apiKeyData {| payload_apiKey := key; userId := Str uid |} r))
  /\ ((exists a, VALID_API_KEYS (env w) = Some (JsonText (Array a))) ->
      forall r, headers_x_api_key r = Some key ->
        validateApiKey (env w') r
        = Respond (json 401 (error_body "Invalid API key"))).
Proof.
  intros Hr.
  destruct (truthy (body_username req) && truthy (body_password req)
            && truthy (body_masterKey req)
            && bool_decide (body_masterKey req = MASTER_KEY (env w))
            && bool_decide (users w !! default [] (body_username req) = None))
    eqn:Hc.
  2: { destruct (post_register_refused now w req Hc) as [_ Hs].
       rewrite Hr in Hs. cbn in Hs. by destruct Hs as [?|[?|?]]. }
  apply andb_true_iff in Hc as [Hc Hnew%bool_decide_eq_true].
  apply andb_true_iff in Hc as [Hc Hmk%bool_decide_eq_true].
  apply andb_true_iff in Hc as [Hc Hm]. apply andb_true_iff in Hc as [Hu Hp].
  destruct (post_register_new now w req Hu Hp Hm Hmk Hnew)
    as (uid0 & hash & b & g & Hid & E).
  cbv zeta in E. rewrite E in Hr. clear E.
  destruct (JSON_parse_keys _) as [v|] eqn:Hv; [|done].
  rewrite set_property_ks in Hr.
  split; [destruct v; try done; by injection Hr as _ <- _ _|].
  split.
  { destruct v; try done; injection Hr as <- <- <- <-; eexists;
      cbn [users set_env set_entropy set_users]; by rewrite lookup_insert_eq. }
  destruct v as [|bo|d|s|a|o]; try done; injection Hr as E1 E2 E3 E4;
    subst uid0 un key w'.
  - (* an array *)
    assert (Ht : VALID_API_KEYS (env w) = Some (JsonText (Array a))).
    { destruct (VALID_API_KEYS (env w)) as [[| |v]|]; try done.
      cbn in Hv. by injection Hv as ->. }
    split; [right; by exists a|]. split; [by intros (o & Ho)|].
    intros _ r Hk. unfold validateApiKey. rewrite Hk.
    cbn [app js map list_ascii_of_string String.string_of_list_ascii].
    change (N_of_ascii "k" :: N_of_ascii "s" :: N_of_ascii "_" :: toString_hex b)
      with (js "ks_" ++ toString_hex b).
    cbn [env set_env set_VALID_API_KEYS VALID_API_KEYS or_empty_object
         JSON_stringify_keys JSON_parse_keys].
    by rewrite (proj1 (ks_on_array b _ [])).
  - (* an object *)
    split; [left; by exists o|]. split.
    + intros _ r Hk.
      rewrite (validateApiKey_own _ r _ (<[js "ks_" ++ toString_hex b := uid]> o) Hk);
        [|done|apply ks_not_inherited|done].
      rewrite lookup_insert_eq. by destruct uid.
    + intros (a & Ha). by rewrite Ha in Hv.
Qed.

Lemma register_then_authenticate_witness :
  let w := sample_world sample_env (sample_file [] true) in
  let req := credentials (js "alice") (js "pw") (Some (js "master")) in
  exists uid key w',
    post_register 10 w req = (json 201 (registered uid (js "alice") key), w')
    /\ validateApiKey (env w') (request_of (Some key) None None None)
       = Next (set_apiKeyData {| payload_apiKey := key; userId := Str uid |}
                 (request_of (Some key) None None None)).
Proof.
  intros w req. eexists _, _, _. split; [reflexivity|].
  destruct (register_then_authenticate 10 w _ req _ _ _ eq_refl)
    as (_ & _ & _ & Hpass & _).
  apply Hpass; [|reflexivity]. eexists. reflexivity.
Defined.

(** X13.  Registration needs the master key: POST /register answers 201
    only for a request whose masterKey equals MASTER_KEY, so when
    MASTER_KEY is not set or is empty nobody is registered and the process
    stays as it was.  Served with no other request in between, a
    registration leaves every user already stored as it is.  But the name
    is checked before the handler awaits the password hash and the user is
    stored after: a registration resumed after other requests stores its
    user under its name whatever is stored there then, and leaves the
    users of other names as they are. *)
Theorem register_guards `{NodeCrypto} (now : Z) (w : World) (req : Request) :
  (status (post_register now w req).1 = 201 ->
     truthy (MASTER_KEY (env w)) = true
     /\ body_masterKey req = MASTER_KEY (env w)
     /\ users w !! default [] (body_username req) = None)
  /\ (truthy (MASTER_KEY (env w)) = false ->
        (post_register now w req).2 = w
        /\ (status (post_register now w req).1 = 400
            \/ status (post_register now w req).1 = 403))
  /\ (forall n u, users w !! n = Some u ->
        users (post_register now w req).2 !! n = Some u)
  /\ (forall p now' w2,
        (register_begin w req).1 = inr p ->
        reg_username p = default [] (body_username req)
        /\ (exists user,
              users (register_resume now' p w2).2 !! reg_username p = Some user
              /\ user_id user = reg_userId p
              /\ passwordHash user = reg_passwordHash p
              /\ user_apiKey user = (generateApiKey (entropy w2)).1)
        /\ (forall n, n <> reg_username p ->
              users (register_resume now' p w2).2 !! n = users w2 !! n)).
Proof.
  assert (Hlast : forall p now' w2,
        (register_begin w req).1 = inr p ->
        reg_username p = default [] (body_username req)
        /\ (exists user,
              users (register_resume now' p w2).2 !! reg_username p = Some user
              /\ user_id user = reg_userId p
              /\ passwordHash user = reg_passwordHash p
              /\ user_apiKey user = (generateApiKey (entropy w2)).1)
        /\ (forall n, n <> reg_username p ->
              users (register_resume now' p w2).2 !! n = users w2 !! n)).
  { intros p now' w2 Hp.
    apply register_begin_pending in Hp as (_ & _ & _ & _ & _ & _ & Hn & _).
    split; [done|]. rewrite register_resume_users. split.
    - eexists. by rewrite lookup_insert_eq.
    - intros n Hne. by rewrite lookup_insert_ne. }
  destruct (truthy (body_username req) && truthy (body_password req)
            && truthy (body_masterKey req)
            && bool_decide (body_masterKey req = MASTER_KEY (env w))
            && bool_decide (users w !! default [] (body_username req) = None))
    eqn:Hc.
  - apply andb_true_iff in Hc as [Hc Hnew%bool_decide_eq_true].
    apply andb_true_iff in Hc as [Hc Hmk%bool_decide_eq_true].
    apply andb_true_iff in Hc as [Hc Hm]. apply andb_true_iff in Hc as [Hu Hp].
    destruct (post_register_new now w req Hu Hp Hm Hmk Hnew)
      as (uid0 & hash & b & g & Hid & E).
    cbv zeta in E. rewrite E. clear E.
    split; [|split; [|split; [|exact Hlast]]].
    + intros _. by rewrite <- Hmk.
    + intros Hf. by rewrite <- Hmk, Hm in Hf.
    + intros n u Hn.
      assert (Hne : default [] (body_username req) <> n) by (intros <-; congruence).
      destruct (JSON_parse_keys _) as [v|];
        [destruct (set_property v _ _)|];
        cbn [snd users set_env set_entropy set_users];
        by rewrite lookup_insert_ne.
  - destruct (post_register_refused now w req Hc) as [Hw Hs].
    split; [|split; [|split; [|exact Hlast]]].
    + intros E. rewrite E in Hs. by destruct Hs as [?|[?|?]].
    + intros Hf. split; [done|]. destruct Hs as [?|[?|E]]; auto.
      exfalso. revert E. unfold post_register, register_begin.
      destruct (truthy (body_username req)), (truthy (body_password req)),
        (truthy (body_masterKey req)) eqn:Hm; cbn [negb orb]; try done.
      rewrite bool_decide_eq_false_2; [done|]. intros E. by rewrite <- E, Hm in Hf.
    + intros n u Hn. by rewrite Hw.
Qed.

(** Two registrations of one name that both pass the check before either
    is resumed are both answered 201; the second replaces the user of the
    first. *)
Lemma concurrent_registrations_replace :
  let w0 := sample_world sample_env (sample_file [] true) in
  let req1 := credentials (js "alice") (js "pw1") (Some (js "master")) in
  let req2 := credentials (js "alice") (js "pw2") (Some (js "master")) in
  exists p1 w1 p2 w2,
    register_begin w0 req1 = (inr p1, w1)
    /\ register_begin w1 req2 = (inr p2, w2)
    /\ let r1 := register_resume 10 p1 w2 in
       let r2 := register_resume 20 p2 r1.2 in
       status r1.1 = 201 /\ status r2.1 = 201
       /\ (exists u1, users r1.2 !! js "alice" = Some u1
                      /\ user_id u1 = reg_userId p1)
       /\ (exists u2, users r2.2 !! js "alice" = Some u2
                      /\ user_id u2 = reg_userId p2)
       /\ reg_userId p1 <> reg_userId p2.
Proof.
  eexists _, _, _, _. split; [by vm_compute|]. split; [by vm_compute|].
  cbv zeta. split; [by vm_compute|]. split; [by vm_compute|].
  split; [eexists; split; by vm_compute|].
  split; [eexists; split; by vm_compute|]. by vm_compute.
Qed.

(** X14.  When VALID_API_KEYS holds a text that is no JSON, a registration
    that passes the checks is answered 500 after the user was stored: the
    name is taken, the key of the user is in no table, and the same
    request sent again is answered 409. *)
Theorem register_failure_keeps_user `{NodeCrypto} (now now' : Z) (w : World)
    (req : Request) :
  truthy (body_username req) = true -> truthy (body_password req) = true ->
  truthy (body_masterKey req) = true ->
  body_masterKey req = MASTER_KEY (env w) ->
  users w !! default [] (body_username req) = None ->
  VALID_API_KEYS (env w) = Some NotJsonText ->
  let w' := (post_register now w req).2 in
  (post_register now w req).1 = json 500 (error_body "Registration failed")
  /\ is_Some (users w' !! default [] (body_username req))
  /\ env w' = env w
  /\ post_register now' w' req
     = (json 409 (error_body "Username already exists"), w').
Proof.
  intros Hu Hp Hm Hmk Hnew Hv.
  destruct (post_register_new now w req Hu Hp Hm Hmk Hnew)
    as (uid0 & hash & b & g & Hid & E).
  cbv zeta in E |- *. rewrite E. clear E. rewrite Hv. cbn [or_empty_object JSON_parse_keys fst snd].
  split; [done|]. split; [cbn; rewrite lookup_insert_eq; by eexists|]. split; [done|].
  unfold post_register, register_begin. cbn [env users set_entropy set_users].
  rewrite Hu, Hp, Hm, Hmk, bool_decide_eq_true_2 by done. cbn [negb orb].
  by rewrite lookup_insert_eq.
Qed.

Lemma register_failure_keeps_user_witness :
  let w := sample_world (sample_env_with (Some NotJsonText) None) (sample_file [] true) in
  let req := credentials (js "alice") (js "pw") (Some (js "master")) in
  (post_register 10 w req).1 = json 500 (error_body "Registration failed")
  /\ (post_register 20 (post_register 10 w req).2 req).1
     = json 409 (error_body "Username already exists").
Proof.
  intros w req.
  destruct (register_failure_keeps_user 10 20 w req eq_refl eq_refl eq_refl eq_refl
              eq_refl eq_refl) as (H1 & _ & _ & H2).
  split; [exact H1|]. by rewrite H2.
Defined.

(** X15.  After POST /rotate-api-key has answered 200, POST /login with the
    same credentials answers 200 and hands out the new API key. *)
Theorem rotate_then_login `{NodeCrypto} (now now' : Z) (w w' : World)
    (req : Request) (newApiKey : jsstring) :
  post_rotate_api_key now w req = (json 200 (rotated newApiKey), w') ->
  exists token w'',
    post_login now' w' req = (json 200 (logged_in token newApiKey), w'')
    /\ env w'' = env w'.
Proof.
  unfold post_rotate_api_key, post_login.
  destruct (negb (truthy (body_username req)) || negb (truthy (body_password req)));
    [done|].
  destruct (users w !! _) as [user|] eqn:Hu; [|done].
  destruct (negb (verifyPassword _ _)) eqn:Hv; [done|].
  destruct (JSON_parse_keys _) as [o|]; [|done].
  destruct (delete_property _ _) as [o1|]; [|done].
  destruct (generateApiKey (entropy w)) as [k g].
  destruct (set_property _ _ _) as [o2|]; [|done].
  intros [= <- <-]. cbn [users set_env set_entropy set_users].
  rewrite lookup_insert_eq. cbn [passwordHash set_user_apiKey]. rewrite Hv.
  eexists _, _. split; [reflexivity|done].
Qed.

Lemma rotate_then_login_witness :
  let w0 := sample_world sample_env (sample_file [] true) in
  let w1 := (post_register 10 w0
               (credentials (js "alice") (js "pw") (Some (js "master")))).2 in
  let req := credentials (js "alice") (js "pw") None in
  exists k token w2 w3,
    post_rotate_api_key 20 w1 req = (json 200 (rotated k), w2)
    /\ post_login 30 w2 req = (json 200 (logged_in token k), w3).
Proof.
  intros w0 w1 req.
  destruct (rotate_then_login 20 30 w1 (post_rotate_api_key 20 w1 req).2 req
              (generateApiKey (entropy w1)).1) as (token & w3 & Hl & _).
  - rewrite (surjective_pairing (post_rotate_api_key 20 w1 req)). f_equal; reflexivity.
  - eexists _, token, _, w3. split; [|exact Hl].
    rewrite (surjective_pairing (post_rotate_api_key 20 w1 req)). f_equal; reflexivity.
Defined.

Lemma delete_property_shape (v v1 : value) (k : jsstring) :
  delete_property v k = Ok v1 ->
  match v with
  | Null => False
  | Object o => v1 = Object (delete k o)
  | Array _ => exists a1, v1 = Array a1
  | _ => v1 = v
  end.
Proof.
  destruct v as [|bo|d|s|a|o]; cbn [delete_property]; try done.
  - by intros [= <-].
  - by intros [= <-].
  - destruct (_ || _); [done|]. by intros [= <-].
  - destruct (array_index k) as [i|].
    + intros [= <-]. by eexists.
    + destruct (bool_decide _); [done|]. intros [= <-]. by eexists.
  - by intros [= <-].
Qed.

(** On a table that is a JSON number or boolean, a rotation with the
    right password changes the user and then fails. *)
Lemma rotate_on_primitive `{NodeCrypto} (now : Z) (w : World) (req : Request)
    (un pw : jsstring) (user : User) (v : value) :
  body_username req = Some un -> un <> [] ->
  body_password req = Some pw -> pw <> [] ->
  users w !! un = Some user ->
  verifyPassword pw (passwordHash user) = true ->
  VALID_API_KEYS (env w) = Some (JsonText v) ->
  (exists b, v = Boolean b) \/ (exists d, v = Number d) ->
  (post_rotate_api_key now w req).1 = json 500 (error_body "API key rotation failed")
  /\ users (post_rotate_api_key now w req).2 !! un
     = Some (set_user_apiKey (generateApiKey (entropy w)).1 user).
Proof.
  intros Hun Hne Hpw Hpne Hu Hv Ht Hprim. unfold post_rotate_api_key.
  rewrite Hun, Hpw. destruct un as [|c un]; [done|]. destruct pw as [|d pw]; [done|].
  cbn [truthy negb orb default from_option Datatypes.id]. rewrite Hu, Hv, Ht.
  cbn [negb or_empty_object JSON_parse_keys].
  pose proof (generateApiKey_form (entropy w)) as [b Hk].
  destruct (generateApiKey (entropy w)) as [k g]. cbn [fst snd] in *. subst k.
  destruct Hprim as [[b0 ->]|[d0 ->]]; cbn [delete_property];
    rewrite set_property_ks; cbn; by rewrite lookup_insert_eq.
Qed.

(** X28.  Rotation needs the password and touches one user only.  POST
    /rotate-api-key answers 200 only when the user exists and the password
    verifies against the stored hash, and then VALID_API_KEYS was unset,
    empty, the text of a JSON object or of a JSON array; the user holds
    the new key, the other users are as they were, and in a table that is
    an object only the old key of the user and the new one have changed.
    An answer 400 or 401 leaves the process as it was.  An answer 500
    leaves it as it was unless VALID_API_KEYS holds a JSON number, boolean
    or string: then the new key is assigned to the user before the
    assignment to the table throws, and the rotation answered 500 has
    replaced the key of the user by one that is in no table. *)
Theorem rotate_guards `{NodeCrypto} (now : Z) (w : World) (req : Request) :
  let r := (post_rotate_api_key now w req).1 in
  let w' := (post_rotate_api_key now w req).2 in
  let k := (generateApiKey (entropy w)).1 in
  (status r = 200 \/ status r = 400 \/ status r = 401 \/ status r = 500)
  /\ (status r = 400 \/ status r = 401 -> w' = w)
  /\ (status r = 200 ->
        exists un pw user,
          body_username req = Some un /\ body_password req = Some pw
          /\ users w !! un = Some user
          /\ verifyPassword pw (passwordHash user) = true
          /\ r = json 200 (rotated k)
          /\ users w' !! un = Some (set_user_apiKey k user)
          /\ user_apiKey (set_user_apiKey k user) = k
          /\ (forall n, n <> un -> users w' !! n = users w !! n)
          /\ ((exists o o',
                 JSON_parse_keys (or_empty_object (VALID_API_KEYS (env w)))
                 = Ok (Object o)
                 /\ VALID_API_KEYS (env w') = Some (ObjectText o')
                 /\ o' !! k = Some (user_id user)
                 /\ (forall k', k' <> user_apiKey user -> k' <> k ->
                       o' !! k' = o !! k'))
              \/ (exists a a',
                    VALID_API_KEYS (env w) = Some (JsonText (Array a))
                    /\ VALID_API_KEYS (env w') = Some (JsonText (Array a')))))
  /\ (status r = 500 ->
        r = json 500 (error_body "API key rotation failed")
        /\ env w' = env w
        /\ (w' = w
            \/ exists un user v,
                 body_username req = Some un /\ users w !! un = Some user
                 /\ VALID_API_KEYS (env w) = Some (JsonText v)
                 /\ primitive v = true
                 /\ users w' = <[un := set_user_apiKey k user]> (users w)))
  /\ (forall un pw user v,
        body_username req = Some un -> un <> [] ->
        body_password req = Some pw -> pw <> [] ->
        users w !! un = Some user ->
        verifyPassword pw (passwordHash user) = true ->
        VALID_API_KEYS (env w) = Some (JsonText v) ->
        (exists b, v = Boolean b) \/ (exists d, v = Number d) ->
        r = json 500 (error_body "API key rotation failed")
        /\ users w' !! un = Some (set_user_apiKey k user)).
Proof.
  cbv zeta.
  split; [|split; [|split; [|split; [|apply rotate_on_primitive]]]];
    unfold post_rotate_api_key;
    (destruct (body_username req) as [[|c un]|]; cbn [truthy negb orb];
       [by auto| |by auto]);
    (destruct (body_password req) as [[|d pw]|]; cbn [truthy negb orb];
       [by auto| |by auto]);
    cbn [default from_option Datatypes.id];
    (destruct (users w !! (c :: un)) as [user|] eqn:Hu; [|by auto]);
    (destruct (verifyPassword (d :: pw) (passwordHash user)) eqn:Hv; cbn [negb];
       [|by auto]);
    (destruct (JSON_parse_keys (or_empty_object (VALID_API_KEYS (env w))))
       as [v|] eqn:Ho; [|by auto]);
    (destruct (delete_property v (user_apiKey user)) as [v1|] eqn:Hd; [|by auto]);
    apply delete_property_shape in Hd;
    pose proof (generateApiKey_form (entropy w)) as [b Hk];
    (destruct (generateApiKey (entropy w)) as [k g]); cbn [fst snd] in *; subst k;
    rewrite set_property_ks;
    (assert (Htext : (primitive v = true \/ exists a, v = Array a) ->
               VALID_API_KEYS (env w) = Some (JsonText v));
     [intros Hc; destruct (VALID_API_KEYS (env w)) as [[| |v']|] eqn:E; cbn in Ho;
        [injection Ho as <-; by destruct Hc as [|[a Ha]]
        |done
        |by injection Ho as ->
        |injection Ho as <-; by destruct Hc as [|[a Ha]]]|]);
    (destruct v as [|bo|dn|s|a|o];
       [done|subst v1..|destruct Hd as [a1 ->]|subst v1]);
    cbn [fst snd status json body]; try by auto; try by intros [|].
  - (* answered 200 on an array *)
    intros _. exists (c :: un), (d :: pw), user.
    repeat split; try done.
    + cbn. by rewrite lookup_insert_eq.
    + intros n Hn. cbn. by rewrite lookup_insert_ne.
    + right. eexists a, _. split; [|reflexivity]. apply Htext. right. by exists a.
  - (* answered 200 on an object *)
    intros _. exists (c :: un), (d :: pw), user.
    repeat split; try done.
    + cbn. by rewrite lookup_insert_eq.
    + intros n Hn. cbn. by rewrite lookup_insert_ne.
    + left. eexists o, _. split; [done|]. split; [reflexivity|].
      split; [by rewrite lookup_insert_eq|].
      intros k' Hk1 Hk2. by rewrite lookup_insert_ne, lookup_delete_ne.
  - (* answered 500 on a boolean *)
    intros _. split; [done|]. split; [done|]. right.
    exists (c :: un), user, (Boolean bo). repeat split; try done. apply Htext. by left.
  - intros _. split; [done|]. split; [done|]. right.
    exists (c :: un), user, (Number dn). repeat split; try done. apply Htext. by left.
  - intros _. split; [done|]. split; [done|]. right.
    exists (c :: un), user, (String_ s). repeat split; try done. apply Htext. by left.
Qed.

(** With VALID_API_KEYS set to the text [1], a rotation is answered 500 and
    the key that a following login hands out is not the one the user
    held. *)
Lemma rotate_failure_changes_key :
  let e := sample_env_with (Some (JsonText (Number (S754_finite false 1 0)))) None in
  let w0 := sample_world e (sample_file [] true) in
  let w1 := (register_resume 10
               {| reg_userId := js "u-1"; reg_username := js "alice";
                  reg_passwordHash := (hashPassword (js "pw") (entropy w0)).1 |}
               w0).2 in
  let rot := post_rotate_api_key 20 w1 (credentials (js "alice") (js "pw") None) in
  exists u u',
    users w1 !! js "alice" = Some u /\ users rot.2 !! js "alice" = Some u'
    /\ status rot.1 = 500 /\ user_apiKey u' <> user_apiKey u.
Proof. eexists _, _. split; [by vm_compute|]. split; by vm_compute. Qed.

(** ** The apps registry: cache and file *)

Lemma registerApp_unfold (now : Z) (name_ : jsstring) (p : Permissions)
    (options : option Options) (w : World) :
  exists ref config w1 g app b,
    loadApps now w = (ref, config, w1)
    /\ registerApp now name_ p options w
       = (app, saveApps now {| apps := assign (apps config) (apiKey app) app |}
                 (mutate ref {| apps := assign (apps config) (apiKey app) app |}
                    (set_entropy g w1)))
    /\ apiKey app = js "app_" ++ toString_hex b
    /\ accessCount app = 0%Z /\ lastAccess app = None
    /\ rateLimit app = Some (default {| windowMs := 60000; maxRequests := 30 |}
                               (options ≫= opt_rateLimit))
    /\ expiresAt app = options ≫= opt_expiresAt
    /\ allowedIPs app = options ≫= opt_allowedIPs
    /\ allowedDomains app = options ≫= opt_allowedDomains.
Proof.
  unfold registerApp. destruct (loadApps now w) as [[ref config] w1].
  destruct (randomUUID (entropy w1)) as [id_ g1].
  unfold generateAppApiKey. destruct (randomBytes 32 g1) as [b g2].
  eexists ref, config, w1, g2, _, b. split; [done|].
  split; [apply pair_equal_spec; split; reflexivity|]. done.
Qed.

Lemma revokeApp_writable (name_ : jsstring) (f : File) :
  writable f = true -> writable (revokeApp name_ f).2 = true.
Proof.
  intros Hw. unfold revokeApp. destruct (read_config f) as [c|]; [|done].
  destruct (first_named name_ (apps c)) as [[k a]|]; [|done].
  unfold writeFileSync. by rewrite Hw.
Qed.

(** X16.  While its cache is fresh the server does not read the apps
    file, and every request that passes [validateAppKey] writes the cache
    back: whatever another process has put into the file in between, a
    revocation by the manage-apps script say, the file then holds the
    cached configuration again, every other app of the cache is found in
    it, and the cache is stamped anew. *)
Theorem cached_config_overwrites_file (now : Z) (w : World) (req : Request)
    (key : jsstring) (c : AppConfig) (app : App) (f : File) :
  appsCache w = Some c -> (now - cacheTimestamp w < CACHE_TTL)%Z ->
  or_else (headers_x_app_key req) (headers_x_api_key req) = Some key ->
  key <> [] ->
  own (apps c) key = Some app ->
  expired now app = false -> ip_allowed app req = true ->
  domain_allowed app req = true ->
  writable f = true ->
  let r := validateAppKey now (set_apps_file f w) req in
  r.1 = Next (set_appData (AppRecord (touch now app)) req)
  /\ content (apps_file r.2)
     = ConfigText {| apps := assign (apps c) key (touch now app) |}
  /\ cacheTimestamp r.2 = now
  /\ forall k a, k <> key -> own (apps c) k = Some a ->
       Lookup (apps_file r.2) k = Some a.
Proof.
  intros Hc Ht Hk Hne Ho He Hi Hd Hw. cbv zeta.
  rewrite (validateAppKey_found now (set_apps_file f w) req key TheCache c
             (set_apps_file f w) app Hk Hne); [|by apply loadApps_cached|done].
  rewrite He, Hi, Hd. cbn [negb fst snd].
  rewrite saveApps_writable by done. cbn.
  repeat split. intros k a Hka Hoa. unfold Lookup. cbn.
  by rewrite own_assign_ne.
Qed.

Lemma cached_config_overwrites_file_witness :
  let bot := sample_app "app_1" "Bot" true false None None in
  let web := sample_app "app_2" "Web" true true None None in
  let c := {| apps := [(js "app_1", bot); (js "app_2", web)] |} in
  let w := set_cache c 0 (sample_world sample_env (sample_file (apps c) true)) in
  let f := (revokeApp (js "Web") (apps_file w)).2 in
  let req := request_of None (Some (js "app_1")) None None in
  Lookup f (js "app_2") = None
  /\ Lookup (apps_file (validateAppKey 1000 (set_apps_file f w) req).2) (js "app_2")
     = Some web.
Proof.
  intros bot web c w f req. split; [reflexivity|].
  refine (proj2 (proj2 (proj2
    (cached_config_overwrites_file 1000 w req (js "app_1") c bot f
       eq_refl _ eq_refl _ eq_refl eq_refl eq_refl eq_refl eq_refl)))
    (js "app_2") web _ eq_refl); [reflexivity|discriminate|discriminate].
Defined.

(** X17.  The gate fails closed on an apps file that cannot be read: when
    the cache is empty or older than a minute and the file is missing or
    is no JSON, a key is answered 401 'Invalid app API key', also a key
    the old cache lists, and nothing is written.  This holds for every key
    that the empty object does not inherit: a key that is not the name of
    a property of [Object.prototype], and not "lastAccess" either, which
    the server itself sets on [Object.prototype] once it has served the
    key "__proto__" (a write that the model, which keeps the prototype of
    a fresh realm, does not follow). *)
Theorem unreadable_apps_file_rejects (now : Z) (w : World) (req : Request)
    (key : jsstring) :
  appsCache w = None \/ (CACHE_TTL <= now - cacheTimestamp w)%Z ->
  content (apps_file w) = Missing \/ content (apps_file w) = Unparsable ->
  or_else (headers_x_app_key req) (headers_x_api_key req) = Some key ->
  key <> [] -> inherited key = false -> key <> js "lastAccess" ->
  validateAppKey now w req
  = (Respond (json 401 (error_body "Invalid app API key")), w).
Proof.
  intros Hc Hf Hk Hne Hi _.
  apply (validateAppKey_not_found now w req key Fresh {| apps := [] |}); try done.
  rewrite loadApps_reads by done. unfold read_config.
  by destruct Hf as [-> | ->].
Qed.

Lemma unreadable_apps_file_rejects_witness :
  let bot := sample_app "app_1" "Bot" true false None None in
  let w := set_cache {| apps := [(js "app_1", bot)] |} 0
             (sample_world sample_env {| content := Missing; writable := true |}) in
  let req := request_of None (Some (js "app_1")) None None in
  validateAppKey 60000 w req
  = (Respond (json 401 (error_body "Invalid app API key")), w).
Proof.
  intros bot w req.
  apply (unreadable_apps_file_rejects 60000 w req (js "app_1")); try done.
  - right. done.
  - by left.
Defined.

(** X18.  In the App flow the name of a property of [Object.prototype]
    passes [validateAppKey] as a key, the built-in being taken for the App
    record, and the configuration is saved; but no service key is handed
    out: GET /keys/openai, /keys/anthropic and /keys/all answer 500. *)
Theorem inherited_app_key_gets_no_key `{NodeCrypto} (now : Z) (w : World)
    (req : Request) (key : jsstring) (ref : ConfigRef) (config : AppConfig)
    (w1 : World) :
  or_else (headers_x_app_key req) (headers_x_api_key req) = Some key ->
  loadApps now w = (ref, config, w1) ->
  own (apps config) key = None -> inherited key = true ->
  validateAppKey now w req
  = (Next (set_appData (InheritedObject key) req), saveApps now config w1)
  /\ (forall s, status (appsRouter_get_keys s now w req).1 = 500)
  /\ status (appsRouter_get_keys_all now w req).1 = 500.
Proof.
  intros Hk Hl Ho Hi.
  assert (Hv : validateAppKey now w req
               = (Next (set_appData (InheritedObject key) req), saveApps now config w1)).
  { unfold validateAppKey. rewrite Hk. destruct key as [|u key]; [done|].
    rewrite Hl. unfold apps_get. by rewrite Ho, Hi. }
  split; [done|]. split.
  - intros s. unfold appsRouter_get_keys, appsRouter_route. by rewrite Hv.
  - unfold appsRouter_get_keys_all, appsRouter_route. by rewrite Hv.
Qed.

Lemma inherited_app_key_gets_no_key_witness :
  let w := sample_world sample_env (sample_file [] true) in
  let req := request_of None (Some (js "constructor")) None None in
  (validateAppKey 1000 w req).1 = Next (set_appData (InheritedObject (js "constructor")) req)
  /\ status (appsRouter_get_keys svc_openai 1000 w req).1 = 500
  /\ status (appsRouter_get_keys_all 1000 w req).1 = 500.
Proof.
  intros w req.
  destruct (inherited_app_key_gets_no_key 1000 w req (js "constructor") TheCache
              {| apps := [] |} (set_cache {| apps := [] |} 1000 w)
              eq_refl eq_refl eq_refl eq_refl) as (Hv & Hs & Ha).
  split; [by rewrite Hv|]. split; [apply Hs|apply Ha].
Defined.



(** X20.  [registerApp] in a process that has not loaded the apps yet (the
    manage-apps script) keeps what the file holds: every record of the
    file is still found under its key afterwards, unless it is the key of
    the new record, and the new record is found under its own. *)
Theorem registerApp_keeps_records (now : Z) (name_ : jsstring) (p : Permissions)
    (options : option Options) (w : World) :
  appsCache w = None -> writable (apps_file w) = true ->
  let app := (registerApp now name_ p options w).1 in
  let w' := (registerApp now name_ p options w).2 in
  Lookup (apps_file w') (apiKey app) = Some app
  /\ forall k a, Lookup (apps_file w) k = Some a -> k <> apiKey app ->
       Lookup (apps_file w') k = Some a.
Proof.
  intros Hc Hw.
  destruct (registerApp_unfold now name_ p options w)
    as (ref & config & w1 & g & app & b & Hl & -> & Hkey & _).
  cbv zeta. cbn [fst snd].
  set (config' := {| apps := assign (apps config) (apiKey app) app |}) in *.
  pose proof (loadApps_frame now w) as Hfr. rewrite Hl in Hfr.
  destruct Hfr as (Hf & _).
  assert (Hf2 : apps_file (mutate ref config' (set_entropy g w1)) = apps_file w).
  { destruct ref; cbn; by rewrite Hf. }
  rewrite saveApps_writable by (by rewrite Hf2).
  unfold Lookup at 1 3. cbn. split; [apply own_assign_eq|].
  intros k a Hka Hne. rewrite own_assign_ne by done.
  rewrite loadApps_reads in Hl by (by left). unfold Lookup in Hka.
  destruct (read_config (apps_file w)) as [c|]; [|done].
  by injection Hl as _ <- _.
Qed.

Lemma registerApp_keeps_records_witness :
  let bot := sample_app "app_1" "Bot" true false None None in
  let w := sample_world sample_env (sample_file [(js "app_1", bot)] true) in
  let w' := (registerApp 1000 (js "Web") {| openai := true; anthropic := true |} None w).2 in
  Lookup (apps_file w') (js "app_1") = Some bot.
Proof.
  intros bot w w'.
  refine (proj2 (registerApp_keeps_records 1000 (js "Web")
                   {| openai := true; anthropic := true |} None w eq_refl eq_refl)
            (js "app_1") bot eq_refl _).
  discriminate.
Defined.

(** ** The checks of the App gate *)

Lemma includes_empty (s : jsstring) : includes s [] = true.
Proof. by destruct s. Qed.

Lemma includes_elem (s d : jsstring) (u : N) :
  includes s d = true -> u ∈ d -> u ∈ s.
Proof.
  intros (pre & post & ->)%includes_spec Hu.
  rewrite !elem_of_app. auto.
Qed.

(** X21.  An entry of allowedDomains is matched letter by letter, as a
    substring of the origin.  An empty entry is part of every origin, so
    a list that holds one lets every request pass the domain check.  An
    entry matches only an origin that has all its characters: a list
    whose entries all contain a character the origin lacks, the "*" of a
    wildcard for one, rejects the request with 403. *)
Theorem domain_entries_are_literal (now : Z) (w : World) (req : Request)
    (key : jsstring) (ref : ConfigRef) (config : AppConfig) (w1 : World)
    (app : App) (ds : list jsstring) (o : jsstring) :
  or_else (headers_x_app_key req) (headers_x_api_key req) = Some key ->
  key <> [] ->
  loadApps now w = (ref, config, w1) ->
  own (apps config) key = Some app ->
  expired now app = false ->
  ip_allowed app req = true ->
  allowedDomains app = Some ds ->
  request_origin req = Some o -> o <> [] ->
  ([] ∈ ds ->
     (validateAppKey now w req).1 = Next (set_appData (AppRecord (touch now app)) req))
  /\ (forall u, ds <> [] -> Forall (fun d => u ∈ d) ds -> u ∉ o ->
        validateAppKey now w req
        = (Respond (json 403 (error_body "Access denied from this domain")), w1)).
Proof.
  intros Hk Hne Hl Ho He Hi Hd Hor Hon.
  rewrite (validateAppKey_found now w req key ref config w1 app Hk Hne Hl Ho).
  rewrite He, Hi. cbn [negb]. unfold domain_allowed. rewrite Hd, Hor.
  cbn [default from_option Datatypes.id].
  assert (Ht : truthy (Some o) = true) by (by destruct o).
  rewrite Ht. split.
  - intros Hin. destruct ds as [|d0 ds']; [by apply elem_of_nil in Hin|].
    replace (existsb (fun domain => includes o domain) (d0 :: ds')) with true; [done|].
    symmetry. apply existsb_exists. exists []. split; [|apply includes_empty].
    by apply list_elem_of_In.
  - intros u Hds Hall Hu. destruct ds as [|d0 ds']; [done|].
    replace (existsb (fun domain => includes o domain) (d0 :: ds')) with false; [done|].
    symmetry. apply not_true_is_false. intros (d & Hin & Hinc)%existsb_exists.
    apply list_elem_of_In in Hin. rewrite Forall_forall in Hall.
    apply Hu. by apply (includes_elem o d u Hinc), Hall.
Qed.

Lemma domain_entries_are_literal_witness :
  let web := sample_app "app_1" "Web" true true None (Some [js "*.myapp.com"]) in
  let w := sample_world sample_env (sample_file [(js "app_1", web)] true) in
  let req := request_of None (Some (js "app_1")) (Some (js "https://www.myapp.com")) None in
  (validateAppKey 1000 w req).1
  = Respond (json 403 (error_body "Access denied from this domain")).
Proof.
  intros web w req.
  rewrite (proj2 (domain_entries_are_literal 1000 w req (js "app_1") TheCache
                    {| apps := [(js "app_1", web)] |}
                    (set_cache {| apps := [(js "app_1", web)] |} 1000 w) web
                    [js "*.myapp.com"] (js "https://www.myapp.com")
                    eq_refl ltac:(discriminate) eq_refl eq_refl eq_refl eq_refl eq_refl
                    eq_refl ltac:(discriminate)) 42).
  - reflexivity.
  - discriminate.
  - repeat constructor.
  - apply (bool_decide_unpack _). reflexivity.
Defined.

(** X22.  Expiry comes first and is strict.  A request whose key is filed
    with an expiresAt earlier than the time of the request is answered
    401 'App API key expired', whatever its address and origin, and
    nothing is counted or written; at the very time of expiresAt, and
    before, the key is not answered so. *)
Theorem expired_key_rejected (now : Z) (w : World) (req : Request)
    (key : jsstring) (ref : ConfigRef) (config : AppConfig) (w1 : World)
    (app : App) (t : Z) :
  or_else (headers_x_app_key req) (headers_x_api_key req) = Some key ->
  key <> [] ->
  loadApps now w = (ref, config, w1) ->
  own (apps config) key = Some app ->
  expiresAt app = Some t ->
  ((t < now)%Z ->
     validateAppKey now w req = (Respond (json 401 (error_body "App API key expired")), w1)
     /\ apps_file w1 = apps_file w
     /\ (ref = TheCache -> appsCache w1 = Some config))
  /\ ((now <= t)%Z ->
        (validateAppKey now w req).1
        <> Respond (json 401 (error_body "App API key expired"))).
Proof.
  intros Hk Hne Hl Ho Ht.
  rewrite (validateAppKey_found now w req key ref config w1 app Hk Hne Hl Ho).
  unfold expired. rewrite Ht.
  pose proof (loadApps_frame now w) as Hfr. rewrite Hl in Hfr.
  destruct Hfr as (Hf & _ & _ & _ & Hc).
  split; intros Hlt.
  - by rewrite (proj2 (Z.ltb_lt _ _) Hlt).
  - rewrite (proj2 (Z.ltb_ge _ _) Hlt).
    destruct (negb (ip_allowed app req)); [done|].
    by destruct (negb (domain_allowed app req)).
Qed.

Lemma expired_key_rejected_witness :
  let bot := {| id := js "7f3c"; name := js "Bot"; apiKey := js "app_1";
                permissions := {| openai := true; anthropic := false |};
                allowedIPs := None; allowedDomains := None; rateLimit := None;
                createdAt := 0; lastAccess := None; accessCount := 0;
                environment := production; expiresAt := Some 5000%Z |} in
  let w := sample_world sample_env (sample_file [(js "app_1", bot)] true) in
  let req := request_of None (Some (js "app_1")) None None in
  (validateAppKey 5001 w req).1 = Respond (json 401 (error_body "App API key expired"))
  /\ (validateAppKey 5000 w req).1 <> Respond (json 401 (error_body "App API key expired")).
Proof.
  intros bot w req. split.
  - rewrite (proj1 (proj1 (expired_key_rejected 5001 w req (js "app_1") TheCache
                     {| apps := [(js "app_1", bot)] |}
                     (set_cache {| apps := [(js "app_1", bot)] |} 5001 w) bot 5000
                     eq_refl ltac:(discriminate) eq_refl eq_refl eq_refl) eq_refl)).
    reflexivity.
  - apply (proj2 (expired_key_rejected 5000 w req (js "app_1") TheCache
                    {| apps := [(js "app_1", bot)] |}
                    (set_cache {| apps := [(js "app_1", bot)] |} 5000 w) bot 5000
                    eq_refl ltac:(discriminate) eq_refl eq_refl eq_refl)).
    discriminate.
Defined.

(** X23.  The IP whitelist is matched exactly.  For an App with a
    non-empty allowedIPs list and an unexpired key, the request is
    answered 403 'Access denied from this IP' exactly when its address
    ([req.ip], or the address of the socket when that is missing or empty)
    is missing, empty or not equal to an entry of the list; with no list,
    or an empty one, no request is answered so. *)
Theorem ip_whitelist_exact (now : Z) (w : World) (req : Request)
    (key : jsstring) (ref : ConfigRef) (config : AppConfig) (w1 : World)
    (app : App) :
  or_else (headers_x_app_key req) (headers_x_api_key req) = Some key ->
  key <> [] ->
  loadApps now w = (ref, config, w1) ->
  own (apps config) key = Some app ->
  expired now app = false ->
  let denied := (Respond (json 403 (error_body "Access denied from this IP")), w1) in
  let clientIP := or_else (ip req) (socket_remoteAddress req) in
  (forall ip0 ips, allowedIPs app = Some (ip0 :: ips) ->
     (validateAppKey now w req = denied
      <-> ~ exists a, clientIP = Some a /\ a <> [] /\ a ∈ ip0 :: ips))
  /\ (allowedIPs app = None \/ allowedIPs app = Some [] ->
        validateAppKey now w req <> denied).
Proof.
  intros Hk Hne Hl Ho He. cbv zeta.
  rewrite (validateAppKey_found now w req key ref config w1 app Hk Hne Hl Ho).
  rewrite He. unfold ip_allowed. split.
  - intros ip0 ips ->.
    destruct (or_else (ip req) (socket_remoteAddress req)) as [[|c a]|];
      cbn [truthy andb negb default from_option Datatypes.id].
    + split; [|done]. intros _ (a & [= <-] & Hna & _). done.
    + case_bool_decide as Hin; cbn [negb].
      * split; [|intros Hn; destruct Hn; by exists (c :: a)].
        by destruct (negb (domain_allowed _ _)).
      * split; [|done]. intros _ (a' & [= <-] & _ & Hin'). done.
    + split; [|done]. intros _ (a & [=] & _).
  - intros [-> | ->]; cbn [negb]; by destruct (negb (domain_allowed _ _)).
Qed.

Lemma ip_whitelist_exact_witness :
  let bot := sample_app "app_1" "Bot" true true (Some [js "10.0.0.5"]) None in
  let w := sample_world sample_env (sample_file [(js "app_1", bot)] true) in
  let req := request_of None (Some (js "app_1")) None (Some (js "10.0.0.50")) in
  (validateAppKey 1000 w req).1
  = Respond (json 403 (error_body "Access denied from this IP")).
Proof.
  intros bot w req.
  rewrite (proj2 (proj1 (ip_whitelist_exact 1000 w req (js "app_1") TheCache
                    {| apps := [(js "app_1", bot)] |}
                    (set_cache {| apps := [(js "app_1", bot)] |} 1000 w) bot
                    eq_refl ltac:(discriminate) eq_refl eq_refl eq_refl)
                  (js "10.0.0.5") [] eq_refl)).
  - reflexivity.
  - intros (a & [= <-] & _ & Hin). rewrite elem_of_cons, elem_of_nil in Hin.
    destruct Hin as [Hin|[]]. discriminate Hin.
Defined.

(** X24.  [createAppRateLimiter] never sets up a window or a maximum of 0:
    a rate limit filed as 0, like one that is missing, gives way to the
    defaults of 60000 ms and 30 requests.  These are also the limits of an
    App that [registerApp] has made without a rateLimit, with or without
    an options object; an App registered with a rateLimit gets its window
    and maximum, each replaced by the default when it is 0.  Requests are
    counted per App id; those that carry no App record, or one without an
    id, share the key "unknown". *)
Theorem createAppRateLimiter_limits :
  (forall app,
     rl_windowMs (createAppRateLimiter app) <> 0%Z
     /\ rl_max (createAppRateLimiter app) <> 0%Z
     /\ (forall r, rateLimit app = Some r ->
           rl_windowMs (createAppRateLimiter app)
             = (if (windowMs r =? 0)%Z then 60000%Z else windowMs r)
           /\ rl_max (createAppRateLimiter app)
              = (if (maxRequests r =? 0)%Z then 30%Z else maxRequests r)))
  /\ (forall now name_ p options w,
        let app := (registerApp now name_ p options w).1 in
        (options ≫= opt_rateLimit = None ->
           rl_windowMs (createAppRateLimiter app) = 60000%Z
           /\ rl_max (createAppRateLimiter app) = 30%Z)
        /\ (forall r, options ≫= opt_rateLimit = Some r ->
              rl_windowMs (createAppRateLimiter app)
                = (if (windowMs r =? 0)%Z then 60000%Z else windowMs r)
              /\ rl_max (createAppRateLimiter app)
                 = (if (maxRequests r =? 0)%Z then 30%Z else maxRequests r)))
  /\ (forall app req a,
        appData req = Some (AppRecord a) -> id a <> [] ->
        rl_keyGenerator (createAppRateLimiter app) req = id a)
  /\ (forall app req,
        appData req = None \/ (exists n, appData req = Some (InheritedObject n))
        \/ (exists a, appData req = Some (AppRecord a) /\ id a = []) ->
        rl_keyGenerator (createAppRateLimiter app) req = js "unknown").
Proof.
  split; [|split; [|split]].
  - intros app. unfold createAppRateLimiter, or_number. cbn [rl_windowMs rl_max].
    destruct (rateLimit app) as [[wm mr]|];
      cbn [fmap option_fmap option_map windowMs maxRequests].
    + split; [by destruct (Z.eqb_spec wm 0)|].
      split; [by destruct (Z.eqb_spec mr 0)|].
      by intros r0 [= <-].
    + split; [done|]. split; [done|]. by intros r0.
  - intros now name_ p options w. cbv zeta.
    destruct (registerApp_unfold now name_ p options w)
      as (ref & config & w1 & g & app & b & _ & -> & _ & _ & _ & Hr & _).
    cbn [fst]. unfold createAppRateLimiter. cbn [rl_windowMs rl_max].
    rewrite Hr. split.
    + by intros ->.
    + intros r ->. cbn. by destruct r.
  - intros app req a Ha Hid. cbn. rewrite Ha. unfold or_else.
    by destruct (id a).
  - intros app req [Ha|[[n Ha]|(a & Ha & Hid)]]; cbn; rewrite Ha; [done..|].
    unfold or_else. by rewrite Hid.
Qed.

(** ** src/middleware/security.ts *)

(** X25.  [validateRequestOrigin]: a request without Origin and Referer is
    answered 403 in production, whatever the list, and passes elsewhere.
    A request with an origin passes when the list is empty or holds "*";
    otherwise it passes exactly when the origin begins with an entry of
    the list, and is answered 403 'Origin not allowed' when it does not. *)
Theorem validateRequestOrigin_exact (allowedOrigins : list jsstring) (e : Env)
    (req : Request) :
  (truthy (request_origin req) = false ->
     validateRequestOrigin allowedOrigins e req
     = if bool_decide (NODE_ENV e = Some (js "production"))
       then Respond (json 403 (error_body "Origin validation failed"))
       else Next req)
  /\ (forall o, request_origin req = Some o -> o <> [] ->
        (allowedOrigins = [] \/ js "*" ∈ allowedOrigins ->
           validateRequestOrigin allowedOrigins e req = Next req)
        /\ (allowedOrigins <> [] -> js "*" ∉ allowedOrigins ->
              ((exists allowed post, allowed ∈ allowedOrigins /\ o = allowed ++ post) ->
                 validateRequestOrigin allowedOrigins e req = Next req)
              /\ (~ (exists allowed post, allowed ∈ allowedOrigins /\ o = allowed ++ post) ->
                    validateRequestOrigin allowedOrigins e req
                    = Respond (json 403 (error_body "Origin not allowed"))))).
Proof.
  unfold validateRequestOrigin. split.
  - intros ->. cbn [negb andb]. by case_bool_decide.
  - intros o Ho Hne. rewrite Ho.
    assert (Ht : truthy (Some o) = true) by (by destruct o).
    rewrite Ht. cbn [negb andb default from_option Datatypes.id]. split.
    + intros [-> | Hin]; [done|].
      rewrite (bool_decide_eq_true_2 _ Hin). cbn [negb]. by rewrite andb_false_r.
    + intros Hl Hstar.
      replace (0 <? List.length allowedOrigins)%nat with true
        by (symmetry; apply Nat.ltb_lt; destruct allowedOrigins; [done|cbn; lia]).
      rewrite (bool_decide_eq_false_2 _ Hstar). cbn [negb andb].
      split.
      * intros (allowed & post & Hin & ->).
        replace (existsb (fun allowed0 => startsWith (allowed ++ post) allowed0)
                   allowedOrigins) with true; [done|].
        symmetry. apply existsb_exists. exists allowed.
        split; [by apply list_elem_of_In|]. apply startsWith_spec. by exists post.
      * intros Hno.
        replace (existsb (fun allowed => startsWith o allowed) allowedOrigins)
          with false; [done|].
        symmetry. apply not_true_is_false.
        intros (allowed & Hin & (post & ->)%startsWith_spec)%existsb_exists.
        apply Hno. exists allowed, post. split; [by apply list_elem_of_In|done].
Qed.

(** ** scripts/manage-apps.ts *)

Lemma set_option_value (k v : jsstring) (o : CLIOptions) :
  set_option k (Some v) o
  = {| cli_name := if bool_decide (k = js "name") then Some v else cli_name o;
       cli_openai := if bool_decide (k = js "openai") then true else cli_openai o;
       cli_anthropic := if bool_decide (k = js "anthropic") then true else cli_anthropic o;
       cli_ips := if bool_decide (k = js "ips") then Some v else cli_ips o;
       cli_domains := if bool_decide (k = js "domains") then Some v else cli_domains o;
       cli_env := if bool_decide (k = js "env") then Some v else cli_env o;
       cli_rateLimit := if bool_decide (k = js "rate-limit") then Some v else cli_rateLimit o;
       cli_expires := if bool_decide (k = js "expires") then Some v else cli_expires o |}.
Proof. done. Qed.

Lemma startsWith_dashes (x : jsstring) : startsWith (js "--" ++ x) (js "--") = true.
Proof.
  change (js "--" ++ x) with (45 :: 45 :: x). change (js "--") with [45; 45].
  cbn [startsWith]. rewrite N.eqb_refl. by destruct x.
Qed.

Lemma option_next_with_value (k : string) (v : option jsstring) (rest : list jsstring) :
  option_next rest -> option_next (with_value k v ++ rest).
Proof. destruct v; [intros _; apply startsWith_dashes|done]. Qed.

Lemma option_next_last (k : string) (v : option jsstring) :
  option_next (with_value k v).
Proof. destruct v; [apply startsWith_dashes|done]. Qed.

Lemma option_next_switch (k : string) (b : bool) (rest : list jsstring) :
  option_next rest -> option_next (switch k b ++ rest).
Proof. destruct b; [intros _; apply startsWith_dashes|done]. Qed.

(** An option with its value, whatever follows. *)
Lemma parse_options_with_value (k : string) (v : option jsstring)
    (rest : list jsstring) (o : CLIOptions) :
  plain v ->
  parse_options (with_value k v ++ rest) o
  = parse_options rest
      match v with
      | Some s => set_option (js k) (Some s) o
      | None => o
      end.
Proof.
  destruct v as [s|]; [|done]. cbn [plain with_value app]. intros Hs.
  cbn [parse_options]. rewrite startsWith_dashes. change (drop 2 (js "--" ++ js k)) with (js k). cbn [head].
  rewrite Hs. cbn [negb]. rewrite andb_true_r.
  destruct s as [|c s]; cbn [truthy]; [|done].
  by cbn [parse_options startsWith js map list_ascii_of_string].
Qed.

(** A switch followed by nothing or by an option. *)
Lemma parse_options_switch (k : string) (b : bool) (rest : list jsstring)
    (o : CLIOptions) :
  option_next rest ->
  parse_options (switch k b ++ rest) o
  = parse_options rest (if b then set_option (js k) (head rest) o else o).
Proof.
  destruct b; [|done]. cbn [switch app]. intros Hn.
  cbn [parse_options]. rewrite startsWith_dashes. change (drop 2 (js "--" ++ js k)) with (js k).
  destruct rest as [|a rest]; [done|]. cbn [option_next] in Hn.
  rewrite Hn. cbn [negb]. by rewrite andb_false_r.
Qed.

(** X26.  [parseArgs] reads the command lines of the help text: for a
    command and options whose name is given and whose values do not begin
    with "--", the arguments [--name n], [--openai], [--anthropic],
    [--ips v], [--domains v], [--env v], [--rate-limit v], [--expires v],
    each present when the option is, are parsed to this command and these
    options.  A value that begins with "--" is not skipped: [--name]
    followed by [--openai] names the App "--openai" and sets the option
    as well. *)
Theorem parseArgs_command_line (exe script command : jsstring) (o : CLIOptions) :
  is_Some (cli_name o) ->
  plain (cli_name o) -> plain (cli_ips o) -> plain (cli_domains o) ->
  plain (cli_env o) -> plain (cli_rateLimit o) -> plain (cli_expires o) ->
  parseArgs (exe :: script :: command :: option_arguments o) = (Some command, o)
  /\ parseArgs [exe; script; command; js "--name"; js "--openai"]
     = (Some command,
        {| cli_name := Some (js "--openai"); cli_openai := true;
           cli_anthropic := false; cli_ips := None; cli_domains := None;
           cli_env := None; cli_rateLimit := None; cli_expires := None |}).
Proof.
  intros [n Hn] Pn Pi Pd Pe Pr Px. split; [|reflexivity].
  unfold parseArgs. cbn [drop head tail]. f_equal.
  unfold option_arguments.
  rewrite parse_options_with_value by done.
  rewrite parse_options_switch
    by (apply option_next_switch; repeat apply option_next_with_value;
        apply option_next_last).
  rewrite parse_options_switch
    by (repeat apply option_next_with_value; apply option_next_last).
  rewrite !parse_options_with_value by done.
  rewrite <- (app_nil_r (with_value "expires" (cli_expires o))).
  rewrite parse_options_with_value by done. cbn [parse_options].
  destruct o as [name_ op an ips dom en rl ex]. cbn [cli_name cli_openai cli_anthropic
    cli_ips cli_domains cli_env cli_rateLimit cli_expires] in *. subst name_.
  destruct op, an, ips, dom, en, rl, ex; reflexivity.
Qed.

Lemma parseArgs_command_line_witness :
  parseArgs [js "ts-node"; js "manage-apps.ts"; js "register"; js "--name"; js "MyWebApp";
             js "--openai"; js "--anthropic"; js "--domains"; js "myapp.com,*.myapp.com"]
  = (Some (js "register"),
     {| cli_name := Some (js "MyWebApp"); cli_openai := true; cli_anthropic := true;
        cli_ips := None; cli_domains := Some (js "myapp.com,*.myapp.com");
        cli_env := None; cli_rateLimit := None; cli_expires := None |}).
Proof.
  refine (proj1 (parseArgs_command_line (js "ts-node") (js "manage-apps.ts") (js "register")
            {| cli_name := Some (js "MyWebApp"); cli_openai := true; cli_anthropic := true;
               cli_ips := None; cli_domains := Some (js "myapp.com,*.myapp.com");
               cli_env := None; cli_rateLimit := None; cli_expires := None |}
            (ex_intro _ _ eq_refl) _ _ _ _ _ _)); reflexivity || exact I.
Defined.

(** X27.  [revokeApp] ends the script with code 1 exactly when the apps
    file was read and holds no app of the name; the file is then as it
    was.  In every other case the script ends normally, as after a
    revocation: when the file cannot be read, and when an app of the name
    is found but the file cannot be written, with the file as it was. *)
Theorem revokeApp_exit_status (name_ : jsstring) (f : File) :
  ((revokeApp name_ f).1 = Exited 1
   <-> exists c, read_config f = Ok c /\ Forall (fun p => name p.2 <> name_) (apps c))
  /\ ((revokeApp name_ f).1 <> Exited 1 -> (revokeApp name_ f).1 = Finished)
  /\ ((revokeApp name_ f).1 = Exited 1 -> (revokeApp name_ f).2 = f)
  /\ (is_ok (read_config f) = false -> revokeApp name_ f = (Finished, f))
  /\ (forall c key a,
        read_config f = Ok c -> (key, a) ∈ apps c -> name a = name_ ->
        writable f = false -> revokeApp name_ f = (Finished, f))
  /\ ((revokeApp name_ f).2 <> f ->
        exists c key a,
          read_config f = Ok c /\ (key, a) ∈ apps c /\ name a = name_
          /\ writable f = true
          /\ revokeApp name_ f
             = (Finished, {| content := ConfigText {| apps := delete_own (apps c) key |};
                             writable := true |})).
Proof.
  unfold revokeApp. destruct (read_config f) as [c|err] eqn:Hr; cbn [is_ok].
  - destruct (first_named name_ (apps c)) as [[key a]|] eqn:Hf.
    + destruct (first_named_split _ _ _ _ Hf) as (pre & post & Hc & Hna & Hpre).
      assert (Hno : ~ exists c', Ok c = Ok c'
                      /\ Forall (fun p => name p.2 <> name_) (apps c')).
      { intros (c' & [= <-] & Hall). rewrite Hc in Hall.
        apply Forall_app in Hall as [_ Hall]. by apply Forall_cons in Hall as [Hall _]. }
      unfold writeFileSync. destruct (writable f) eqn:Hw; cbn [fst snd].
      * repeat split; try done. intros _. exists c, key, a.
        repeat split; try done. rewrite Hc. apply elem_of_app. right. by left.
      * repeat split; done.
    + cbn [fst snd]. pose proof (first_named_None _ _ Hf) as Hall.
      repeat split; try done.
      * intros _. exists c. by split.
      * intros c0 key a [= <-] Hin Hna _. exfalso.
        rewrite Forall_forall in Hall. by apply (Hall _ Hin).
  - cbn [fst snd]. repeat split; try done. by intros (c & [=] & _).
Qed.

(** ** What a released key in the App flow implies *)

Lemma validateAppKey_Next (now : Z) (w w' : World) (req req' : Request) :
  validateAppKey now w req = (Next req', w') ->
  exists key ref config w1,
    or_else (headers_x_app_key req) (headers_x_api_key req) = Some key
    /\ key <> []
    /\ loadApps now w = (ref, config, w1)
    /\ ((exists app,
           own (apps config) key = Some app
           /\ expired now app = false /\ ip_allowed app req = true
           /\ domain_allowed app req = true
           /\ req' = set_appData (AppRecord (touch now app)) req)
        \/ (own (apps config) key = None /\ inherited key = true
            /\ req' = set_appData (InheritedObject key) req)).
Proof.
  unfold validateAppKey.
  destruct (or_else _ _) as [[|c key]|] eqn:Hk; [done| |done].
  destruct (loadApps now w) as [[ref config] w1] eqn:Hl.
  unfold apps_get. destruct (own (apps config) (c :: key)) as [app|] eqn:Ho.
  - destruct (expired now app) eqn:He; [done|].
    destruct (ip_allowed app req) eqn:Hi; cbn [negb]; [|done].
    destruct (domain_allowed app req) eqn:Hd; cbn [negb]; [|done].
    intros [= <- <-]. exists (c :: key), ref, config, w1.
    repeat split; try done. left. by exists app.
  - destruct (inherited (c :: key)) eqn:Hi; [|done].
    intros [= <- <-]. exists (c :: key), ref, config, w1.
    repeat split; try done. by right.
Qed.

Lemma saveApps_env (now : Z) (c : AppConfig) (w : World) :
  env (saveApps now c w) = env w.
Proof. unfold saveApps. by destruct (writeFileSync _ _). Qed.

Lemma validateAppKey_env (now : Z) (w : World) (req : Request) :
  env (validateAppKey now w req).2 = env w.
Proof.
  unfold validateAppKey.
  destruct (or_else _ _) as [[|c k]|]; [done| |done].
  pose proof (loadApps_frame now w) as Hl.
  destruct (loadApps now w) as [[ref config] w1].
  destruct Hl as (_ & _ & He & _).
  destruct (apps_get _ _) as [[app|n]|]; cbn [snd]; [| |done].
  - destruct (expired now app); [done|].
    destruct (negb (ip_allowed app req)); [done|].
    destruct (negb (domain_allowed app req)); [done|]. cbn [snd].
    rewrite saveApps_env. by destruct (mutate_frame ref
      {| apps := assign (apps config) (c :: k) (touch now app) |} w1) as (_ & _ & ->).
  - by rewrite saveApps_env.
Qed.

(** X29.  No service key leaves the App flow without every check: when
    GET /keys/openai or /keys/anthropic answers 200, the request carried a
    key that is filed in the loaded configuration, the record is not
    expired, the address and the origin of the request pass its IP and
    domain restrictions, the record has the permission for the service,
    and the service key is configured; the answer holds that key sealed
    under the API key of the record.  The handler's own answer 'App not
    authenticated' is never given. *)
Theorem apps_key_release_checked `{NodeCrypto} (s : Service) (now : Z) (w : World)
    (req : Request) :
  let r := (appsRouter_get_keys s now w req).1 in
  (status r = 200 ->
     exists key ref config w1 app t,
       or_else (headers_x_app_key req) (headers_x_api_key req) = Some key
       /\ key <> []
       /\ loadApps now w = (ref, config, w1)
       /\ own (apps config) key = Some app
       /\ expired now app = false
       /\ ip_allowed app req = true
       /\ domain_allowed app req = true
       /\ permission (permissions app) s = true
       /\ truthy (service_key (env w) s) = true
       /\ body r = app_key s t (name app) (environment app) now
       /\ sealed_under t (service_key (env w) s) (apiKey app))
  /\ body r <> error_body "App not authenticated"
  /\ body r <> error_body "App authentication required".
Proof.
  cbv zeta. unfold appsRouter_get_keys, appsRouter_route.
  pose proof (validateAppKey_env now w req) as Hw.
  destruct (validateAppKey now w req) as [[r0|req'|err] w'] eqn:Hv; cbn [snd] in Hw.
  - (* answered by the gate *)
    revert Hv. unfold validateAppKey.
    destruct (or_else _ _) as [[|c key]|]; [by intros [= <- <-]| |by intros [= <- <-]].
    destruct (loadApps now w) as [[ref config] w1].
    destruct (apps_get _ _) as [[app|n]|]; [| |by intros [= <- <-]].
    + destruct (expired now app); [by intros [= <- <-]|].
      destruct (negb (ip_allowed app req)); [by intros [= <- <-]|].
      by destruct (negb (domain_allowed app req)); intros [= <- <-].
    + done.
  - apply validateAppKey_Next in Hv
      as (key & ref & config & w1 & Hk & Hne & Hl & [(app & Ho & He & Hi & Hd & ->)|(_ & _ & ->)]).
    + unfold checkAppPermission. cbn [appData set_appData].
      destruct (touch_frame now app) as (Hp & Hkey & Hname & _).
      rewrite Hp. destruct (permission (permissions app) s) eqn:Hperm; cbn [negb fst].
      * unfold apps_get_service. cbn [appData set_appData].
        destruct (truthy (service_key (env w') s)) eqn:Hs; cbn [negb fst].
        -- destruct (encryptKey_total (default [] (service_key (env w') s))
                       (apiKey (touch now app)) (entropy w')) as (t & g & He').
           rewrite He'. cbn [fst status body json]. split; [|done]. intros _.
           exists key, ref, config, w1, app, t.
           rewrite Hw in *. repeat split; try done.
           apply encryptKey_sealed in He'. rewrite Hkey in He'.
           by destruct (service_key (env w) s) as [[|c k]|].
        -- split; [done|]. by destruct s.
      * split; [done|]. by destruct s.
    + unfold checkAppPermission. cbn [appData set_appData]. done.
  - done.
Qed.

(** X30.  A registered user can log in: when POST /register has answered
    201, POST /login with the same user name and password answers 200 and
    hands out the API key of the registration, bcrypt being such that a
    password compares equal to its own hash. *)
Theorem register_then_login `{NodeCrypto} (now now' : Z) (w w' : World)
    (req : Request) (uid un key : jsstring) :
  post_register now w req = (json 201 (registered uid un key), w') ->
  (forall salt_,
     bcrypt_compare (default [] (body_password req))
       (bcrypt_hash (default [] (body_password req)) 12 salt_) = true) ->
  exists token w'',
    post_login now' w' req = (json 200 (logged_in token key), w'')
    /\ env w'' = env w'.
Proof.
  unfold post_register, register_begin, post_login.
  destruct (truthy (body_username req)); [|done].
  destruct (truthy (body_password req)); [|done]. cbn [negb orb].
  destruct (negb (truthy (body_masterKey req))); [done|].
  destruct (negb (bool_decide _)); [done|].
  destruct (users w !! _) eqn:Hu; [done|].
  destruct (randomUUID (entropy w)) as [uid0 g1].
  unfold hashPassword. destruct (randomBytes 16 g1) as [salt_ g2].
  unfold register_resume. cbn [entropy set_entropy].
  destruct (generateApiKey g2) as [k g3].
  cbn [env set_entropy set_users reg_userId reg_username reg_passwordHash users].
  destruct (JSON_parse_keys _) as [o|]; [|done].
  destruct (set_property _ _ _) as [o'|]; [|done].
  intros [= <- <- <- <-] Hb. cbn [users set_env set_entropy set_users].
  rewrite lookup_insert_eq. unfold verifyPassword. cbn [passwordHash].
  rewrite Hb. cbn [negb user_apiKey]. by eexists _, _.
Qed.

Lemma register_then_login_witness :
  let w := sample_world sample_env (sample_file [] true) in
  let req := credentials (js "alice") (js "pw") (Some (js "master")) in
  exists uid key w' token w'',
    post_register 10 w req = (json 201 (registered uid (js "alice") key), w')
    /\ post_login 20 w' req = (json 200 (logged_in token key), w'').
Proof.
  intros w req.
  destruct (register_then_login 10 20 w (post_register 10 w req).2 req
              (randomUUID (entropy w)).1 (js "alice")
              (generateApiKey (hashPassword (js "pw") (randomUUID (entropy w)).2).2).1)
    as (token & w'' & Hl & _).
  - rewrite (surjective_pairing (post_register 10 w req)). f_equal; reflexivity.
  - intros salt_. reflexivity.
  - eexists _, _, _, token, w''. split; [|exact Hl].
    rewrite (surjective_pairing (post_register 10 w req)). f_equal; reflexivity.
Defined.
